(** * qobuz-dl: the resolution and orchestration core ([qobuz_dl/core.py])

    A shallow embedding of [QobuzDL] and [PartialFormatter] and the
    properties of the design document that can be settled on it.

    Conventions of the embedding
    - Python [str] is [string], a character being one of the 256 code
      points an [ascii] holds; [\w] and white space are what Python 3
      takes them to be on these code points.
    - A Python exception is a constructor of [exn]; a call that may raise
      returns a [result].
    - Methods with effects (logging, ledger, network, file system) live in
      the monad [M]: a state transformer over [state] that may raise.
    - The collaborators that are not part of [core.py] (the downloader,
      the catalog client, the tag readers, [requests], the file system)
      are fields of the record [collab]; they read and update an abstract
      [World]. *)

From Stdlib Require Import ZArith Ascii String List Bool Lia DecimalString.
From stdpp Require Import gmap strings list.
Import ListNotations.
Set Warnings "-register-all".

(** ** Exceptions and results *)

Inductive exn : Type :=
| KeyError
| IndexError
| AttributeError
| TypeError
| ValueError
| RequestException     (* requests.exceptions.RequestException and subclasses *)
| NonStreamable        (* qobuz_dl.exceptions.NonStreamable *)
| OSError
| RecursionError
| OtherException (name : string).

Inductive result (A : Type) : Type :=
| Ok (a : A)
| Raise (e : exn).
Arguments Ok {A} a.
Arguments Raise {A} e.

Definition exn_eqb (e1 e2 : exn) : bool :=
  match e1, e2 with
  | KeyError, KeyError | IndexError, IndexError
  | AttributeError, AttributeError | TypeError, TypeError
  | ValueError, ValueError | RequestException, RequestException
  | NonStreamable, NonStreamable | OSError, OSError
  | RecursionError, RecursionError => true
  | OtherException a, OtherException b => String.eqb a b
  | _, _ => false
  end.

Definition rbind {A B} (r : result A) (f : A -> result B) : result B :=
  match r with
  | Ok a => f a
  | Raise e => Raise e
  end.

Notation "'do' x <- r ; k" := (rbind r (fun x => k))
  (at level 10, x pattern, r at level 100, k at level 200, only parsing).

(** ** Python strings *)

Module Py.

(** [s.split(sep)] for a one-character separator: never empty, empty
    segments are kept. *)
Fixpoint split (sep : ascii) (s : string) : list string :=
  match s with
  | EmptyString => [EmptyString]
  | String c s' =>
      if Ascii.eqb c sep then EmptyString :: split sep s'
      else match split sep s' with
           | h :: t => String c h :: t
           | [] => [String c EmptyString]
           end
  end.

(** [l[i]] for [i >= 0]. *)
Definition index {A} (l : list A) (i : nat) : result A :=
  match l !! i with
  | Some x => Ok x
  | None => Raise IndexError
  end.

(** [l[-1]]. *)
Definition index_last {A} (l : list A) : result A :=
  match last l with
  | Some x => Ok x
  | None => Raise IndexError
  end.

(** [s.startswith(p)] *)
Fixpoint startswith (p s : string) : bool :=
  match p, s with
  | EmptyString, _ => true
  | String a p', String b s' => Ascii.eqb a b && startswith p' s'
  | String _ _, EmptyString => false
  end.

(** [p in s] for strings. *)
Fixpoint contains (p s : string) : bool :=
  startswith p s ||
  match s with
  | EmptyString => false
  | String _ s' => contains p s'
  end.

(** [sep.join(l)] *)
Fixpoint join (sep : string) (l : list string) : string :=
  match l with
  | [] => EmptyString
  | [x] => x
  | x :: l' => x +:+ sep +:+ join sep l'
  end.

(** [str(n)] for an integer. *)
Definition str_of_Z (z : Z) : string :=
  NilZero.string_of_int (Z.to_int z).

End Py.

(** ** Regular expressions, as [re.match] runs them

    A backtracking matcher in continuation-passing style: alternatives
    are tried left to right, repetitions are greedy, and the first
    successful path wins.  [rx r s cs k] matches [r] at the start of [s]
    and hands the rest of the input and the captured groups to [k]. *)

Module Re.

Inductive regex : Type :=
| REps
| RChr (c : ascii)
| RSet (p : ascii -> bool)
| RCat (r1 r2 : regex)
| RAlt (r1 r2 : regex)
| RRep (lo : nat) (hi : option nat) (r : regex)   (* greedy r{lo,hi} *)
| RGrp (n : nat) (r : regex).                     (* capturing group n *)

Definition caps := list (nat * string).

(** The text consumed between input [s] and its suffix [s']. *)
Definition consumed (s s' : string) : string :=
  substring 0 (String.length s - String.length s') s.

Definition below (i : nat) (hi : option nat) : bool :=
  match hi with
  | Some h => i <? h
  | None => true
  end.

Fixpoint rx {R : Type} (r : regex) (s : string) (cs : caps)
    (k : string -> caps -> option R) {struct r} : option R :=
  match r with
  | REps => k s cs
  | RChr c =>
      match s with
      | String a s' => if Ascii.eqb a c then k s' cs else None
      | EmptyString => None
      end
  | RSet p =>
      match s with
      | String a s' => if p a then k s' cs else None
      | EmptyString => None
      end
  | RCat r1 r2 => rx r1 s cs (fun s' cs' => rx r2 s' cs' k)
  | RAlt r1 r2 =>
      match rx r1 s cs k with
      | Some x => Some x
      | None => rx r2 s cs k
      end
  | RRep lo hi r' =>
      (fix loop (fuel i : nat) (s : string) (cs : caps) {struct fuel}
         : option R :=
         let stop := if lo <=? i then k s cs else None in
         match fuel with
         | O => stop
         | S fuel' =>
             if below i hi then
               match rx r' s cs
                       (fun s' cs' =>
                          if String.length s' <? String.length s
                          then loop fuel' (S i) s' cs'
                          else None) with
               | Some x => Some x
               | None => stop
               end
             else stop
         end) (String.length s) 0 s cs
  | RGrp n r' => rx r' s cs (fun s' cs' => k s' ((n, consumed s s') :: cs'))
  end.

(** [re.match(r, s)]: the match object (its groups), or [None]. *)
Definition re_match (r : regex) (s : string) : option caps :=
  rx r s [] (fun _ cs => Some cs).

(** [m.group(n)]: [None] when the group took no part in the match. *)
Fixpoint group (n : nat) (m : caps) : option string :=
  match m with
  | [] => None
  | (i, t) :: m' => if i =? n then Some t else group n m'
  end.

(** Pattern syntax. *)
Fixpoint lit (s : string) : regex :=
  match s with
  | EmptyString => REps
  | String c s' => RCat (RChr c) (lit s')
  end.

Fixpoint cat (rs : list regex) : regex :=
  match rs with
  | [] => REps
  | r :: rs' => RCat r (cat rs')
  end.

Fixpoint alt (r : regex) (rs : list regex) : regex :=
  match rs with
  | [] => r
  | r' :: rs' => RAlt r (alt r' rs')
  end.

Definition opt (r : regex) : regex := RRep 0 (Some 1) r.
Definition star (r : regex) : regex := RRep 0 None r.
Definition plus (r : regex) : regex := RRep 1 None r.
Definition times (n : nat) (r : regex) : regex := RRep n (Some n) r.

Definition in_range (lo hi : string) (c : ascii) : bool :=
  match lo, hi with
  | String l _, String h _ =>
      (nat_of_ascii l <=? nat_of_ascii c) && (nat_of_ascii c <=? nat_of_ascii h)
  | _, _ => false
  end.

(** The code points from 128 to 255 that Python 3 counts as alphanumeric
    ([str.isalnum]): the ordinal indicators, the micro sign, the
    superscript digits and the fractions, and the accented letters. *)
Definition is_latin_alnum (c : ascii) : bool :=
  let n := nat_of_ascii c in
  (n =? 170) || (n =? 178) || (n =? 179) || (n =? 181) || (n =? 185)
  || (n =? 186) || ((188 <=? n) && (n <=? 190))
  || ((192 <=? n) && (n <=? 214)) || ((216 <=? n) && (n <=? 246))
  || ((248 <=? n) && (n <=? 255)).

(** [\w] of a [str] pattern: alphanumeric or the underscore. *)
Definition is_word (c : ascii) : bool :=
  in_range "a" "z" c || in_range "A" "Z" c || in_range "0" "9" c
  || Ascii.eqb c "_" || is_latin_alnum c.

(** [[a-z]] *)
Definition is_lower (c : ascii) : bool := in_range "a" "z" c.

Definition word : regex := RSet is_word.

End Re.

(** ** Values of the catalog's JSON answers *)

Inductive value : Type :=
| VNone
| VBool (b : bool)
| VInt (z : Z)
| VStr (s : string)
| VList (l : list value)
| VDict (d : gmap string value).

(** [bool(v)]: what [if v] and [not v] look at. *)
Definition truthy (v : value) : bool :=
  match v with
  | VNone => false
  | VBool b => b
  | VInt z => negb (z =? 0)%Z
  | VStr s => negb (String.eqb s "")
  | VList l => match l with [] => false | _ => true end
  | VDict d => match map_to_list d with [] => false | _ => true end
  end.

(** [v[k]] for a string key [k]: only a dict can be indexed by a string. *)
Definition getitem (v : value) (k : string) : result value :=
  match v with
  | VDict d =>
      match d !! k with
      | Some x => Ok x
      | None => Raise KeyError
      end
  | _ => Raise TypeError
  end.

(** [len(v)] *)
Definition py_len (v : value) : result nat :=
  match v with
  | VStr s => Ok (String.length s)
  | VList l => Ok (length l)
  | VDict d => Ok (size d)
  | _ => Raise TypeError
  end.

(** [for x in v]: the elements a loop over [v] sees. A dict yields its
    keys and a string its characters. *)
Definition py_iter (v : value) : result (list value) :=
  match v with
  | VList l => Ok l
  | VDict d => Ok (map (fun kv => VStr (fst kv)) (map_to_list d))
  | VStr s => Ok (map (fun c => VStr (String c EmptyString)) (list_ascii_of_string s))
  | _ => Raise TypeError
  end.

(** ** [posixpath] *)

Module PosixPath.

(** [os.path.join(a, b)] *)
Definition join (a b : string) : string :=
  if Py.startswith "/" b then b
  else if String.eqb a "" || Ascii.eqb (default "/"%char (last (list_ascii_of_string a))) "/"
       then a +:+ b
       else a +:+ "/" +:+ b.

(** [os.path.basename(p)]: [p[p.rfind('/') + 1:]], the last segment. *)
Definition basename (p : string) : string :=
  default EmptyString (last (Py.split "/" p)).

Definition initial_slashes (path : string) : nat :=
  if Py.startswith "/" path then
    if Py.startswith "//" path && negb (Py.startswith "///" path) then 2 else 1
  else 0.

(** One turn of the loop of [normpath] over the components. *)
Definition norm_step (slashes : nat) (new_comps : list string) (comp : string)
  : list string :=
  if String.eqb comp "" || String.eqb comp "." then new_comps
  else if negb (String.eqb comp "..")
          || ((slashes =? 0) && (length new_comps =? 0))
          || String.eqb (default "" (last new_comps)) ".."
       then new_comps ++ [comp]
       else removelast new_comps.

(** [os.path.normpath(path)] *)
Definition normpath (path : string) : string :=
  if String.eqb path "" then "."
  else
    let slashes := initial_slashes path in
    let comps := fold_left (norm_step slashes) (Py.split "/" path) [] in
    let path' := Py.join "/" comps in
    let path' := String.concat "" (repeat "/" slashes) +:+ path' in
    if String.eqb path' "" then "." else path'.

(** [p.rfind(c)], [None] for -1. *)
Fixpoint rfind (c : ascii) (p : string) : option nat :=
  match p with
  | EmptyString => None
  | String a p' =>
      match rfind c p' with
      | Some i => Some (S i)
      | None => if Ascii.eqb a c then Some 0 else None
      end
  end.

Definition all_dots (s : string) : bool :=
  forallb (fun c => Ascii.eqb c ".") (list_ascii_of_string s).

(** [os.path.splitext(p)]: the extension starts at the last dot of the
    last segment, unless only dots come before it in that segment. *)
Definition splitext (p : string) : string * string :=
  let name_start := match rfind "/" p with Some i => S i | None => 0 end in
  match rfind "." p with
  | Some dot =>
      if (name_start <=? dot)
         && negb (all_dots (substring name_start (dot - name_start) p))
      then (substring 0 dot p, substring dot (String.length p - dot) p)
      else (p, EmptyString)
  | None => (p, EmptyString)
  end.

(** [os.path.abspath(path)] with the process working directory [cwd]. *)
Definition abspath (cwd path : string) : string :=
  normpath (if Py.startswith "/" path then path else join cwd path).

End PosixPath.

(** ** Format strings ([string.Formatter])

    A format string is kept in parsed form: literal text and replacement
    fields [{first[key]...:spec}].  None of the templates of [core.py]
    uses a conversion ([!r]) or an attribute access ([.name]). *)

Record field : Type := {
  f_first : string;        (* looked up among the keyword arguments *)
  f_items : list string;   (* then indexed by these keys, in order *)
  f_spec : string          (* the format specifier after the colon *)
}.

Inductive segment : Type :=
| Lit (s : string)
| Fld (f : field).

Definition template := list segment.

(** [{first}] and [{first[key]}] with an empty specifier. *)
Definition fld (first : string) : segment :=
  Fld {| f_first := first; f_items := []; f_spec := "" |}.
Definition fld_item (first key : string) : segment :=
  Fld {| f_first := first; f_items := [key]; f_spec := "" |}.

(** The dotted/bracketed name of a field, as [get_field] receives it. *)
Definition field_name (f : field) : string :=
  f_first f +:+ String.concat "" (map (fun k => "[" +:+ k +:+ "]") (f_items f)).

Section Formatter.

(** The builtin [format(value, spec)], which [string.Formatter.format_field]
    calls. *)
Variable py_format : value -> string -> result string.

(** [string.Formatter.get_field]: the object the field designates. *)
Definition base_get_field (f : field) (kwargs : gmap string value)
  : result value :=
  do obj <- match kwargs !! f_first f with
            | Some v => Ok v
            | None => Raise KeyError
            end;
  fold_left (fun acc k => do o <- acc; getitem o k) (f_items f) (Ok obj).

Record PartialFormatter : Type := {
  missing : string;
  bad_fmt : string
}.

(** [PartialFormatter()] *)
Definition PartialFormatter_default : PartialFormatter :=
  {| missing := "n/a"; bad_fmt := "n/a" |}.

(** [PartialFormatter.get_field], first component of the pair. *)
Definition get_field (self : PartialFormatter) (f : field)
    (kwargs : gmap string value) : result value :=
  match base_get_field f kwargs with
  | Raise KeyError | Raise AttributeError => Ok VNone
  | r => r
  end.

(** [PartialFormatter.format_field] *)
Definition format_field (self : PartialFormatter) (v : value) (spec : string)
  : result string :=
  if negb (truthy v) then Ok (missing self)
  else
    match py_format v spec with
    | Raise ValueError =>
        if negb (String.eqb (bad_fmt self) "") then Ok (bad_fmt self)
        else Raise ValueError
    | r => r
    end.

(** [fmt.format(template, **kwargs)] *)
Fixpoint vformat (self : PartialFormatter) (t : template)
    (kwargs : gmap string value) : result string :=
  match t with
  | [] => Ok EmptyString
  | Lit s :: t' =>
      do rest <- vformat self t' kwargs;
      Ok (s +:+ rest)
  | Fld f :: t' =>
      do obj <- get_field self f kwargs;
      do txt <- format_field self obj (f_spec f);
      do rest <- vformat self t' kwargs;
      Ok (txt +:+ rest)
  end.

End Formatter.

(** ** Configuration, collaborators, events *)

(** The fields [QobuzDL.__init__] stores on [self]. *)
Record config : Type := {
  directory : string;
  quality : Z;
  embed_art : bool;
  lucky_limit : Z;
  lucky_type : string;
  interactive_limit : Z;
  ignore_singles_eps : bool;
  no_m3u_for_playlists : bool;
  quality_fallback : bool;
  cover_og_quality : bool;
  no_cover : bool
}.

Inductive meta_func : Type := get_plist_meta | get_artist_meta | get_label_meta.
Inductive search_func : Type :=
  search_albums | search_artists | search_tracks | search_playlists.
Inductive tag_reader : Type := EasyMP3 | FLAC.

(** What [bs4] selects from a fetched page. *)
Record page : Type := {
  page_artists : list string;   (* texts of soup.select(ARTISTS_SELECTOR) *)
  page_titles : list string;    (* texts of soup.select(TITLE_SELECTOR) *)
  page_h1 : option string       (* text of soup.select_one("h1"), if any *)
}.

(** An opened audio file, as far as [make_m3u] reads it. *)
Record audio : Type := {
  audio_tag : string -> option (list string);   (* pl_item[key] *)
  audio_length : Z                              (* int(pl_item.info.length) *)
}.

(** A directory as [os.walk] sees it: file names, and sub-directories by
    name, in the order the operating system lists them. *)
Inductive dirtree : Type :=
| Dir (files : list string) (subdirs : list (string * dirtree)).

Record collab (World : Type) : Type := {
  (* downloader.download_id_by_type(client, item_id, path, quality, album, ...) *)
  download_id_by_type :
    config -> string -> string -> bool -> World -> result unit * World;
  (* self.client.get_*_meta(item_id), with every page it yields *)
  client_meta : meta_func -> string -> World -> result (list value) * World;
  (* self.client.search_*(query, limit) *)
  client_search : search_func -> string -> Z -> World -> result value * World;
  (* requests.get(url, timeout=10), parsed by BeautifulSoup *)
  requests_get : string -> World -> result page * World;
  (* os.path.isfile *)
  isfile : string -> World -> bool;
  (* open(path, "r"): the outer result is open itself, the inner one readlines *)
  open_lines : string -> World -> result (result (list string));
  (* os.makedirs(path, exist_ok=True) *)
  makedirs : string -> World -> result unit * World;
  (* the tree under a directory, None when there is no such directory *)
  fs_tree : string -> World -> option dirtree;
  (* os.getcwd() *)
  getcwd : World -> string;
  (* int(time.time()) *)
  now : World -> Z;
  (* mutagen's EasyMP3(path) and FLAC(path) *)
  open_audio : tag_reader -> string -> World -> result audio;
  (* open(path, "w") and write *)
  write_text : string -> string -> World -> result unit * World;
  (* pathvalidate.sanitize_filename *)
  sanitize_filename : value -> result string;
  (* the builtin format(value, spec) *)
  py_format : value -> string -> result string
}.
Arguments download_id_by_type {World} _.
Arguments client_meta {World} _.
Arguments client_search {World} _.
Arguments requests_get {World} _.
Arguments isfile {World} _.
Arguments open_lines {World} _.
Arguments makedirs {World} _.
Arguments fs_tree {World} _.
Arguments getcwd {World} _.
Arguments now {World} _.
Arguments open_audio {World} _.
Arguments write_text {World} _.
Arguments sanitize_filename {World} _.
Arguments py_format {World} _.

(** The messages [core.py] logs, by the place that logs them. *)
Inductive log_msg : Type :=
| AlreadyDownloaded (item_id : string)      (* "This release ID (..) was already downloaded .." *)
| ErrorGettingRelease (e : exn)             (* "Error getting release: {e}. Skipping..." *)
| InvalidUrl (url : string)                 (* "Invalid url: .." *)
| DownloadingAll (content_name : value) (url_type : string)
| DownloadsInQueue (n : nat)                (* "{len(items)} downloads in queue" *)
| NothingToDownload
| InvalidTextFile (e : exn)
| WillDownloadFromFile (n : nat) (txt_file : string)
| QueryTooShort
| InvalidType (item_type : string)          (* "Invalid type: {item_type}" *)
| PlaylistDownloadFailed (e : exn)
| NothingFound
| DownloadingPlaylist (pl_title : string) (n : nat).

Inductive event : Type :=
| EvLog (m : log_msg)
| EvDownload (item_id path : string) (album : bool)   (* the downloader is called *)
| EvLedgerInsert (item_id : string)                   (* an id is recorded *)
| EvMeta (f : meta_func) (item_id : string)           (* catalog metadata is fetched *)
| EvSearch (f : search_func) (query : string) (limit : Z)
| EvHttpGet (url : string)
| EvMakedirs (path : string)
| EvWrite (path content : string).

(** ** Module constants *)

Definition WEB_URL : string := "https://play.qobuz.com/".
Definition EXTENSIONS : list string := [".mp3"; ".flac"].
Definition nl : string := String (ascii_of_nat 10) EmptyString.

Definition in_list (x : string) (l : list string) : bool :=
  existsb (String.eqb x) l.

(** ** [QobuzDL.get_id] and [QobuzDL.get_type] *)

(** r"https?://(?:w{0,3}|play|open)\.qobuz\.com/(?:(?:album|track"
    r"|artist|playlist|label)/|[a-z]{2}-[a-z]{2}/album/-?\w+(?:-\w+)*"
    r"-?/|user/library/favorites/)(\w+)" *)
Definition id_pattern : Re.regex :=
  Re.cat
    [ Re.lit "http"; Re.opt (Re.RChr "s"); Re.lit "://";
      Re.alt (Re.RRep 0 (Some 3) (Re.RChr "w")) [Re.lit "play"; Re.lit "open"];
      Re.lit ".qobuz.com/";
      Re.alt
        (Re.cat [ Re.alt (Re.lit "album")
                    [Re.lit "track"; Re.lit "artist"; Re.lit "playlist";
                     Re.lit "label"];
                  Re.RChr "/" ])
        [ Re.cat [ Re.times 2 (Re.RSet Re.is_lower); Re.RChr "-";
                   Re.times 2 (Re.RSet Re.is_lower); Re.lit "/album/";
                   Re.opt (Re.RChr "-"); Re.plus Re.word;
                   Re.star (Re.RCat (Re.RChr "-") (Re.plus Re.word));
                   Re.opt (Re.RChr "-"); Re.RChr "/" ];
          Re.lit "user/library/favorites/" ];
      Re.RGrp 1 (Re.plus Re.word) ].

(** [re.match(...).group(1)]: without a match, [.group] is looked up on
    [None].  Group 1 is not optional in [id_pattern], so a match always
    sets it (lemma [id_pattern_sets_group] below). *)
Definition get_id (url : string) : result string :=
  match Re.re_match id_pattern url with
  | None => Raise AttributeError
  | Some m =>
      match Re.group 1 m with
      | Some t => Ok t
      | None => Raise TypeError
      end
  end.

Definition get_type (url : string) : result string :=
  let parts := Py.split "/" url in
  match Re.re_match (Re.RCat (Re.lit "http") (Re.opt (Re.RChr "s"))) url with
  | Some _ =>
      do url_type <- Py.index parts 3;
      if negb (in_list url_type ["album"; "artist"; "playlist"; "track"; "label"])
      then
        if String.eqb url_type "user" then Py.index_last parts
        else
          (* url is from Qobuz store *)
          Py.index parts 4
      else Ok url_type
  | None =>
      (* url missing base *)
      Py.index parts 2
  end.

(** The table [possibles] of [handle_url]. *)
Record type_dict : Type := {
  td_album : option bool;
  td_func : option meta_func;
  td_iterable_key : option string
}.

Definition possibles (url_type : string) : result type_dict :=
  if String.eqb url_type "playlist" then
    Ok {| td_album := None; td_func := Some get_plist_meta;
          td_iterable_key := Some "tracks" |}
  else if String.eqb url_type "artist" then
    Ok {| td_album := None; td_func := Some get_artist_meta;
          td_iterable_key := Some "albums" |}
  else if String.eqb url_type "label" then
    Ok {| td_album := None; td_func := Some get_label_meta;
          td_iterable_key := Some "albums" |}
  else if String.eqb url_type "album" then
    Ok {| td_album := Some true; td_func := None; td_iterable_key := None |}
  else if String.eqb url_type "track" then
    Ok {| td_album := Some false; td_func := None; td_iterable_key := None |}
  else Raise KeyError.

(** The body of the [try] of [handle_url]: type, table entry, id. *)
Definition handle_url_try (url : string) : result (string * type_dict * string) :=
  do url_type <- get_type url;
  do td <- possibles url_type;
  do item_id <- get_id url;
  Ok (url_type, td, item_id).

(** [except (KeyError, IndexError)] *)
Definition is_key_or_index_error (e : exn) : bool :=
  match e with
  | KeyError | IndexError => true
  | _ => false
  end.

(** ** The state and the monad of the methods *)

Record state (World : Type) : Type := {
  world : World;
  (* the ids recorded in self.downloads_db; None when no database is set *)
  downloads_db : option (gset string);
  (* what has happened so far, oldest first *)
  trace : list event
}.
Arguments world {World} _.
Arguments downloads_db {World} _.
Arguments trace {World} _.

Definition M (World : Type) (A : Type) : Type :=
  state World -> result A * state World.

Section Monad.

Context {World : Type}.

Definition ret {A} (a : A) : M World A := fun st => (Ok a, st).

Definition raise {A} (e : exn) : M World A := fun st => (Raise e, st).

Definition bind {A B} (m : M World A) (f : A -> M World B) : M World B :=
  fun st =>
    match m st with
    | (Ok a, st') => f a st'
    | (Raise e, st') => (Raise e, st')
    end.

(** A pure computation that may raise. *)
Definition lift {A} (r : result A) : M World A := fun st => (r, st).

Definition emit (ev : event) : M World unit :=
  fun st =>
    (Ok tt, {| world := world st; downloads_db := downloads_db st;
               trace := trace st ++ [ev] |}).

Definition log (m : log_msg) : M World unit := emit (EvLog m).

(** Look at the world without changing it. *)
Definition ask {A} (f : World -> A) : M World A :=
  fun st => (Ok (f (world st)), st).

(** The same, for a look that may raise. *)
Definition ask_result {A} (f : World -> result A) : M World A :=
  fun st => (f (world st), st).

(** Call a collaborator that may change the world. *)
Definition call {A} (f : World -> result A * World) : M World A :=
  fun st =>
    let (r, w) := f (world st) in
    (r, {| world := w; downloads_db := downloads_db st; trace := trace st |}).

(** [try: body except <caught> as e: handler e] *)
Definition try_except {A} (body : M World A) (caught : exn -> bool)
    (handler : exn -> M World A) : M World A :=
  fun st =>
    match body st with
    | (Raise e, st') => if caught e then handler e st' else (Raise e, st')
    | r => r
    end.

End Monad.

Notation "x <- m ;; k" := (bind m (fun x => k))
  (at level 100, m at next level, k at level 200, right associativity).
Notation "m ;; k" := (bind m (fun _ => k))
  (at level 100, k at level 200, right associativity).

Section Monad_loops.

Context {World : Type}.

(** [for x in l: body x] *)
Fixpoint for_each {A} (l : list A) (body : A -> M World unit)
  : M World unit :=
  match l with
  | [] => ret tt
  | x :: l' => body x ;; for_each l' body
  end.

End Monad_loops.

(** [mapM] in [result]: a list comprehension whose element may raise. *)
Fixpoint map_result {A B} (f : A -> result B) (l : list A) : result (list B) :=
  match l with
  | [] => Ok []
  | x :: l' =>
      do y <- f x;
      do ys <- map_result f l';
      Ok (y :: ys)
  end.

(** ** Helpers of the methods that need no collaborator *)

(** [time.strftime("%H:%M:%S", time.gmtime(secs))] for integer seconds. *)
Definition two_digits (z : Z) : string :=
  (if (z <? 10)%Z then "0" else "") +:+ Py.str_of_Z z.

Definition strftime_HMS (secs : Z) : string :=
  let s := (secs mod 86400)%Z in
  two_digits (s / 3600) +:+ ":" +:+ two_digits (s mod 3600 / 60) +:+ ":"
  +:+ two_digits (s mod 60).

(** The table [possibles] of [search_by_type]. *)
Record mode_dict : Type := {
  md_func : search_func;
  md_album : bool;
  md_key : string;
  md_format : template;
  md_requires_extra : bool
}.

Definition search_possibles (item_type : string) : result mode_dict :=
  if String.eqb item_type "album" then
    Ok {| md_func := search_albums; md_album := true; md_key := "albums";
          (* "{artist[name]} - {title}" *)
          md_format := [fld_item "artist" "name"; Lit " - "; fld "title"];
          md_requires_extra := true |}
  else if String.eqb item_type "artist" then
    Ok {| md_func := search_artists; md_album := true; md_key := "artists";
          (* "{name} - ({albums_count} releases)" *)
          md_format := [fld "name"; Lit " - ("; fld "albums_count";
                        Lit " releases)"];
          md_requires_extra := false |}
  else if String.eqb item_type "track" then
    Ok {| md_func := search_tracks; md_album := false; md_key := "tracks";
          (* "{performer[name]} - {title}" *)
          md_format := [fld_item "performer" "name"; Lit " - "; fld "title"];
          md_requires_extra := true |}
  else if String.eqb item_type "playlist" then
    Ok {| md_func := search_playlists; md_album := false; md_key := "playlists";
          (* "{name} - ({tracks_count} releases)" *)
          md_format := [fld "name"; Lit " - ("; fld "tracks_count";
                        Lit " releases)"];
          md_requires_extra := false |}
  else Raise KeyError.

(** An element of the list [search_by_type] returns: a dict with the
    text and the url, or the bare url in lucky mode. *)
Inductive search_entry : Type :=
| Hit (text url : string)
| Link (url : string).

(** [line.strip()]: white space ([str.isspace]) is removed at both ends. *)
Definition is_space (c : ascii) : bool :=
  let n := nat_of_ascii c in
  ((9 <=? n) && (n <=? 13)) || ((28 <=? n) && (n <=? 32))
  || (n =? 133) || (n =? 160).

Fixpoint lstrip (s : string) : string :=
  match s with
  | String c s' => if is_space c then lstrip s' else s
  | EmptyString => EmptyString
  end.

Definition strip (s : string) : string :=
  let rev_s (x : string) := string_of_list_ascii (rev (list_ascii_of_string x)) in
  rev_s (lstrip (rev_s (lstrip s))).

(** [line.replace("\n", "")] *)
Fixpoint remove_newlines (s : string) : string :=
  match s with
  | String c s' =>
      if Ascii.eqb c (ascii_of_nat 10) then remove_newlines s'
      else String c (remove_newlines s')
  | EmptyString => EmptyString
  end.

(** The list comprehension of [download_from_txt_file]. *)
Definition txt_urls (lines : list string) : list string :=
  map remove_newlines
      (filter (fun line => negb (Py.startswith "#" (strip line))) lines).

(** The [track_list] of [download_lastfm_pl]. *)
Definition lastfm_track_list (artists titles : list string) : list string :=
  if (length artists =? length titles) && negb (length artists =? 0)
  then map (fun at_ => fst at_ +:+ " " +:+ snd at_) (combine artists titles)
  else [].

(** [dirs.sort()] : a stable insertion sort on the directory names. *)
Fixpoint insert_by_name {A} (x : string * A) (l : list (string * A))
  : list (string * A) :=
  match l with
  | [] => [x]
  | y :: l' =>
      if String.leb (fst x) (fst y) then x :: y :: l'
      else y :: insert_by_name x l'
  end.

Definition sort_by_name {A} (l : list (string * A)) : list (string * A) :=
  fold_right insert_by_name [] l.

(** [os.walk(top)], top-down, each directory's sub-directories visited
    in sorted order: the triples [(local, dirs, files)] in the order the
    loop of [make_m3u] receives them. *)
Fixpoint os_walk (top : string) (t : dirtree)
  : list (string * list string * list string) :=
  match t with
  | Dir files subdirs =>
      let below :=
        sort_by_name
          (map (fun d => (fst d, os_walk (PosixPath.join top (fst d)) (snd d)))
               subdirs) in
      (top, map fst below, files) :: concat (map snd below)
  end.

(** [os.path.splitext(file_)[-1] in EXTENSIONS] *)
Definition has_audio_extension (file_ : string) : bool :=
  in_list (snd (PosixPath.splitext file_)) EXTENSIONS.

(** The two list comprehensions of [make_m3u]. *)
Definition audio_rel_files (local : string) (files : list string) : list string :=
  map (fun file_ =>
         PosixPath.join (PosixPath.basename (PosixPath.normpath local)) file_)
      (filter has_audio_extension files).

Definition audio_files (cwd local : string) (files : list string) : list string :=
  map (fun file_ => PosixPath.abspath cwd (PosixPath.join local file_))
      (filter has_audio_extension files).

(** The guard [if not audio_files or len(audio_files) != len(audio_rel_files)]. *)
Definition m3u_skips (rel abs : list string) : bool :=
  (length abs =? 0) || negb (length abs =? length rel).

(** ** The methods of [QobuzDL] *)

Section QobuzDL.

Context {World : Type}.
Variable env : collab World.
Variable self : config.

(** Modelled from the spec: [handle_download_id] of [qobuz_dl/db.py],
    which is not among the sources.  The ledger answers [contains(id)]
    (with [add_id=False]) and performs [insert(id)] (with [add_id=True]);
    without a configured ledger it does neither. *)
Definition handle_download_id (item_id : string) (add_id : bool) : M World bool :=
  fun st =>
    match downloads_db st with
    | None => (Ok false, st)
    | Some ids =>
        if add_id then
          (Ok false,
           {| world := world st;
              downloads_db := Some ({[item_id]} ∪ ids);
              trace := trace st ++ [EvLedgerInsert item_id] |})
        else (Ok (bool_decide (item_id ∈ ids)), st)
    end.

(** [except (requests.exceptions.RequestException, NonStreamable)] *)
Definition is_request_or_non_streamable (e : exn) : bool :=
  match e with
  | RequestException | NonStreamable => true
  | _ => false
  end.

(** [alt_path or self.directory] *)
Definition path_or_directory (alt_path : option string) : string :=
  match alt_path with
  | Some p => if String.eqb p "" then directory self else p
  | None => directory self
  end.

Definition download_from_id (item_id : string) (album : bool)
    (alt_path : option string) : M World unit :=
  known <- handle_download_id item_id false ;;
  if known then log (AlreadyDownloaded item_id)
  else
    try_except
      (let path := path_or_directory alt_path in
       emit (EvDownload item_id path album) ;;
       call (download_id_by_type env self item_id path album) ;;
       handle_download_id item_id true ;;
       ret tt)
      is_request_or_non_streamable
      (fun e => log (ErrorGettingRelease e)).

Definition create_dir (directory : string) : M World string :=
  let fix_ := PosixPath.normpath directory in
  emit (EvMakedirs fix_) ;;
  call (makedirs env fix_) ;;
  ret fix_.

(** *** [make_m3u] *)

(** The body of the [try] of [make_m3u] for one file: the playlist item
    [index], or the exception the bare [except] swallows. *)
Definition m3u_index (w : World) (audio_rel_file audio_file : string)
  : result string :=
  do pl_item <- open_audio env
                  (if Py.contains ".mp3" audio_file then EasyMP3 else FLAC)
                  audio_file w;
  do title <- (do l <- match audio_tag pl_item "TITLE" with
                       | Some l => Ok l
                       | None => Raise KeyError
                       end;
               Py.index l 0);
  do artist <- (do l <- match audio_tag pl_item "ARTIST" with
                        | Some l => Ok l
                        | None => Raise KeyError
                        end;
                Py.index l 0);
  let length := audio_length pl_item in
  Ok ("#EXTINF:" +:+ Py.str_of_Z length +:+ ", " +:+ artist +:+ " - " +:+ title
      +:+ nl +:+ audio_rel_file).

(** What one turn of the [os.walk] loop appends to [track_list]. *)
Definition m3u_dir_items (w : World) (local : string) (files : list string)
  : list string :=
  let rel := audio_rel_files local files in
  let abs := audio_files (getcwd env w) local files in
  if m3u_skips rel abs then []
  else
    flat_map (fun ra => match m3u_index w (fst ra) (snd ra) with
                        | Ok index => [index]
                        | Raise _ => []
                        end)
             (combine rel abs).

(** The [track_list] after the walk, without its header. *)
Definition m3u_items (w : World) (pl_directory : string) : list string :=
  match fs_tree env pl_directory w with
  | None => []
  | Some t =>
      flat_map (fun v => m3u_dir_items w (fst (fst v)) (snd v))
               (os_walk pl_directory t)
  end.

Definition make_m3u (pl_directory : string) : M World unit :=
  if no_m3u_for_playlists self then ret tt
  else
    let rel_folder := PosixPath.basename (PosixPath.normpath pl_directory) in
    let pl_name := rel_folder +:+ ".m3u" in
    items <- ask (fun w => m3u_items w pl_directory) ;;
    let track_list := "#EXTM3U" :: items in
    if 1 <? length track_list then
      let path := PosixPath.join pl_directory pl_name in
      let content := Py.join (nl +:+ nl) track_list in
      emit (EvWrite path content) ;;
      call (write_text env path content)
    else ret tt.

(** *** [search_by_type] *)

(** [format_duration]: [time.gmtime] takes a number, and reads the clock
    when it is given [None].  The number is taken to be one the
    platform's [gmtime] accepts, as the durations of a catalog are. *)
Definition format_duration (w : World) (duration : value) : result string :=
  match duration with
  | VInt z => Ok (strftime_HMS z)
  | VBool b => Ok (strftime_HMS (if b then 1 else 0))
  | VNone => Ok (strftime_HMS (now env w))
  | _ => Raise TypeError
  end.

(** One turn of the loop over the hits. *)
Definition search_item (w : World) (md : mode_dict) (item_type : string)
    (lucky : bool) (i : value) : result search_entry :=
  do kwargs <- match i with
               | VDict d => Ok d
               | _ => Raise TypeError
               end;
  do text <- vformat (py_format env) PartialFormatter_default
               (md_format md) kwargs;
  do text <-
    (if md_requires_extra md then
       do d <- getitem i "duration";
       do dur <- format_duration w d;
       do hires <- getitem i "hires_streamable";
       Ok (text +:+ " - " +:+ dur +:+ " ["
           +:+ (if truthy hires then "HI-RES" else "LOSSLESS") +:+ "]")
     else Ok text);
  do id_text <- py_format env (default (VStr "") (kwargs !! "id")) "";
  let url := WEB_URL +:+ item_type +:+ "/" +:+ id_text in
  Ok (if lucky then Link url else Hit text url).

Definition search_by_type (query item_type : string) (limit : Z)
    (lucky : bool) : M World (option (list search_entry)) :=
  if String.length query <? 3 then
    log QueryTooShort ;; ret None
  else
    try_except
      (mode_dict <- lift (search_possibles item_type) ;;
       emit (EvSearch (md_func mode_dict) query limit) ;;
       results <- call (client_search env (md_func mode_dict) query limit) ;;
       iterable <- lift (do r <- getitem results (md_key mode_dict);
                         do items <- getitem r "items";
                         py_iter items) ;;
       w <- ask (fun w => w) ;;
       item_list <- lift (map_result (search_item w mode_dict item_type lucky)
                                     iterable) ;;
       ret (Some item_list))
      is_key_or_index_error
      (fun _ => log (InvalidType item_type) ;; ret None).

(** *** [handle_url] *)

(** [[item[iterable_key]["items"] for item in content][0]] *)
Definition container_items (iterable_key : string) (content : list value)
  : result value :=
  do all <- map_result (fun item => do x <- getitem item iterable_key;
                                    getitem x "items")
                       content;
  Py.index all 0.

(** Modelled from the spec: identifiers are strings (data model, §3); a
    number in the catalog's answer stands for its decimal text. *)
Definition id_of_value (v : value) : result string :=
  match v with
  | VStr s => Ok s
  | VInt z => Ok (Py.str_of_Z z)
  | _ => Raise TypeError
  end.

Definition handle_url (url : string) : M World unit :=
  match handle_url_try url with
  | Raise e =>
      if is_key_or_index_error e then log (InvalidUrl url) else raise e
  | Ok (url_type, type_dict, item_id) =>
      match td_func type_dict with
      | Some func =>
          emit (EvMeta func item_id) ;;
          content <- call (client_meta env func item_id) ;;
          content_name <- lift (do c <- Py.index content 0; getitem c "name") ;;
          log (DownloadingAll content_name url_type) ;;
          clean <- lift (sanitize_filename env content_name) ;;
          new_path <- create_dir (PosixPath.join (directory self) clean) ;;
          iterable_key <- lift (match td_iterable_key type_dict with
                                | Some k => Ok k
                                | None => Raise KeyError
                                end) ;;
          items <- lift (container_items iterable_key content) ;;
          n <- lift (py_len items) ;;
          log (DownloadsInQueue n) ;;
          members <- lift (py_iter items) ;;
          for_each members
            (fun item =>
               item_id <- lift (do v <- getitem item "id"; id_of_value v) ;;
               download_from_id item_id (String.eqb iterable_key "albums")
                                (Some new_path)) ;;
          if String.eqb url_type "playlist" then make_m3u new_path else ret tt
      | None =>
          album <- lift (match td_album type_dict with
                         | Some b => Ok b
                         | None => Raise KeyError
                         end) ;;
          download_from_id item_id album None
      end
  end.

(** *** [download_lastfm_pl] *)

Definition is_request_exception (e : exn) : bool :=
  match e with
  | RequestException => true
  | _ => false
  end.

Definition download_lastfm_pl (playlist_url : string) : M World unit :=
  r <- try_except
         (emit (EvHttpGet playlist_url) ;;
          soup <- call (requests_get env playlist_url) ;;
          ret (Some soup))
         is_request_exception
         (fun e => log (PlaylistDownloadFailed e) ;; ret None) ;;
  match r with
  | None => ret tt
  | Some soup =>
      let artists := page_artists soup in
      let titles := page_titles soup in
      let track_list := lastfm_track_list artists titles in
      if length track_list =? 0 then log NothingFound
      else
        pl_title <- lift (match page_h1 soup with
                          | Some text => sanitize_filename env (VStr text)
                          | None => Raise AttributeError
                          end) ;;
        let pl_directory := PosixPath.join (directory self) pl_title in
        log (DownloadingPlaylist pl_title (length track_list)) ;;
        for_each track_list
          (fun i =>
             found <- search_by_type i "track" 1 true ;;
             track_id <- lift (do first <- match found with
                                           | Some l => Py.index l 0
                                           | None => Raise TypeError
                                           end;
                               match first with
                               | Link url => get_id url
                               | Hit _ _ => Raise TypeError
                               end) ;;
             if negb (String.eqb track_id "")
             then download_from_id track_id false (Some pl_directory)
             else ret tt) ;;
        make_m3u pl_directory
  end.

(** *** [download_list_of_urls] and [download_from_txt_file]

    The two call each other; [depth] bounds how deeply listing files may
    name listing files, and running out of it is Python's
    [RecursionError].  A listing file stays open while its references are
    processed; the number of files a process may hold open is not part of
    the model. *)

Definition download_from_txt_file
    (download_list : option (list string) -> M World unit) (txt_file : string)
  : M World unit :=
  opened <- ask_result (open_lines env txt_file) ;;
  match opened with
  | Raise e => log (InvalidTextFile e)
  | Ok lines =>
      let urls := txt_urls lines in
      log (WillDownloadFromFile (length urls) txt_file) ;;
      download_list (Some urls)
  end.

Fixpoint download_list_of_urls (depth : nat) (urls : option (list string))
  : M World unit :=
  match urls with
  | None | Some [] => log NothingToDownload
  | Some l =>
      for_each l
        (fun url =>
           if Py.contains "last.fm" url then download_lastfm_pl url
           else
             file <- ask (isfile env url) ;;
             if (file : bool) then
               match depth with
               | O => raise RecursionError
               | S depth' =>
                   download_from_txt_file (download_list_of_urls depth') url
               end
             else handle_url url)
  end.

End QobuzDL.

(** [download_list_of_urls] runs this on each url of a non-empty list. *)
Definition download_url {World : Type} (env : collab World) (self : config)
    (depth : nat) (url : string) : M World unit :=
  if Py.contains "last.fm" url then download_lastfm_pl env self url
  else
    file <- ask (isfile env url) ;;
    if (file : bool) then
      match depth with
      | O => raise RecursionError
      | S depth' =>
          download_from_txt_file env
            (download_list_of_urls env self depth') url
      end
    else handle_url env self url.

(** The events a run from [st] to [st'] has added. *)
Definition new_events {World : Type} (st st' : state World) : list event :=
  drop (length (trace st)) (trace st').

(** [id in ledger], for a configured ledger. *)
Definition ledger_has {World : Type} (st : state World) (item_id : string)
  : Prop :=
  match downloads_db st with
  | Some ids => item_id ∈ ids
  | None => False
  end.

Definition is_download_of (item_id : string) (ev : event) : bool :=
  match ev with
  | EvDownload i _ _ => String.eqb i item_id
  | _ => false
  end.

Definition is_download (ev : event) : bool :=
  match ev with
  | EvDownload _ _ _ => true
  | _ => false
  end.

(** ** A scripted world, for running the methods on examples

    The answers of the collaborators are fixed by a script and do not
    change while the methods run. *)

Module Sim.

Record script : Type := {
  on_download : string -> result unit;
  on_meta : meta_func -> string -> result (list value);
  on_search : search_func -> string -> result value;
  on_get : string -> result page;
  text_files : list (string * list string);
  dirs : list (string * dirtree);
  on_audio : string -> result audio;
  cwd : string;
  clock : Z
}.

Fixpoint assoc {A} (k : string) (l : list (string * A)) : option A :=
  match l with
  | [] => None
  | (k', v) :: l' => if String.eqb k k' then Some v else assoc k l'
  end.

(** [str(v)] and [format(v, spec)] on the scalars the examples use. *)
Definition format_scalar (v : value) (spec : string) : result string :=
  if String.eqb spec "" then
    match v with
    | VNone => Ok "None"
    | VBool b => Ok (if b then "True" else "False")
    | VInt z => Ok (Py.str_of_Z z)
    | VStr s => Ok s
    | _ => Raise (OtherException "repr of a container")
    end
  else if String.eqb spec "d" then
    match v with
    | VInt z => Ok (Py.str_of_Z z)
    | VBool b => Ok (if b then "1" else "0")
    | VStr _ => Raise ValueError
    | _ => Raise TypeError
    end
  else Raise (OtherException "format specifier outside the examples").

Definition env : collab script := {|
  download_id_by_type := fun _ item_id _ _ w => (on_download w item_id, w);
  client_meta := fun f item_id w => (on_meta w f item_id, w);
  client_search := fun f query _ w => (on_search w f query, w);
  requests_get := fun url w => (on_get w url, w);
  isfile := fun path w => match assoc path (text_files w) with
                          | Some _ => true
                          | None => false
                          end;
  open_lines := fun path w => match assoc path (text_files w) with
                              | Some lines => Ok (Ok lines)
                              | None => Raise OSError
                              end;
  makedirs := fun _ w => (Ok tt, w);
  fs_tree := fun path w => assoc path (dirs w);
  getcwd := cwd;
  now := clock;
  open_audio := fun _ path w => on_audio w path;
  write_text := fun _ _ w => (Ok tt, w);
  sanitize_filename := fun v => match v with
                                | VStr s => Ok s
                                | _ => Raise TypeError
                                end;
  py_format := format_scalar
|}.

Definition self : config := {|
  directory := "/music";
  quality := 6;
  embed_art := false;
  lucky_limit := 1;
  lucky_type := "album";
  interactive_limit := 20;
  ignore_singles_eps := false;
  no_m3u_for_playlists := false;
  quality_fallback := true;
  cover_og_quality := false;
  no_cover := false
|}.

(** A world in which nothing exists and every transfer succeeds. *)
Definition quiet : script := {|
  on_download := fun _ => Ok tt;
  on_meta := fun _ _ => Raise RequestException;
  on_search := fun _ _ => Raise RequestException;
  on_get := fun _ => Raise RequestException;
  text_files := [];
  dirs := [];
  on_audio := fun _ => Raise OSError;
  cwd := "/home/user";
  clock := 0
|}.

Definition start (w : script) (ids : option (list string)) : state script :=
  {| world := w; downloads_db := option_map list_to_set ids; trace := [] |}.

(** A JSON object. *)
Definition dict (l : list (string * value)) : value := VDict (list_to_map l).

(** [w], with the catalog answering [content] for artist [item_id]. *)
Definition with_artist (item_id : string) (content : list value) (w : script)
  : script :=
  {| on_download := on_download w;
     on_meta := fun f i =>
       match f with
       | get_artist_meta =>
           if String.eqb i item_id then Ok content else on_meta w f i
       | _ => on_meta w f i
       end;
     on_search := on_search w;
     on_get := on_get w;
     text_files := text_files w;
     dirs := dirs w;
     on_audio := on_audio w;
     cwd := cwd w;
     clock := clock w |}.

(** [w], with the catalog answering [results] to every search. *)
Definition with_search (results : value) (w : script) : script :=
  {| on_download := on_download w;
     on_meta := on_meta w;
     on_search := fun _ _ => Ok results;
     on_get := on_get w;
     text_files := text_files w;
     dirs := dirs w;
     on_audio := on_audio w;
     cwd := cwd w;
     clock := clock w |}.

(** A track hit as the catalog sends it, and the same without "duration". *)
Definition track_hit : list (string * value) :=
  [("id", VInt 7); ("title", VStr "T");
   ("performer", dict [("name", VStr "P")]);
   ("hires_streamable", VBool true)].

Definition tracks_found (hit : list (string * value)) : script :=
  with_search (dict [("tracks", dict [("items", VList [dict hit])])]) quiet.

(** [w], with every page fetched being [soup]. *)
Definition with_page (soup : page) (w : script) : script :=
  {| on_download := on_download w;
     on_meta := on_meta w;
     on_search := on_search w;
     on_get := fun _ => Ok soup;
     text_files := text_files w;
     dirs := dirs w;
     on_audio := on_audio w;
     cwd := cwd w;
     clock := clock w |}.

(** A chart page with five artists and four titles. *)
Definition uneven_page : page :=
  {| page_artists := ["A1"; "A2"; "A3"; "A4"; "A5"];
     page_titles := ["T1"; "T2"; "T3"; "T4"];
     page_h1 := Some "Chart" |}.

(** [w], with the directory [path] holding [tree] and audio files
    answering [tags]. *)
Definition with_dir (path : string) (tree : dirtree)
    (tags : string -> result audio) (w : script) : script :=
  {| on_download := on_download w;
     on_meta := on_meta w;
     on_search := on_search w;
     on_get := on_get w;
     text_files := text_files w;
     dirs := (path, tree) :: dirs w;
     on_audio := tags;
     cwd := cwd w;
     clock := clock w |}.

(** A playlist directory with one album of three good files and one
    whose tags cannot be read, and one with a file at its top. *)
Definition album_tree : dirtree :=
  Dir [] [("Album", Dir ["a.flac"; "b.flac"; "c.mp3"; "bad.flac"] [])].

Definition flat_tree : dirtree := Dir ["a.flac"] [].

(** Tags of a file whose name does not contain "bad". *)
Definition tagged (path : string) : result audio :=
  if Py.contains "bad" path then Raise (OtherException "MutagenError")
  else Ok {| audio_tag := fun key =>
               if String.eqb key "TITLE" then Some ["Song"]
               else if String.eqb key "ARTIST" then Some ["Band"]
               else None;
             audio_length := 185 |}.

(** Artist 42 has a name and an empty list of albums. *)
Definition artist_without_albums : script :=
  with_artist "42"
    [dict [("name", VStr "X"); ("albums", dict [("items", VList [])])]]
    quiet.

(** Artist 42 has a name, and its "albums" object has no "items". *)
Definition artist_without_items : script :=
  with_artist "42" [dict [("name", VStr "X"); ("albums", dict [])]] quiet.

End Sim.

(** * Properties *)

(** ** Runs of [download_from_id] *)

Section Download_from_id.

Context {World : Type}.
Variable env : collab World.
Variable self : config.

(** The ledger after [insert(item_id)]. *)
Definition ledger_insert (item_id : string) (db : option (gset string))
  : option (gset string) :=
  match db with
  | Some ids => Some ({[item_id]} ∪ ids)
  | None => None
  end.

Definition ledger_insert_events (item_id : string) (db : option (gset string))
  : list event :=
  match db with
  | Some _ => [EvLedgerInsert item_id]
  | None => []
  end.

Lemma ledger_has_dec (st : state World) item_id :
  {ledger_has st item_id} + {~ ledger_has st item_id}.
Proof.
  unfold ledger_has. destruct (downloads_db st) as [ids|].
  - destruct (decide (item_id ∈ ids)); [left | right]; assumption.
  - right. intros [].
Qed.

(** The skip path. *)
Lemma download_from_id_known item_id album alt_path (st : state World) :
  ledger_has st item_id ->
  download_from_id env self item_id album alt_path st =
  (Ok tt, {| world := world st; downloads_db := downloads_db st;
             trace := trace st ++ [EvLog (AlreadyDownloaded item_id)] |}).
Proof.
  unfold ledger_has, download_from_id, bind, handle_download_id.
  destruct (downloads_db st) as [ids|] eqn:Hdb; [| intros []].
  intros Hin. rewrite bool_decide_eq_true_2 by assumption.
  unfold log, emit. simpl. rewrite Hdb. reflexivity.
Qed.

(** The attempt, by what the downloader does. *)
Lemma download_from_id_new item_id album alt_path (st : state World) :
  ~ ledger_has st item_id ->
  download_from_id env self item_id album alt_path st =
  let path := path_or_directory self alt_path in
  let attempt := trace st ++ [EvDownload item_id path album] in
  match download_id_by_type env self item_id path album (world st) with
  | (Ok _, w) =>
      (Ok tt, {| world := w;
                 downloads_db := ledger_insert item_id (downloads_db st);
                 trace := attempt
                          ++ ledger_insert_events item_id (downloads_db st) |})
  | (Raise e, w) =>
      if is_request_or_non_streamable e then
        (Ok tt, {| world := w; downloads_db := downloads_db st;
                   trace := attempt ++ [EvLog (ErrorGettingRelease e)] |})
      else
        (Raise e, {| world := w; downloads_db := downloads_db st;
                     trace := attempt |})
  end.
Proof.
  intros Hnew.
  assert (Hq : handle_download_id item_id false st = (Ok false, st)).
  { unfold handle_download_id, ledger_has in *.
    destruct (downloads_db st) as [ids|]; [| reflexivity].
    rewrite bool_decide_eq_false_2 by assumption. reflexivity. }
  unfold download_from_id, bind at 1. rewrite Hq.
  unfold try_except, bind, emit, call, log, ret, handle_download_id. simpl.
  destruct (download_id_by_type env self item_id
              (path_or_directory self alt_path) album (world st))
    as [[u | e] w]; simpl.
  - destruct (downloads_db st) as [ids|]; simpl.
    + reflexivity.
    + rewrite app_nil_r. reflexivity.
  - destruct (is_request_or_non_streamable e); reflexivity.
Qed.

End Download_from_id.

Section Download_from_id_claims.

Context {World : Type}.
Variable env : collab World.
Variable self : config.

Lemma new_events_app (st st' : state World) evs :
  trace st' = trace st ++ evs -> new_events st st' = evs.
Proof. intros H. unfold new_events. rewrite H. apply drop_app_length. Qed.

(** C1. [download_from_id] records an id in the ledger only after the
    downloader has been called and has returned: an insertion is of the
    id at hand, which was not yet in the ledger, and follows the call of
    the downloader in the trace; the ledger changes in no other way; on
    the skip path and when the transfer raises (whatever it raises) the
    ledger is what it was and nothing is inserted. *)
Theorem download_from_id_inserts_only_after_success
    item_id album alt_path (st : state World) :
  let path := path_or_directory self alt_path in
  let transfer := download_id_by_type env self item_id path album (world st) in
  let st' := snd (download_from_id env self item_id album alt_path st) in
  let evs := new_events st st' in
  trace st' = trace st ++ evs /\
  (forall i, In (EvLedgerInsert i) evs ->
     i = item_id /\ ~ ledger_has st item_id /\ fst transfer = Ok tt /\
     evs = [EvDownload item_id path album; EvLedgerInsert item_id] /\
     downloads_db st' = ledger_insert item_id (downloads_db st)) /\
  (downloads_db st' <> downloads_db st -> In (EvLedgerInsert item_id) evs) /\
  (ledger_has st item_id ->
     evs = [EvLog (AlreadyDownloaded item_id)] /\
     downloads_db st' = downloads_db st /\ world st' = world st) /\
  (forall e, fst transfer = Raise e ->
     ~ In (EvLedgerInsert item_id) evs /\ downloads_db st' = downloads_db st).
Proof.
  intros path transfer st' evs.
  destruct (ledger_has_dec st item_id) as [Hhas | Hnew].
  - (* skip *)
    assert (Hst : st' = {| world := world st; downloads_db := downloads_db st;
                           trace := trace st ++ [EvLog (AlreadyDownloaded item_id)] |}).
    { subst st'. rewrite download_from_id_known by assumption. reflexivity. }
    assert (Hevs : evs = [EvLog (AlreadyDownloaded item_id)]).
    { subst evs. apply new_events_app. rewrite Hst. reflexivity. }
    rewrite Hevs, Hst. simpl.
    split; [reflexivity |]. split; [| split; [| split]].
    + intros i [Hi | []]. discriminate Hi.
    + intros Hne. contradiction.
    + intros _. auto.
    + intros e _. split; [| reflexivity]. intros [Hi | []]. discriminate Hi.
  - (* attempt *)
    pose proof (download_from_id_new env self item_id album alt_path st Hnew)
      as Hrun.
    cbv zeta in Hrun. fold path in Hrun. fold transfer in Hrun.
    destruct transfer as [[[] | e] w] eqn:Ht; simpl fst.
    + (* the transfer returned *)
      assert (Hst : st' = {| world := w;
                 downloads_db := ledger_insert item_id (downloads_db st);
                 trace := (trace st ++ [EvDownload item_id path album])
                          ++ ledger_insert_events item_id (downloads_db st) |}).
      { subst st'. rewrite Hrun. reflexivity. }
      assert (Hevs : evs = EvDownload item_id path album
                           :: ledger_insert_events item_id (downloads_db st)).
      { subst evs. apply new_events_app. rewrite Hst. simpl.
        rewrite <- app_assoc. reflexivity. }
      rewrite Hevs, Hst. simpl.
      split; [rewrite <- app_assoc; reflexivity |].
      split; [| split; [| split]].
      * intros i [Hi | Hi]; [discriminate Hi |].
        destruct (downloads_db st) as [ids|]; simpl in *; [| destruct Hi].
        destruct Hi as [Hi | []]. injection Hi as <-. auto.
      * intros Hne. right.
        destruct (downloads_db st) as [ids|]; simpl in *;
          [left; reflexivity | contradiction].
      * intros Hhas. contradiction.
      * intros e He. discriminate He.
    + (* the transfer raised *)
      assert (Hst : downloads_db st' = downloads_db st /\
                    exists tail, (tail = [] \/ tail = [EvLog (ErrorGettingRelease e)])
                      /\ trace st' = trace st ++ EvDownload item_id path album :: tail).
      { subst st'. rewrite Hrun.
        destruct (is_request_or_non_streamable e); simpl; split; try reflexivity.
        - exists [EvLog (ErrorGettingRelease e)]. split; [right; reflexivity |].
          rewrite <- app_assoc. reflexivity.
        - exists []. split; [left; reflexivity | reflexivity]. }
      destruct Hst as [Hdb [tail [Htail Htr]]].
      assert (Hevs : evs = EvDownload item_id path album :: tail).
      { subst evs. apply new_events_app. assumption. }
      assert (Hno : forall i, ~ In (EvLedgerInsert i) evs).
      { intros i. rewrite Hevs. intros [Hi | Hi]; [discriminate Hi |].
        destruct Htail as [-> | ->]; [destruct Hi |].
        destruct Hi as [Hi | []]. discriminate Hi. }
      rewrite Hdb. split; [rewrite Hevs; assumption |].
      split; [| split; [| split]].
      * intros i Hi. exfalso. exact (Hno _ Hi).
      * intros Hne. contradiction.
      * intros Hhas. contradiction.
      * intros e' _. split; [apply Hno | reflexivity].
Qed.

End Download_from_id_claims.

(** ** An invariant of every method: ids in the ledger stay there and
    are not downloaded again *)

Section Keeps.

Context {World : Type}.
Variable item_id : string.

(** [m] keeps [item_id]: a run of [m] only adds events; if the id is in
    the ledger it remains there and the downloader is not called for it;
    and if the run records the id then the id is in the ledger after it. *)
Definition keeps {A} (m : M World A) : Prop :=
  forall st, exists evs,
    trace (snd (m st)) = trace st ++ evs /\
    (ledger_has st item_id ->
       ledger_has (snd (m st)) item_id /\
       forall p a, ~ In (EvDownload item_id p a) evs) /\
    (In (EvLedgerInsert item_id) evs -> ledger_has (snd (m st)) item_id).

Lemma keeps_same {A} (m : M World A) :
  (forall st, snd (m st) = st) -> keeps m.
Proof.
  intros H st. exists []. rewrite H, app_nil_r.
  split; [reflexivity |]. split; [| intros []].
  intros Hhas. split; [assumption | intros p a []].
Qed.

Lemma keeps_ret {A} (a : A) : keeps (ret a).
Proof. apply keeps_same. reflexivity. Qed.

Lemma keeps_raise {A} e : keeps (raise (A:=A) e).
Proof. apply keeps_same. reflexivity. Qed.

Lemma keeps_lift {A} (r : result A) : keeps (lift r).
Proof. apply keeps_same. reflexivity. Qed.

Lemma keeps_ask {A} (f : World -> A) : keeps (ask f).
Proof. apply keeps_same. reflexivity. Qed.

Lemma keeps_ask_result {A} (f : World -> result A) : keeps (ask_result f).
Proof. apply keeps_same. reflexivity. Qed.

Lemma keeps_call {A} (f : World -> result A * World) : keeps (call f).
Proof.
  intros st. exists []. unfold call. destruct (f (world st)) as [r w]. simpl.
  rewrite app_nil_r. split; [reflexivity |]. split; [| intros []].
  intros Hhas. split; [exact Hhas | intros p a []].
Qed.

Lemma keeps_emit ev :
  is_download ev = false -> (forall i, ev <> EvLedgerInsert i) ->
  keeps (emit ev).
Proof.
  intros Hd Hi st. exists [ev]. simpl. split; [reflexivity |]. split.
  - intros Hhas. split; [exact Hhas |].
    intros p a [He | []]. subst ev. discriminate Hd.
  - intros [He | []]. exfalso. exact (Hi _ He).
Qed.

Lemma keeps_log msg : keeps (log msg).
Proof. apply keeps_emit; [reflexivity | discriminate]. Qed.

Lemma keeps_bind {A B} (m : M World A) (f : A -> M World B) :
  keeps m -> (forall a, keeps (f a)) -> keeps (bind m f).
Proof.
  intros Hm Hf st. unfold bind.
  destruct (Hm st) as [evs1 [Ht1 [Hk1 Hi1]]].
  destruct (m st) as [[a | e] st1]; simpl in *.
  - destruct (Hf a st1) as [evs2 [Ht2 [Hk2 Hi2]]].
    exists (evs1 ++ evs2). rewrite Ht2, Ht1, app_assoc.
    split; [reflexivity |]. split.
    + intros Hhas. destruct (Hk1 Hhas) as [H1 Hn1].
      destruct (Hk2 H1) as [H2 Hn2]. split; [exact H2 |].
      intros p a' Hin. apply in_app_or in Hin as [Hin | Hin].
      * exact (Hn1 _ _ Hin).
      * exact (Hn2 _ _ Hin).
    + intros Hin. apply in_app_or in Hin as [Hin | Hin].
      * apply Hk2. exact (Hi1 Hin).
      * exact (Hi2 Hin).
  - exists evs1. auto.
Qed.

Lemma keeps_try_except {A} (body : M World A) caught handler :
  keeps body -> (forall e, keeps (handler e)) ->
  keeps (try_except body caught handler).
Proof.
  intros Hm Hf st. unfold try_except.
  destruct (Hm st) as [evs1 [Ht1 [Hk1 Hi1]]].
  destruct (body st) as [[a | e] st1]; simpl in *.
  - exists evs1. auto.
  - destruct (caught e); [| exists evs1; auto].
    destruct (Hf e st1) as [evs2 [Ht2 [Hk2 Hi2]]].
    exists (evs1 ++ evs2). rewrite Ht2, Ht1, app_assoc.
    split; [reflexivity |]. split.
    + intros Hhas. destruct (Hk1 Hhas) as [H1 Hn1].
      destruct (Hk2 H1) as [H2 Hn2]. split; [exact H2 |].
      intros p a' Hin. apply in_app_or in Hin as [Hin | Hin].
      * exact (Hn1 _ _ Hin).
      * exact (Hn2 _ _ Hin).
    + intros Hin. apply in_app_or in Hin as [Hin | Hin].
      * apply Hk2. exact (Hi1 Hin).
      * exact (Hi2 Hin).
Qed.

Lemma keeps_for_each {A} (l : list A) (body : A -> M World unit) :
  (forall x, keeps (body x)) -> keeps (for_each l body).
Proof.
  intros Hb. induction l as [| x l IH]; simpl.
  - apply keeps_ret.
  - apply keeps_bind; [apply Hb | intros _; exact IH].
Qed.

End Keeps.

Create HintDb keeps.
#[local] Hint Resolve keeps_ret keeps_raise keeps_lift keeps_ask
  keeps_ask_result keeps_call keeps_log : keeps.

(** One step of a proof that a method keeps an id: peel the outermost
    monadic operation, or split on what the code branches on. *)
Ltac keeps_step :=
  match goal with
  | |- keeps _ (bind _ _) => apply keeps_bind; [| intros ?]
  | |- keeps _ (try_except _ _ _) => apply keeps_try_except; [| intros ?]
  | |- keeps _ (for_each _ _) => apply keeps_for_each; intros ?
  | |- keeps _ (emit _) => apply keeps_emit; [reflexivity | discriminate]
  | |- keeps _ (if ?b then _ else _) => destruct b
  | |- keeps _ (match ?x with _ => _ end) => destruct x
  | |- keeps _ _ => solve [eauto with keeps]
  end.

Section Keeps_methods.

Context {World : Type}.
Variable env : collab World.
Variable self : config.
Variable item_id : string.

Lemma keeps_download_from_id i album alt_path :
  keeps item_id (download_from_id env self i album alt_path).
Proof.
  intros st. destruct (ledger_has_dec st i) as [Hi | Hi].
  - rewrite download_from_id_known by assumption. simpl.
    eexists. split; [reflexivity |]. split.
    + intros Hhas. split; [exact Hhas |].
      intros p a [He | []]. discriminate He.
    + intros [He | []]. discriminate He.
  - rewrite download_from_id_new by assumption. cbv zeta.
    assert (Hne : ledger_has st item_id -> i <> item_id).
    { intros Hhas ->. contradiction. }
    destruct (download_id_by_type env self i (path_or_directory self alt_path)
                album (world st)) as [[u | e] w].
    + simpl. eexists. split; [rewrite <- app_assoc; reflexivity |].
      unfold ledger_has in *. simpl.
      destruct (downloads_db st) as [ids|]; simpl; split.
      * intros Hhas. split; [apply elem_of_union; right; exact Hhas |].
        intros p a [He | [He | []]]; [| discriminate He].
        injection He as -> _ _. exact (Hne Hhas eq_refl).
      * intros [He | [He | []]]; [discriminate He |].
        injection He as ->. apply elem_of_union. left.
        apply elem_of_singleton. reflexivity.
      * intros [].
      * intros [He | []]. discriminate He.
    + destruct (is_request_or_non_streamable e); simpl.
      * eexists. split; [rewrite <- app_assoc; reflexivity |]. split.
        -- intros Hhas. split; [exact Hhas |].
           intros p a [He | [He | []]]; [| discriminate He].
           injection He as -> _ _. exact (Hne Hhas eq_refl).
        -- intros [He | [He | []]]; discriminate He.
      * eexists. split; [reflexivity |]. split.
        -- intros Hhas. split; [exact Hhas |].
           intros p a [He | []].
           injection He as -> _ _. exact (Hne Hhas eq_refl).
        -- intros [He | []]; discriminate He.
Qed.

Lemma keeps_create_dir d : keeps item_id (create_dir env d).
Proof. unfold create_dir. repeat keeps_step. Qed.

Lemma keeps_make_m3u d : keeps item_id (make_m3u env self d).
Proof. unfold make_m3u. repeat keeps_step. Qed.

Lemma keeps_search_by_type query item_type limit lucky :
  keeps item_id (search_by_type env query item_type limit lucky).
Proof. unfold search_by_type. repeat keeps_step. Qed.

Hint Resolve keeps_download_from_id keeps_create_dir keeps_make_m3u
  keeps_search_by_type : keeps.

Lemma keeps_handle_url url : keeps item_id (handle_url env self url).
Proof. unfold handle_url. repeat keeps_step. Qed.

Lemma keeps_download_lastfm_pl url :
  keeps item_id (download_lastfm_pl env self url).
Proof. unfold download_lastfm_pl. repeat keeps_step. Qed.

Lemma keeps_download_from_txt_file download_list txt_file :
  (forall urls, keeps item_id (download_list urls)) ->
  keeps item_id (download_from_txt_file env download_list txt_file).
Proof. intros H. unfold download_from_txt_file. repeat keeps_step. Qed.

Hint Resolve keeps_handle_url keeps_download_lastfm_pl
  keeps_download_from_txt_file : keeps.


End Keeps_methods.

Section Rerun.

Context {World : Type}.
Variable env : collab World.
Variable self : config.


End Rerun.

(** ** Containers *)

(** Unfold the monadic operations at the head of a run. *)
Ltac unfold_m :=
  repeat (progress (unfold bind, emit, call, lift, log, create_dir, ask,
                      ask_result, raise; simpl)).

Section Containers.

Context {World : Type}.
Variable env : collab World.
Variable self : config.

Lemma download_list_of_urls_cons depth url rest :
  download_list_of_urls env self depth (Some (url :: rest)) =
  for_each (url :: rest) (download_url env self depth).
Proof. destruct depth; reflexivity. Qed.

(** [make_m3u] adds at most the event of the write. *)
Lemma make_m3u_events d (st : state World) :
  exists evs, trace (snd (make_m3u env self d st)) = trace st ++ evs /\
              forall ev, In ev evs -> is_download ev = false.
Proof.
  unfold make_m3u. destruct (no_m3u_for_playlists self).
  - exists []. simpl. rewrite app_nil_r. split; [reflexivity | intros ev []].
  - unfold bind, ask. simpl.
    destruct (m3u_items env (world st) d) as [| i items]; simpl.
    + exists []. rewrite app_nil_r. split; [reflexivity | intros ev []].
    + unfold call. simpl.
      destruct (write_text env _ _ (world st)) as [r w]. simpl.
      eexists. split; [reflexivity |].
      intros ev [<- | []]. reflexivity.
Qed.

(** The state of [handle_url] on a container once the catalog has
    answered and the directory exists; [evs] is what was logged after. *)
Definition resolved (st : state World) (w : World) (func : meta_func)
    (item_id : string) (name : value) (url_type new_path : string)
    (evs : list event) : state World :=
  {| world := w; downloads_db := downloads_db st;
     trace := trace st
              ++ [EvMeta func item_id; EvLog (DownloadingAll name url_type);
                  EvMakedirs new_path] ++ evs |}.

Definition container_path (clean : string) : string :=
  PosixPath.normpath (PosixPath.join (directory self) clean).

(** What [handle_url] does once the member list turned out empty. *)
Definition after_empty (st : state World) (w : World) (func : meta_func)
    (item_id : string) (name : value) (url_type clean : string)
  : result unit * state World :=
  (if String.eqb url_type "playlist"
   then make_m3u env self (container_path clean)
   else ret tt)
    (resolved st w func item_id name url_type (container_path clean)
              [EvLog (DownloadsInQueue 0)]).

Section One_container.

Variables (url url_type item_id key : string) (td : type_dict)
  (func : meta_func) (content : list value) (name : value) (clean : string)
  (st : state World) (w1 w2 : World).

Hypothesis Hurl : handle_url_try url = Ok (url_type, td, item_id).
Hypothesis Hfunc : td_func td = Some func.
Hypothesis Hkey : td_iterable_key td = Some key.
Hypothesis Hmeta : client_meta env func item_id (world st) = (Ok content, w1).
Hypothesis Hname : (do c <- Py.index content 0; getitem c "name") = Ok name.
Hypothesis Hclean : sanitize_filename env name = Ok clean.
Hypothesis Hmk : makedirs env (container_path clean) w1 = (Ok tt, w2).

Lemma handle_url_items_raise e :
  container_items key content = Raise e ->
  handle_url env self url st =
  (Raise e, resolved st w2 func item_id name url_type (container_path clean) []).
Proof.
  intros Hitems. unfold handle_url. rewrite Hurl, Hfunc.
  unfold_m. rewrite Hmeta. simpl. rewrite Hname. simpl. rewrite Hclean.
  unfold_m. fold (container_path clean). rewrite Hmk. simpl.
  rewrite Hkey, Hitems. simpl.
  unfold resolved. rewrite <- !app_assoc. reflexivity.
Qed.

Lemma handle_url_items_empty :
  container_items key content = Ok (VList []) ->
  handle_url env self url st =
  after_empty st w2 func item_id name url_type clean.
Proof.
  intros Hitems. unfold handle_url. rewrite Hurl, Hfunc.
  unfold_m. rewrite Hmeta. simpl. rewrite Hname. simpl. rewrite Hclean.
  unfold_m. fold (container_path clean). rewrite Hmk. simpl.
  rewrite Hkey, Hitems. simpl.
  unfold after_empty, resolved. rewrite <- !app_assoc. simpl.
  destruct (String.eqb url_type "playlist"); reflexivity.
Qed.

Lemma after_empty_no_download ev :
  In ev (new_events st (snd (after_empty st w2 func item_id name url_type clean)))
  -> is_download ev = false.
Proof.
  unfold after_empty.
  set (st0 := resolved st w2 func item_id name url_type (container_path clean)
                [EvLog (DownloadsInQueue 0)]).
  assert (H0 : forall ev', In ev' (new_events st st0) -> is_download ev' = false).
  { unfold new_events, st0, resolved. simpl. rewrite drop_app_length.
    simpl. intros ev' [<- | [<- | [<- | [<- | []]]]]; reflexivity. }
  destruct (String.eqb url_type "playlist"); [| exact (H0 ev)].
  destruct (make_m3u_events (container_path clean) st0) as [evs [Ht Hev]].
  unfold new_events. rewrite Ht.
  unfold new_events in H0.
  assert (Hpre : trace st0 = trace st ++ drop (length (trace st)) (trace st0)).
  { unfold st0, resolved. simpl. rewrite drop_app_length. reflexivity. }
  rewrite Hpre, <- app_assoc, drop_app_length.
  intros Hin. apply in_app_or in Hin as [Hin | Hin]; [exact (H0 _ Hin) |].
  exact (Hev _ Hin).
Qed.

Hypothesis Hweb : Py.contains "last.fm" url = false.
Hypothesis Hfile : isfile env url (world st) = false.

Lemma download_list_of_urls_first depth rest :
  download_list_of_urls env self depth (Some (url :: rest)) st =
  match handle_url env self url st with
  | (Ok _, st') => for_each rest (download_url env self depth) st'
  | (Raise e, st') => (Raise e, st')
  end.
Proof.
  rewrite download_list_of_urls_cons. simpl. unfold bind at 1.
  unfold download_url at 1. rewrite Hweb. unfold bind at 1, ask at 1.
  simpl. rewrite Hfile. reflexivity.
Qed.

End One_container.

(** C3, as the code has it.  Take a container reference (artist, label
    or playlist) for which the catalog answers and the directory can be
    made.  If the member list is present and empty, [handle_url] queues no
    download: it logs "0 downloads in queue", calls the downloader for
    nothing and, for an artist or a label, returns; for a playlist it goes
    on to [make_m3u].  In a batch the references after it are then
    processed.  If the items field is missing, the [KeyError] leaves
    [handle_url] and [download_list_of_urls]: the references after it are
    not processed. *)
Theorem container_with_empty_or_missing_items
    (url url_type item_id key : string) (td : type_dict) (func : meta_func)
    (content : list value) (name : value) (clean : string)
    (st : state World) (w1 w2 : World) :
  handle_url_try url = Ok (url_type, td, item_id) ->
  td_func td = Some func ->
  td_iterable_key td = Some key ->
  client_meta env func item_id (world st) = (Ok content, w1) ->
  (do c <- Py.index content 0; getitem c "name") = Ok name ->
  sanitize_filename env name = Ok clean ->
  makedirs env (container_path clean) w1 = (Ok tt, w2) ->
  Py.contains "last.fm" url = false ->
  isfile env url (world st) = false ->
  (container_items key content = Ok (VList []) ->
   let after := after_empty st w2 func item_id name url_type clean in
   handle_url env self url st = after /\
   (forall ev, In ev (new_events st (snd after)) -> is_download ev = false) /\
   (url_type <> "playlist" ->
    after = (Ok tt, resolved st w2 func item_id name url_type
                      (container_path clean) [EvLog (DownloadsInQueue 0)])) /\
   (forall depth rest,
      download_list_of_urls env self depth (Some (url :: rest)) st =
      match after with
      | (Ok _, st') => for_each rest (download_url env self depth) st'
      | (Raise e, st') => (Raise e, st')
      end)) /\
  (container_items key content = Raise KeyError ->
   let failed := resolved st w2 func item_id name url_type
                   (container_path clean) [] in
   handle_url env self url st = (Raise KeyError, failed) /\
   (forall depth rest,
      download_list_of_urls env self depth (Some (url :: rest)) st =
      (Raise KeyError, failed))).
Proof.
  intros Hurl Hfunc Hkey Hmeta Hname Hclean Hmk Hweb Hfile. split.
  - intros Hitems after.
    assert (Hrun : handle_url env self url st = after).
    { eapply handle_url_items_empty; eassumption. }
    split; [exact Hrun |]. split; [| split].
    + intros ev. apply after_empty_no_download.
    + intros Hne. subst after. unfold after_empty.
      apply String.eqb_neq in Hne. rewrite Hne. reflexivity.
    + intros depth rest.
      rewrite download_list_of_urls_first by assumption.
      rewrite Hrun. reflexivity.
  - intros Hitems failed.
    assert (Hrun : handle_url env self url st = (Raise KeyError, failed)).
    { eapply handle_url_items_raise; eassumption. }
    split; [exact Hrun |].
    intros depth rest.
    rewrite download_list_of_urls_first by assumption.
    rewrite Hrun. reflexivity.
Qed.

End Containers.

(** C3, witness: artist 42 has no albums; the album after it in the batch
    is downloaded. *)
Lemma container_with_empty_or_missing_items_witness :
  let url := "https://play.qobuz.com/artist/42" in
  let st := Sim.start Sim.artist_without_albums (Some []) in
  handle_url Sim.env Sim.self url st =
  (Ok tt,
   {| world := Sim.artist_without_albums; downloads_db := Some ∅;
      trace := [EvMeta get_artist_meta "42";
                EvLog (DownloadingAll (VStr "X") "artist");
                EvMakedirs "/music/X"; EvLog (DownloadsInQueue 0)] |}) /\
  trace (snd (download_list_of_urls Sim.env Sim.self 1
                (Some [url; "https://play.qobuz.com/album/abc123"]) st)) =
  [EvMeta get_artist_meta "42"; EvLog (DownloadingAll (VStr "X") "artist");
   EvMakedirs "/music/X"; EvLog (DownloadsInQueue 0);
   EvDownload "abc123" "/music" true; EvLedgerInsert "abc123"].
Proof.
  intros url st.
  destruct (container_with_empty_or_missing_items Sim.env Sim.self
              url "artist" "42" "albums"
              {| td_album := None; td_func := Some get_artist_meta;
                 td_iterable_key := Some "albums" |}
              get_artist_meta
              [Sim.dict [("name", VStr "X");
                         ("albums", Sim.dict [("items", VList [])])]]
              (VStr "X") "X" st Sim.artist_without_albums
              Sim.artist_without_albums
              ltac:(vm_compute; reflexivity) eq_refl eq_refl
              ltac:(vm_compute; reflexivity) ltac:(vm_compute; reflexivity)
              eq_refl ltac:(vm_compute; reflexivity)
              ltac:(vm_compute; reflexivity) ltac:(vm_compute; reflexivity))
    as [Hempty _].
  destruct (Hempty ltac:(vm_compute; reflexivity)) as [Hrun [_ [_ Hbatch]]].
  split.
  - rewrite Hrun. vm_compute. reflexivity.
  - rewrite Hbatch. vm_compute. reflexivity.
Defined.

(** C3, counterexample: the "albums" object of artist 42 has no "items".
    [handle_url] raises [KeyError], so does the batch, and the album
    after it is never handed to the downloader, although alone it is. *)
Lemma container_without_items_aborts_batch :
  let url := "https://play.qobuz.com/artist/42" in
  let sibling := "https://play.qobuz.com/album/abc123" in
  let st := Sim.start Sim.artist_without_items (Some []) in
  fst (handle_url Sim.env Sim.self url st) = Raise KeyError /\
  download_list_of_urls Sim.env Sim.self 1 (Some [url; sibling]) st =
  (Raise KeyError,
   {| world := Sim.artist_without_items; downloads_db := Some ∅;
      trace := [EvMeta get_artist_meta "42";
                EvLog (DownloadingAll (VStr "X") "artist");
                EvMakedirs "/music/X"] |}) /\
  trace (snd (download_list_of_urls Sim.env Sim.self 1 (Some [sibling]) st)) =
  [EvDownload "abc123" "/music" true; EvLedgerInsert "abc123"].
Proof. vm_compute. repeat split. Qed.

(** ** Classification of references *)

Module Re_facts.
Import Re.

(** [sets n r]: every match of [r] goes through a group numbered [n]. *)
Fixpoint sets (n : nat) (r : regex) : bool :=
  match r with
  | RGrp m r' => (m =? n) || sets n r'
  | RCat r1 r2 => sets n r1 || sets n r2
  | RAlt r1 r2 => sets n r1 && sets n r2
  | _ => false
  end.

Definition is_set (n : nat) (cs : caps) : Prop :=
  exists t, group n cs = Some t.

(** A successful match ends in the continuation, with no group lost and
    the groups of [sets] set. *)
Lemma rx_reaches {R} (n : nat) (r : regex) :
  forall s cs (k : string -> caps -> option R) x,
    rx r s cs k = Some x ->
    exists s' cs', k s' cs' = Some x /\
                   (is_set n cs -> is_set n cs') /\
                   (sets n r = true -> is_set n cs').
Proof.
  induction r as [| c | p | r1 IH1 r2 IH2 | r1 IH1 r2 IH2 | lo hi r IH | m r IH];
    intros s cs k x H; simpl in H.
  - exists s, cs. simpl. intuition discriminate.
  - destruct s as [| a s]; [discriminate |].
    destruct (Ascii.eqb a c); [| discriminate].
    exists s, cs. simpl. intuition discriminate.
  - destruct s as [| a s]; [discriminate |].
    destruct (p a); [| discriminate].
    exists s, cs. simpl. intuition discriminate.
  - apply IH1 in H as [s1 [cs1 [H [Hkeep1 Hset1]]]].
    apply IH2 in H as [s2 [cs2 [H [Hkeep2 Hset2]]]].
    exists s2, cs2. split; [exact H |]. split; [auto |].
    simpl. intros Hs. apply orb_true_iff in Hs as [Hs | Hs]; auto.
  - destruct (rx r1 s cs k) as [y |] eqn:E.
    + injection H as ->. apply IH1 in E as [s1 [cs1 [H [Hkeep Hset]]]].
      exists s1, cs1. split; [exact H |]. split; [exact Hkeep |].
      simpl. intros Hs. apply andb_true_iff in Hs as [Hs _]. auto.
    + apply IH2 in H as [s2 [cs2 [H [Hkeep Hset]]]].
      exists s2, cs2. split; [exact H |]. split; [exact Hkeep |].
      simpl. intros Hs. apply andb_true_iff in Hs as [_ Hs]. auto.
  - revert H. generalize (String.length s) at 1. generalize 0 at 1.
    intros i fuel. revert i s cs.
    induction fuel as [| fuel IHf]; intros i s cs H.
    + destruct (lo <=? i); [| discriminate].
      exists s, cs. simpl. intuition discriminate.
    + assert (Hstop : (if lo <=? i then k s cs else None) = Some x ->
                      exists s' cs', k s' cs' = Some x /\
                        (is_set n cs -> is_set n cs') /\
                        (sets n (RRep lo hi r) = true -> is_set n cs')).
      { intros Hk. destruct (lo <=? i); [| discriminate].
        exists s, cs. simpl. intuition discriminate. }
      destruct (below i hi); [| exact (Hstop H)].
      match type of H with
      | match ?body with _ => _ end = _ => destruct body as [y |] eqn:E
      end; [| exact (Hstop H)].
      injection H as ->.
      apply IH in E as [s1 [cs1 [E [Hkeep1 _]]]].
      destruct (String.length s1 <? String.length s); [| discriminate].
      apply IHf in E as [s2 [cs2 [E [Hkeep2 _]]]].
      exists s2, cs2. split; [exact E |]. split; [auto |].
      simpl. discriminate.
  - apply IH in H as [s1 [cs1 [H [Hkeep Hset]]]].
    exists s1, ((m, consumed s s1) :: cs1). split; [exact H |].
    assert (Hcons : is_set n cs1 -> is_set n ((m, consumed s s1) :: cs1)).
    { intros [t Ht]. unfold is_set. simpl.
      destruct (m =? n); eauto. }
    split; [auto |].
    simpl. intros Hs. apply orb_true_iff in Hs as [Hs | Hs]; [| auto].
    unfold is_set. simpl. rewrite Hs. eauto.
Qed.

End Re_facts.

(** Group 1 of [id_pattern] is set by every match, so [get_id] answers
    the group or raises [AttributeError], nothing else. *)
Lemma id_pattern_sets_group url m :
  Re.re_match id_pattern url = Some m -> exists t, Re.group 1 m = Some t.
Proof.
  unfold Re.re_match. intros H.
  apply (Re_facts.rx_reaches 1) in H as [s' [cs' [H [_ Hset]]]].
  injection H as <-. apply Hset. reflexivity.
Qed.

Lemma get_id_cases url :
  (exists t, get_id url = Ok t) \/ get_id url = Raise AttributeError.
Proof.
  unfold get_id. destruct (Re.re_match id_pattern url) as [m |] eqn:E.
  - left. apply id_pattern_sets_group in E as [t Ht]. rewrite Ht. eauto.
  - right. reflexivity.
Qed.

(** C4, at an input the code mishandles.  The comment of [get_type] names
    urls without a base, such as "/us-en/album/{artist}/{id}": [get_type]
    answers "album" for them, but [id_pattern] begins with the scheme and
    cannot match, so [get_id] raises [AttributeError], which the
    [except (KeyError, IndexError)] of [handle_url] does not catch: the
    reference is not skipped with "Invalid url", the exception leaves
    [handle_url] and ends the batch.  The same happens for a url with a
    recognized type and a foreign host. *)
Theorem url_without_base_raises_attribute_error
    {World : Type} (env : collab World) (self : config) (st : state World)
    (depth : nat) (rest : list string) :
  let url := "/us-en/album/some-artist/abc123" in
  let foreign := "https://example.com/album/123" in
  get_type url = Ok "album" /\
  get_id url = Raise AttributeError /\
  handle_url_try url = Raise AttributeError /\
  handle_url_try foreign = Raise AttributeError /\
  is_key_or_index_error AttributeError = false /\
  handle_url env self url st = (Raise AttributeError, st) /\
  (isfile env url (world st) = false ->
   download_list_of_urls env self depth (Some (url :: rest)) st =
   (Raise AttributeError, st)).
Proof.
  intros url foreign.
  assert (Htry : handle_url_try url = Raise AttributeError)
    by (vm_compute; reflexivity).
  assert (Hrun : handle_url env self url st = (Raise AttributeError, st)).
  { unfold handle_url. rewrite Htry. reflexivity. }
  split; [vm_compute; reflexivity |].
  split; [vm_compute; reflexivity |].
  split; [exact Htry |].
  split; [vm_compute; reflexivity |].
  split; [reflexivity |].
  split; [exact Hrun |].
  intros Hfile. rewrite download_list_of_urls_cons. simpl.
  unfold bind at 1, download_url at 1.
  replace (Py.contains "last.fm" url) with false by (vm_compute; reflexivity).
  unfold bind at 1, ask at 1. simpl. rewrite Hfile, Hrun. reflexivity.
Qed.

(** ** Rendering of search hits *)

Section Rendering.

Variable py_format : value -> string -> result string.

Lemma format_field_falsy self v spec :
  truthy v = false -> format_field py_format self v spec = Ok (missing self).
Proof. intros H. unfold format_field. rewrite H. reflexivity. Qed.


Lemma base_get_field_absent f kwargs :
  kwargs !! f_first f = None -> base_get_field f kwargs = Raise KeyError.
Proof.
  intros H. unfold base_get_field. rewrite H. simpl.
  induction (f_items f) as [| k l IH]; simpl; [reflexivity | exact IH].
Qed.


(** C10. [PartialFormatter] renders the placeholder for every falsy
    value, not only for absent fields: [format_field] answers "n/a" for
    [None], [False], 0, the empty string, the empty list and the empty
    dict, whatever the specifier, and so does a template at a field that
    is present with such a value. *)
Theorem falsy_field_renders_placeholder (v : value) (spec : string) :
  truthy v = false ->
  (v = VNone \/ v = VBool false \/ v = VInt 0 \/ v = VStr "" \/ v = VList []
   \/ (exists d, v = VDict d /\ map_to_list d = [])) /\
  format_field py_format PartialFormatter_default v spec = Ok "n/a" /\
  (forall first t kwargs,
     kwargs !! first = Some v ->
     vformat py_format PartialFormatter_default
       (Fld {| f_first := first; f_items := []; f_spec := spec |} :: t) kwargs =
     do rest <- vformat py_format PartialFormatter_default t kwargs;
     Ok ("n/a" +:+ rest)).
Proof.
  intros Hv. split; [| split].
  - destruct v as [| b | z | s | l | d]; simpl in Hv.
    + auto.
    + subst b. auto.
    + apply negb_false_iff, Z.eqb_eq in Hv. subst z. auto.
    + apply negb_false_iff, String.eqb_eq in Hv. subst s. auto 6.
    + destruct l; [auto 6 | discriminate Hv].
    + do 5 right. exists d. split; [reflexivity |].
      destruct (map_to_list d); [reflexivity | discriminate Hv].
  - apply (format_field_falsy PartialFormatter_default). exact Hv.
  - intros first t kwargs Hk. simpl.
    unfold get_field, base_get_field. simpl. rewrite Hk. simpl.
    rewrite (format_field_falsy PartialFormatter_default) by exact Hv.
    reflexivity.
Qed.

End Rendering.

(** C10, witness: an artist hit with no releases. *)
Lemma falsy_field_renders_placeholder_witness :
  truthy (VInt 0) = false /\
  vformat Sim.format_scalar PartialFormatter_default
    [fld "name"; Lit " - ("; fld "albums_count"; Lit " releases)"]
    (list_to_map [("name", VStr "X"); ("albums_count", VInt 0)]) =
  Ok "X - (n/a releases)".
Proof.
  split; [reflexivity |].
  destruct (falsy_field_renders_placeholder Sim.format_scalar (VInt 0) ""
              eq_refl) as [_ [_ Hfield]].
  set (kw := list_to_map [("name", VStr "X"); ("albums_count", VInt 0)]
             : gmap string value).
  assert (Hcount : vformat Sim.format_scalar PartialFormatter_default
                     [fld "albums_count"; Lit " releases)"] kw
                   = Ok "n/a releases)").
  { unfold fld.
    rewrite (Hfield "albums_count" [Lit " releases)"] kw
               ltac:(vm_compute; reflexivity)).
    vm_compute. reflexivity. }
  change (vformat Sim.format_scalar PartialFormatter_default
            [fld "name"; Lit " - ("; fld "albums_count"; Lit " releases)"] kw)
    with (do obj <- get_field PartialFormatter_default
                      {| f_first := "name"; f_items := []; f_spec := "" |} kw;
          do txt <- format_field Sim.format_scalar PartialFormatter_default
                      obj "";
          do rest <- (do rest' <- vformat Sim.format_scalar
                                    PartialFormatter_default
                                    [fld "albums_count"; Lit " releases)"] kw;
                      Ok (" - (" +:+ rest'));
          Ok (txt +:+ rest)).
  rewrite Hcount. vm_compute. reflexivity.
Defined.

Section Search.

Context {World : Type}.
Variable env : collab World.




End Search.



(** ** Import of a foreign playlist *)

Section Lastfm.

Context {World : Type}.
Variable env : collab World.
Variable self : config.

Lemma lastfm_track_list_nil artists titles :
  length artists <> length titles \/ artists = [] \/ titles = [] ->
  lastfm_track_list artists titles = [].
Proof.
  intros H. unfold lastfm_track_list.
  destruct (length artists =? length titles) eqn:E; [| reflexivity].
  apply Nat.eqb_eq in E.
  destruct H as [H | [-> | ->]]; [contradiction | reflexivity |].
  simpl in E. rewrite E. reflexivity.
Qed.

Lemma lastfm_track_list_paired artists titles :
  length artists = length titles -> artists <> [] ->
  lastfm_track_list artists titles =
  map (fun at_ => fst at_ +:+ " " +:+ snd at_) (combine artists titles).
Proof.
  intros Hlen Hne. unfold lastfm_track_list.
  rewrite (proj2 (Nat.eqb_eq _ _) Hlen).
  destruct artists; [contradiction | reflexivity].
Qed.

Lemma combine_lookup {A B} (l : list A) (k : list B) i a b :
  l !! i = Some a -> k !! i = Some b -> combine l k !! i = Some (a, b).
Proof.
  revert k i. induction l as [| x l IH]; intros [| y k] [| i] Hl Hk;
    simpl in *; try discriminate.
  - congruence.
  - apply IH; assumption.
Qed.

(** The search an event records. *)
Definition searched (ev : event) : option (search_func * string * Z) :=
  match ev with
  | EvSearch f q l => Some (f, q, l)
  | _ => None
  end.

(** [download_lastfm_pl] runs this for each query of its track list. *)
Definition lastfm_track (pl_directory i : string) : M World unit :=
  found <- search_by_type env i "track" 1 true ;;
  track_id <- lift (do first <- match found with
                                | Some l => Py.index l 0
                                | None => Raise TypeError
                                end;
                    match first with
                    | Link url => get_id url
                    | Hit _ _ => Raise TypeError
                    end) ;;
  if negb (String.eqb track_id "")
  then download_from_id env self track_id false (Some pl_directory)
  else ret tt.

(** A search either asks the catalog once, for this query, or answers
    [None] without asking. *)
Lemma search_by_type_searches query item_type limit lucky (st : state World) :
  let r := search_by_type env query item_type limit lucky st in
  exists evs,
    trace (snd r) = trace st ++ evs /\
    ((exists md, search_possibles item_type = Ok md /\
                 omap searched evs = [(md_func md, query, limit)])
     \/ (omap searched evs = [] /\ fst r = Ok None)).
Proof.
  unfold search_by_type.
  destruct (String.length query <? 3).
  - exists [EvLog QueryTooShort]. split; [reflexivity |]. right.
    split; reflexivity.
  - unfold try_except. unfold bind at 1, lift at 1.
    destruct (search_possibles item_type) as [md | e] eqn:Emd.
    + unfold bind at 1, emit at 1. unfold bind at 1, call at 1. cbn [world].
      destruct (client_search env (md_func md) query limit (world st))
        as [[results | e] w1]; cbn [downloads_db trace].
      * unfold bind at 1, lift at 1.
        destruct (do r <- getitem results (md_key md);
                  do items <- getitem r "items"; py_iter items)
          as [iterable | e].
        -- unfold bind at 1, ask at 1. cbn [world].
           unfold bind at 1, lift at 1.
           destruct (map_result (search_item env w1 md item_type lucky)
                                iterable) as [item_list | e].
           ++ exists [EvSearch (md_func md) query limit].
              split; [reflexivity |]. left. exists md. split; reflexivity.
           ++ destruct (is_key_or_index_error e).
              ** exists [EvSearch (md_func md) query limit;
                         EvLog (InvalidType item_type)].
                 split; [simpl; rewrite <- app_assoc; reflexivity |].
                 left. exists md. split; reflexivity.
              ** exists [EvSearch (md_func md) query limit].
                 split; [reflexivity |]. left. exists md. split; reflexivity.
        -- destruct (is_key_or_index_error e).
           ++ exists [EvSearch (md_func md) query limit;
                      EvLog (InvalidType item_type)].
              split; [simpl; rewrite <- app_assoc; reflexivity |].
              left. exists md. split; reflexivity.
           ++ exists [EvSearch (md_func md) query limit].
              split; [reflexivity |]. left. exists md. split; reflexivity.
      * destruct (is_key_or_index_error e).
        -- exists [EvSearch (md_func md) query limit;
                   EvLog (InvalidType item_type)].
           split; [simpl; rewrite <- app_assoc; reflexivity |].
           left. exists md. split; reflexivity.
        -- exists [EvSearch (md_func md) query limit].
           split; [reflexivity |]. left. exists md. split; reflexivity.
    + assert (He : e = KeyError).
      { revert Emd. unfold search_possibles.
        repeat match goal with
               | |- context [String.eqb ?a ?b] => destruct (String.eqb a b)
               end; congruence. }
      subst e. cbn [is_key_or_index_error].
      exists [EvLog (InvalidType item_type)]. split; [reflexivity |].
      right. split; reflexivity.
Qed.

(** No method but [search_by_type] asks the catalog to search. *)
Lemma download_from_id_searches item_id album alt_path (st : state World) :
  exists evs,
    trace (snd (download_from_id env self item_id album alt_path st))
    = trace st ++ evs /\ omap searched evs = [].
Proof.
  destruct (ledger_has_dec st item_id) as [Hi | Hi].
  - rewrite download_from_id_known by assumption.
    eexists. split; reflexivity.
  - rewrite download_from_id_new by assumption. cbv zeta.
    destruct (download_id_by_type env self item_id
                (path_or_directory self alt_path) album (world st))
      as [[u | e] w]; cbn [snd trace].
    + unfold ledger_insert_events. destruct (downloads_db st);
        eexists; (split; [rewrite <- app_assoc; reflexivity | reflexivity]).
    + destruct (is_request_or_non_streamable e); cbn [snd trace];
        eexists; (split; [try rewrite <- app_assoc; reflexivity | reflexivity]).
Qed.

Lemma make_m3u_searches d (st : state World) :
  exists evs, trace (snd (make_m3u env self d st)) = trace st ++ evs /\
              omap searched evs = [].
Proof.
  unfold make_m3u. destruct (no_m3u_for_playlists self).
  - exists []. simpl. rewrite app_nil_r. split; reflexivity.
  - unfold bind, ask. simpl.
    destruct (m3u_items env (world st) d) as [| i items]; simpl.
    + exists []. rewrite app_nil_r. split; reflexivity.
    + unfold call. simpl.
      destruct (write_text env _ _ (world st)) as [r w]. simpl.
      eexists. split; reflexivity.
Qed.

(** One track: its query is searched once, among the tracks, for one
    hit; or nothing is searched and the import does not go on. *)
Lemma lastfm_track_searches pl_directory q (st : state World) res st' :
  lastfm_track pl_directory q st = (res, st') ->
  exists evs,
    trace st' = trace st ++ evs /\
    (omap searched evs = [(search_tracks, q, 1%Z)]
     \/ (omap searched evs = [] /\ res <> Ok tt)).
Proof.
  intros Hrun. unfold lastfm_track in Hrun. unfold bind at 1 in Hrun.
  destruct (search_by_type_searches q "track" 1 true st)
    as [evs1 [Ht1 Hs1]].
  destruct (search_by_type env q "track" 1 true st) as [[found | e] st1];
    cbn [fst snd] in Ht1, Hs1.
  - unfold bind at 1, lift at 1 in Hrun.
    destruct (do first <- match found with
                          | Some l => Py.index l 0
                          | None => Raise TypeError
                          end;
              match first with
              | Link url => get_id url
              | Hit _ _ => Raise TypeError
              end) as [track_id | e] eqn:Eid.
    + assert (Hsearched : omap searched evs1 = [(search_tracks, q, 1%Z)]).
      { destruct Hs1 as [[md [Hmd Hs1]] | [_ Hnone]].
        - vm_compute in Hmd. injection Hmd as <-. exact Hs1.
        - injection Hnone as ->. discriminate Eid. }
      destruct (negb (String.eqb track_id "")).
      * destruct (download_from_id_searches track_id false
                    (Some pl_directory) st1) as [evs2 [Ht2 Hs2]].
        rewrite Hrun in Ht2. cbn [snd] in Ht2.
        exists (evs1 ++ evs2). split.
        -- rewrite Ht2, Ht1, app_assoc. reflexivity.
        -- left. rewrite omap_app, Hs2, app_nil_r. exact Hsearched.
      * injection Hrun as <- <-.
        exists evs1. split; [exact Ht1 | left; exact Hsearched].
    + injection Hrun as <- <-. exists evs1. split; [exact Ht1 |].
      destruct Hs1 as [[md [Hmd Hs1]] | [Hs1 _]].
      * left. vm_compute in Hmd. injection Hmd as <-. exact Hs1.
      * right. split; [exact Hs1 | discriminate].
  - injection Hrun as <- <-. exists evs1. split; [exact Ht1 |].
    destruct Hs1 as [[md [Hmd Hs1]] | [Hs1 _]].
    + left. vm_compute in Hmd. injection Hmd as <-. exact Hs1.
    + right. split; [exact Hs1 | discriminate].
Qed.

(** The loop over the track list searches the queries in order, up to
    the first one that fails, and all of them when it ends normally. *)
Lemma lastfm_loop_searches pl_directory (qs : list string) :
  forall (st : state World) res st',
    for_each qs (lastfm_track pl_directory) st = (res, st') ->
    exists evs done,
      trace st' = trace st ++ evs /\
      omap searched evs = map (fun q => (search_tracks, q, 1%Z)) done /\
      done `prefix_of` qs /\
      (res = Ok tt -> done = qs).
Proof.
  induction qs as [| q qs IH]; intros st res st' Hrun.
  - injection Hrun as <- <-. exists [], []. rewrite app_nil_r.
    split; [reflexivity |]. split; [reflexivity |].
    split; [reflexivity | reflexivity].
  - cbn [for_each] in Hrun. unfold bind at 1 in Hrun.
    destruct (lastfm_track pl_directory q st) as [[[] | e] st1] eqn:E1;
      destruct (lastfm_track_searches _ _ _ _ _ E1) as [evs1 [Ht1 Hs1]].
    + destruct Hs1 as [Hs1 | [_ Hno]]; [| contradiction].
      destruct (IH _ _ _ Hrun) as [evs2 [done [Ht2 [Hs2 [Hpre Hall]]]]].
      exists (evs1 ++ evs2), (q :: done).
      split; [rewrite Ht2, Ht1, app_assoc; reflexivity |].
      split; [rewrite omap_app, Hs1, Hs2; reflexivity |].
      split; [apply prefix_cons; exact Hpre |].
      intros Hok. rewrite (Hall Hok). reflexivity.
    + injection Hrun as <- <-.
      destruct Hs1 as [Hs1 | [Hs1 _]].
      * exists evs1, [q]. split; [exact Ht1 |]. split; [exact Hs1 |].
        split; [apply prefix_cons, prefix_nil | discriminate].
      * exists evs1, []. split; [exact Ht1 |]. split; [exact Hs1 |].
        split; [apply prefix_nil | discriminate].
Qed.

(** C6. When the artists and the titles read from the page differ in
    number, or either list is empty, [download_lastfm_pl] logs "Nothing
    found" and returns: nothing is searched, nothing is handed to the
    downloader and no error is raised.  Otherwise the queries are the
    artists and titles paired by position, "<artist> <title>":
    [download_lastfm_pl] searches them among the tracks, one hit each, in
    that order and as far as it gets, and all of them when it returns
    normally. *)
Theorem lastfm_pairs_or_yields_nothing
    (playlist_url : string) (st : state World) (soup : page) (w : World) :
  requests_get env playlist_url (world st) = (Ok soup, w) ->
  let artists := page_artists soup in
  let titles := page_titles soup in
  let run := download_lastfm_pl env self playlist_url st in
  let queries :=
    map (fun at_ => fst at_ +:+ " " +:+ snd at_) (combine artists titles) in
  (length artists <> length titles \/ artists = [] \/ titles = [] ->
   lastfm_track_list artists titles = [] /\
   run =
   (Ok tt, {| world := w; downloads_db := downloads_db st;
              trace := trace st ++ [EvHttpGet playlist_url;
                                    EvLog NothingFound] |})) /\
  (length artists = length titles -> artists <> [] ->
   length queries = length artists /\
   (forall i artist title,
      artists !! i = Some artist -> titles !! i = Some title ->
      queries !! i = Some (artist +:+ " " +:+ title)) /\
   (exists done,
      omap searched (new_events st (snd run))
      = map (fun q => (search_tracks, q, 1%Z)) done
      /\ done `prefix_of` queries) /\
   (fst run = Ok tt ->
    omap searched (new_events st (snd run))
    = map (fun q => (search_tracks, q, 1%Z)) queries)).
Proof.
  intros Hget artists titles run queries. split.
  - intros H. pose proof (lastfm_track_list_nil artists titles H) as Hnil.
    split; [exact Hnil |]. subst run.
    unfold download_lastfm_pl, try_except. unfold_m. rewrite Hget. simpl.
    fold artists titles. rewrite Hnil. simpl.
    rewrite <- app_assoc. reflexivity.
  - intros Hlen Hne.
    pose proof (lastfm_track_list_paired artists titles Hlen Hne) as Hlist.
    fold queries in Hlist.
    assert (Hqs : length queries = length artists).
    { subst queries. rewrite length_map, length_combine. lia. }
    split; [exact Hqs |]. split.
    { intros i artist title Ha Ht. subst queries.
      rewrite list_lookup_fmap.
      rewrite (combine_lookup _ _ _ _ _ Ha Ht). reflexivity. }
    assert (Hfetch :
              try_except
                (emit (EvHttpGet playlist_url) ;;
                 soup <- call (requests_get env playlist_url) ;;
                 ret (Some soup))
                is_request_exception
                (fun e => log (PlaylistDownloadFailed e) ;; ret None) st
              = (Ok (Some soup),
                 {| world := w; downloads_db := downloads_db st;
                    trace := trace st ++ [EvHttpGet playlist_url] |})).
    { unfold try_except. unfold_m. rewrite Hget. reflexivity. }
    assert (Hrun :
              exists evs done,
                trace (snd run) = trace st ++ evs /\
                omap searched evs
                = map (fun q => (search_tracks, q, 1%Z)) done /\
                done `prefix_of` queries /\
                (fst run = Ok tt -> done = queries)).
    { subst run.
      destruct (download_lastfm_pl env self playlist_url st)
        as [res st'] eqn:Erun.
      cbn [fst snd]. unfold download_lastfm_pl in Erun.
      unfold bind at 1 in Erun. rewrite Hfetch in Erun.
      fold artists titles in Erun. rewrite Hlist in Erun.
      replace (length queries =? 0) with false in Erun
        by (symmetry; apply Nat.eqb_neq; rewrite Hqs;
            destruct artists; [contradiction | discriminate]).
      unfold bind at 1, lift at 1 in Erun.
      destruct (match page_h1 soup with
                | Some text => sanitize_filename env (VStr text)
                | None => Raise AttributeError
                end) as [pl_title | e].
      - unfold bind at 1, log at 1, emit at 1 in Erun.
        cbn [world downloads_db trace] in Erun.
        unfold bind at 1 in Erun.
        fold (lastfm_track (PosixPath.join (directory self) pl_title))
          in Erun.
        destruct (for_each queries
                    (lastfm_track (PosixPath.join (directory self) pl_title))
                    _) as [[[] | e] st2] eqn:Eloop;
          destruct (lastfm_loop_searches _ _ _ _ _ Eloop)
            as [evs2 [done [Ht2 [Hs2 [Hpre Hall]]]]];
          cbn [trace] in Ht2.
        + destruct (make_m3u_searches
                      (PosixPath.join (directory self) pl_title) st2)
            as [evs3 [Ht3 Hs3]].
          rewrite Erun in Ht3. cbn [snd] in Ht3.
          exists ([EvHttpGet playlist_url;
                   EvLog (DownloadingPlaylist pl_title (length queries))]
                  ++ evs2 ++ evs3), done.
          split.
          { rewrite Ht3, Ht2. rewrite <- !app_assoc. reflexivity. }
          split.
          { rewrite !omap_app, Hs2, Hs3, app_nil_r. reflexivity. }
          split; [exact Hpre |]. intros _. exact (Hall eq_refl).
        + injection Erun as <- <-.
          exists ([EvHttpGet playlist_url;
                   EvLog (DownloadingPlaylist pl_title (length queries))]
                  ++ evs2), done.
          split.
          { rewrite Ht2. rewrite <- !app_assoc. reflexivity. }
          split; [rewrite omap_app, Hs2; reflexivity |].
          split; [exact Hpre | discriminate].
      - injection Erun as <- <-.
        exists [EvHttpGet playlist_url], [].
        split; [reflexivity |]. split; [reflexivity |].
        split; [apply prefix_nil | discriminate]. }
    destruct Hrun as [evs [done [Ht [Hs [Hpre Hall]]]]].
    rewrite (new_events_app st (snd run) evs Ht). split.
    + exists done. split; [exact Hs | exact Hpre].
    + intros Hok. rewrite Hs, (Hall Hok). reflexivity.
Qed.

End Lastfm.

(** A chart page with two artists and two titles. *)
Definition paired_page : page :=
  {| page_artists := ["A1"; "A2"];
     page_titles := ["T1"; "T2"];
     page_h1 := Some "Chart" |}.

(** C6, witness: five artists and four titles give nothing; two artists
    and two titles, in a catalog that finds a track for every query, give
    the two searches "A1 T1" and "A2 T2". *)
Lemma lastfm_pairs_or_yields_nothing_witness :
  let url := "https://www.last.fm/user/u/playlists/1" in
  let st := Sim.start (Sim.with_page Sim.uneven_page Sim.quiet) (Some []) in
  let st2 :=
    Sim.start (Sim.with_page paired_page
                 (Sim.tracks_found (("duration", VInt 200) :: Sim.track_hit)))
              (Some []) in
  download_lastfm_pl Sim.env Sim.self url st =
  (Ok tt, {| world := world st; downloads_db := downloads_db st;
             trace := [EvHttpGet url; EvLog NothingFound] |})
  /\ omap searched
       (new_events st2 (snd (download_lastfm_pl Sim.env Sim.self url st2)))
     = [(search_tracks, "A1 T1", 1%Z); (search_tracks, "A2 T2", 1%Z)].
Proof.
  intros url st st2. split.
  - destruct (lastfm_pairs_or_yields_nothing Sim.env Sim.self url st
                Sim.uneven_page (world st) eq_refl) as [Hnothing _].
    destruct (Hnothing ltac:(left; vm_compute; lia)) as [_ Hrun].
    exact Hrun.
  - destruct (lastfm_pairs_or_yields_nothing Sim.env Sim.self url st2
                paired_page (world st2) eq_refl) as [_ Hpaired].
    destruct (Hpaired eq_refl ltac:(discriminate)) as [_ [_ [_ Hall]]].
    etransitivity; [apply Hall; vm_compute; reflexivity |].
    reflexivity.
Defined.

(** ** The playlist file *)

Lemma append_cons (x : ascii) (a b : string) :
  String x a +:+ b = String x (a +:+ b).
Proof. reflexivity. Qed.

Lemma append_assoc (a b c : string) : (a +:+ b) +:+ c = a +:+ (b +:+ c).
Proof.
  induction a as [| x a IH]; [reflexivity |].
  rewrite !append_cons. f_equal. exact IH.
Qed.

Lemma append_nil_r (a : string) : a +:+ "" = a.
Proof.
  induction a as [| x a IH]; [reflexivity |].
  rewrite append_cons. f_equal. exact IH.
Qed.

(** The tags [make_m3u] reads from the audio file at [path]: the first
    title, the first artist and the length in seconds; [None] when the
    file cannot be opened or a tag is missing or empty.  The reader is
    [EasyMP3] when ".mp3" occurs in the path and [FLAC] otherwise. *)
Definition read_tags {World : Type} (env : collab World) (w : World)
    (path : string) : option (string * string * Z) :=
  match open_audio env (if Py.contains ".mp3" path then EasyMP3 else FLAC)
                   path w with
  | Ok pl_item =>
      match audio_tag pl_item "TITLE", audio_tag pl_item "ARTIST" with
      | Some (title :: _), Some (artist :: _) =>
          Some (title, artist, audio_length pl_item)
      | _, _ => None
      end
  | Raise _ => None
  end.

(** A playlist entry: the #EXTINF line of the tags, and the path line. *)
Definition extinf (tags : string * string * Z) (path_line : string) : string :=
  "#EXTINF:" +:+ Py.str_of_Z (snd tags) +:+ ", " +:+ snd (fst tags) +:+ " - "
  +:+ fst (fst tags) +:+ nl +:+ path_line.

(** The entry of the file [file_] of the directory [local]: one for a
    file with an audio extension whose tags can be read, none otherwise. *)
Definition playlist_entry {World : Type} (env : collab World) (w : World)
    (local file_ : string) : option string :=
  if has_audio_extension file_ then
    option_map
      (fun tags =>
         extinf tags
           (PosixPath.join (PosixPath.basename (PosixPath.normpath local))
                           file_))
      (read_tags env w
         (PosixPath.abspath (getcwd env w) (PosixPath.join local file_)))
  else None.




Section M3u.

Context {World : Type}.
Variable env : collab World.
Variable self : config.

Lemma audio_lists_same_length cwd local files :
  length (audio_rel_files local files) = length (audio_files cwd local files).
Proof. unfold audio_rel_files, audio_files. rewrite !length_map. reflexivity. Qed.

Lemma filter_bool_cons {A} (p : A -> bool) (x : A) (l : list A) :
  filter p (x :: l) = if p x then x :: filter p l else filter p l.
Proof.
  rewrite filter_cons. destruct (p x) eqn:E.
  - rewrite decide_True by exact I. reflexivity.
  - rewrite decide_False by (intros []). reflexivity.
Qed.

Lemma filter_bool_nil {A} (p : A -> bool) (l : list A) :
  filter p l = [] <-> forall x, In x l -> p x = false.
Proof.
  induction l as [| x l IH].
  - split; [intros _ y [] | reflexivity].
  - rewrite filter_bool_cons. destruct (p x) eqn:E; split.
    + discriminate.
    + intros H. specialize (H x (or_introl eq_refl)). congruence.
    + intros H y [<- | Hy]; [exact E | apply IH; assumption].
    + intros H. apply IH. intros y Hy. apply H. right. exact Hy.
Qed.

Lemma m3u_skips_iff cwd local files :
  m3u_skips (audio_rel_files local files) (audio_files cwd local files) = true
  <-> forall file_, In file_ files -> has_audio_extension file_ = false.
Proof.
  unfold m3u_skips.
  rewrite (audio_lists_same_length cwd local files), Nat.eqb_refl, orb_false_r.
  rewrite Nat.eqb_eq. unfold audio_files.
  rewrite length_map, <- filter_bool_nil. split.
  - intros H. destruct (filter has_audio_extension files);
      [reflexivity | discriminate H].
  - intros ->. reflexivity.
Qed.

(** C9. The two lists [make_m3u] builds for a directory have the same
    length, so the second half of its guard never holds, and the
    directory is skipped exactly when none of its files has an audio
    extension. *)
Theorem m3u_guard_skips_only_directories_without_audio cwd local files :
  let rel := audio_rel_files local files in
  let abs := audio_files cwd local files in
  length rel = length abs /\
  negb (length abs =? length rel) = false /\
  (m3u_skips rel abs = true <->
   forall file_, In file_ files -> has_audio_extension file_ = false).
Proof.
  intros rel abs.
  assert (Hlen : length rel = length abs) by apply audio_lists_same_length.
  split; [exact Hlen |]. split.
  - rewrite Hlen, Nat.eqb_refl. reflexivity.
  - apply m3u_skips_iff.
Qed.

(** The [try] block of [make_m3u] on one file succeeds exactly when the
    tags can be read, and then gives the entry of these tags. *)
Lemma m3u_index_read_tags w rel abs :
  match m3u_index env w rel abs with
  | Ok index => [index]
  | Raise _ => []
  end
  = match read_tags env w abs with
    | Some tags => [extinf tags rel]
    | None => []
    end.
Proof.
  unfold m3u_index, read_tags.
  destruct (open_audio env _ abs w) as [pl_item |]; [| reflexivity].
  cbn [rbind].
  destruct (audio_tag pl_item "TITLE") as [[| title titles] |];
    try reflexivity.
  destruct (audio_tag pl_item "ARTIST") as [[| artist artists] |];
    reflexivity.
Qed.

(** The two comprehensions, the guard and the loop over their zip come
    to one pass over the files of the directory. *)
Lemma m3u_dir_items_entries w local files :
  m3u_dir_items env w local files = omap (playlist_entry env w local) files.
Proof.
  unfold m3u_dir_items.
  destruct (m3u_skips _ _) eqn:Hskip.
  - pose proof (proj1 (m3u_skips_iff _ _ _) Hskip) as Hnone. clear Hskip.
    induction files as [| f files IH]; [reflexivity |].
    cbn [omap list_omap]. unfold playlist_entry at 1.
    rewrite (Hnone f (or_introl eq_refl)).
    apply IH. intros g Hg. apply Hnone. right. exact Hg.
  - clear Hskip. unfold audio_rel_files, audio_files.
    induction files as [| f files IH]; [reflexivity |].
    rewrite !filter_bool_cons. cbn [omap list_omap].
    unfold playlist_entry at 1.
    destruct (has_audio_extension f); [| exact IH].
    cbn [map combine flat_map fst snd].
    rewrite m3u_index_read_tags, IH.
    destruct (read_tags env w _); reflexivity.
Qed.


Lemma in_omap {A B} (f : A -> option B) (l : list A) (y : B) :
  In y (omap f l) <-> exists x, In x l /\ f x = Some y.
Proof.
  rewrite <- list_elem_of_In, list_elem_of_omap.
  split; intros [x [Hx Hf]]; exists x; split; try exact Hf;
    apply list_elem_of_In; exact Hx.
Qed.

Lemma playlist_entry_some w local file_ item :
  playlist_entry env w local file_ = Some item <->
  has_audio_extension file_ = true /\
  exists tags,
    read_tags env w
      (PosixPath.abspath (getcwd env w) (PosixPath.join local file_))
    = Some tags /\
    item = extinf tags
             (PosixPath.join (PosixPath.basename (PosixPath.normpath local))
                             file_).
Proof.
  unfold playlist_entry. destruct (has_audio_extension file_); split.
  - destruct (read_tags env w _) as [tags |]; [| discriminate].
    intros [= <-]. split; [reflexivity |]. exists tags. split; reflexivity.
  - intros [_ [tags [-> ->]]]. reflexivity.
  - discriminate.
  - intros [H _]. discriminate H.
Qed.








End M3u.


(** ** Paths *)

(** A file or directory name: not empty, not "." or "..", no slash. *)
Definition simple_name (d : string) : Prop :=
  d <> "" /\ d <> "." /\ d <> ".." /\ PosixPath.rfind "/" d = None.

Module Path_facts.
Import PosixPath.

Lemma chars_app (a b : string) :
  list_ascii_of_string (a +:+ b)
  = list_ascii_of_string a ++ list_ascii_of_string b.
Proof.
  induction a as [| x a IH]; [reflexivity |].
  rewrite append_cons. simpl. f_equal. exact IH.
Qed.

Lemma rfind_none_cons c s :
  rfind "/" (String c s) = None -> c <> "/"%char /\ rfind "/" s = None.
Proof.
  simpl. destruct (rfind "/" s); [discriminate |].
  destruct (Ascii.eqb c "/") eqn:E; [discriminate |].
  intros _. split; [| reflexivity]. apply Ascii.eqb_neq. exact E.
Qed.

Lemma rfind_none_chars s :
  rfind "/" s = None -> forall c, In c (list_ascii_of_string s) -> c <> "/"%char.
Proof.
  induction s as [| x s IH]; intros H c Hc; [destruct Hc |].
  apply rfind_none_cons in H as [Hx Hs].
  destruct Hc as [<- | Hc]; [exact Hx | exact (IH Hs c Hc)].
Qed.

Lemma split_not_nil sep s : Py.split sep s <> [].
Proof.
  destruct s as [| c s]; simpl; [discriminate |].
  destruct (Ascii.eqb c sep); [discriminate |].
  destruct (Py.split sep s); discriminate.
Qed.

Lemma split_no_slash d : rfind "/" d = None -> Py.split "/" d = [d].
Proof.
  induction d as [| c d IH]; intros H; [reflexivity |].
  apply rfind_none_cons in H as [Hc Hd]. simpl.
  apply Ascii.eqb_neq in Hc. rewrite Hc, (IH Hd). reflexivity.
Qed.

Lemma split_snoc q d :
  rfind "/" d = None ->
  Py.split "/" (q +:+ "/" +:+ d) = Py.split "/" q ++ [d].
Proof.
  intros Hd. induction q as [| c q IH].
  - change ("" +:+ "/" +:+ d) with (String "/" d). simpl.
    rewrite (split_no_slash d Hd). reflexivity.
  - rewrite append_cons. simpl. rewrite IH.
    destruct (Ascii.eqb c "/"); [reflexivity |].
    pose proof (split_not_nil "/" q) as Hne.
    destruct (Py.split "/" q) as [| h t]; [contradiction | reflexivity].
Qed.

Lemma basename_snoc q d :
  rfind "/" d = None -> basename (q +:+ "/" +:+ d) = d.
Proof.
  intros Hd. unfold basename. rewrite (split_snoc q d Hd), last_snoc.
  reflexivity.
Qed.

Lemma basename_no_slash d : rfind "/" d = None -> basename d = d.
Proof. intros Hd. unfold basename. rewrite (split_no_slash d Hd). reflexivity. Qed.

Lemma startswith_cons a p b s :
  Py.startswith (String a p) (String b s) = Ascii.eqb a b && Py.startswith p s.
Proof. reflexivity. Qed.

Lemma startswith_slash_cons c s :
  c <> "/"%char -> Py.startswith "/" (String c s) = false.
Proof.
  intros Hc. rewrite startswith_cons, Ascii.eqb_sym.
  apply Ascii.eqb_neq in Hc. rewrite Hc. reflexivity.
Qed.

Lemma startswith_slash_false d :
  rfind "/" d = None -> Py.startswith "/" d = false.
Proof.
  destruct d as [| c d]; [reflexivity |]. intros H.
  apply rfind_none_cons in H as [Hc _]. apply startswith_slash_cons. exact Hc.
Qed.

Lemma last_slash a :
  last (list_ascii_of_string a) = Some "/"%char -> exists q, a = q +:+ "/".
Proof.
  induction a as [| c a IH]; [discriminate |].
  destruct a as [| c' a].
  - simpl. intros [= ->]. exists "". reflexivity.
  - intros H. change (last (list_ascii_of_string (String c' a)) = Some "/"%char)
      in H.
    destruct (IH H) as [q Hq]. exists (String c q).
    rewrite append_cons, <- Hq. reflexivity.
Qed.

(** Whether [join] puts a separator after its first argument. *)
Definition glued (a : string) : bool :=
  String.eqb a "" || Ascii.eqb (default "/"%char (last (list_ascii_of_string a))) "/".

Lemma glued_cases a :
  glued a = true -> a = "" \/ exists q, a = q +:+ "/".
Proof.
  unfold glued. intros H. apply orb_true_iff in H as [H | H].
  - left. apply String.eqb_eq. exact H.
  - destruct (last (list_ascii_of_string a)) as [c |] eqn:E.
    + right. apply last_slash. simpl in H. apply Ascii.eqb_eq in H.
      subst c. exact E.
    + left. destruct a; [reflexivity |].
      apply last_None in E. discriminate E.
Qed.

Lemma glued_name pre d :
  d <> "" -> rfind "/" d = None -> glued (pre +:+ d) = false.
Proof.
  intros Hne Hd. unfold glued. apply orb_false_iff. split.
  - apply String.eqb_neq. destruct pre; [exact Hne | discriminate].
  - rewrite chars_app.
    destruct (list_ascii_of_string d) as [| x l] eqn:E using rev_ind.
    + destruct d; [contradiction | discriminate E].
    + clear IHl. rewrite app_assoc, last_snoc. simpl.
      apply Ascii.eqb_neq. apply (rfind_none_chars d Hd).
      rewrite E. apply in_or_app. right. left. reflexivity.
Qed.

Lemma join_name a b :
  rfind "/" b = None ->
  join a b = if glued a then a +:+ b else a +:+ "/" +:+ b.
Proof.
  intros Hb. unfold join. rewrite (startswith_slash_false b Hb). reflexivity.
Qed.

(** [join] of a directory and a name ends in the name. *)
Lemma join_ends pl d :
  rfind "/" d = None ->
  join pl d = d \/ exists q, join pl d = q +:+ "/" +:+ d.
Proof.
  intros Hd. rewrite (join_name pl d Hd).
  destruct (glued pl) eqn:E.
  - apply glued_cases in E as [-> | [q ->]].
    + left. reflexivity.
    + right. exists q. rewrite append_assoc. reflexivity.
  - right. exists pl. reflexivity.
Qed.

Lemma join_assoc pl d f :
  d <> "" -> rfind "/" d = None -> rfind "/" f = None ->
  join pl (join d f) = join (join pl d) f.
Proof.
  intros Hne Hd Hf.
  assert (Hdf : join d f = d +:+ "/" +:+ f).
  { rewrite (join_name d f Hf).
    change d with ("" +:+ d) at 1. rewrite (glued_name "" d Hne Hd).
    reflexivity. }
  rewrite Hdf.
  assert (Hstart : Py.startswith "/" (d +:+ "/" +:+ f) = false).
  { destruct d as [| c d]; [contradiction |].
    apply rfind_none_cons in Hd as [Hc _]. rewrite append_cons.
    apply startswith_slash_cons. exact Hc. }
  unfold join at 1. rewrite Hstart. fold (glued pl).
  rewrite (join_name pl d Hd). destruct (glued pl).
  - rewrite (join_name _ f Hf), (glued_name pl d Hne Hd).
    rewrite append_assoc. reflexivity.
  - rewrite (join_name _ f Hf).
    replace (pl +:+ "/" +:+ d) with ((pl +:+ "/") +:+ d)
      by (rewrite append_assoc; reflexivity).
    rewrite (glued_name (pl +:+ "/") d Hne Hd).
    rewrite !append_assoc. reflexivity.
Qed.

Lemma pyjoin_snoc sep X d :
  X <> [] -> Py.join sep (X ++ [d]) = Py.join sep X +:+ sep +:+ d.
Proof.
  induction X as [| x X IH]; [contradiction |]. intros _.
  destruct X as [| y X].
  - reflexivity.
  - change (Py.join sep ((x :: y :: X) ++ [d]))
      with (x +:+ sep +:+ Py.join sep ((y :: X) ++ [d])).
    rewrite IH by discriminate.
    change (Py.join sep (x :: y :: X))
      with (x +:+ sep +:+ Py.join sep (y :: X)).
    rewrite !append_assoc. reflexivity.
Qed.

Lemma norm_step_name slashes new_comps d :
  d <> "" -> d <> "." -> d <> ".." ->
  norm_step slashes new_comps d = new_comps ++ [d].
Proof.
  intros H0 H1 H2. unfold norm_step.
  apply String.eqb_neq in H0, H1, H2. rewrite H0, H1, H2. reflexivity.
Qed.

Lemma slashes_cases x :
  String.concat "" (repeat "/" (initial_slashes x)) = ""
  \/ String.concat "" (repeat "/" (initial_slashes x)) = "/"
  \/ String.concat "" (repeat "/" (initial_slashes x)) = "//".
Proof.
  unfold initial_slashes. destruct (Py.startswith "/" x); [| auto].
  destruct (Py.startswith "//" x && negb (Py.startswith "///" x)); auto.
Qed.

(** [normpath] keeps a last component that is a name. *)
Lemma normpath_ends x pre d :
  simple_name d -> Py.split "/" x = pre ++ [d] ->
  normpath x = d \/ exists q, normpath x = q +:+ "/" +:+ d.
Proof.
  intros [H0 [H1 [H2 Hd]]] Hsplit. unfold normpath.
  assert (Hx : String.eqb x "" = false).
  { apply String.eqb_neq. intros ->. simpl in Hsplit.
    destruct pre as [| p pre]; simpl in Hsplit.
    - injection Hsplit as Hsplit. congruence.
    - injection Hsplit as _ Hsplit. destruct pre; discriminate Hsplit. }
  rewrite Hx, Hsplit, fold_left_app. simpl.
  rewrite (norm_step_name _ _ d H0 H1 H2).
  set (X := fold_left (norm_step (initial_slashes x)) pre []).
  assert (Hends : forall s, s = d \/ (exists q, s = q +:+ "/" +:+ d) ->
                  (if String.eqb s "" then "." else s) = s).
  { intros s Hs.
    replace (String.eqb s "") with false; [reflexivity |].
    symmetry. apply String.eqb_neq.
    destruct Hs as [-> | [q ->]]; [exact H0 |].
    destruct q; discriminate. }
  assert (Hjoin : Py.join "/" (X ++ [d]) = d
                  \/ exists q, Py.join "/" (X ++ [d]) = q +:+ "/" +:+ d).
  { destruct X as [| x0 X0] eqn:E.
    - left. reflexivity.
    - right. rewrite pyjoin_snoc by discriminate. eauto. }
  assert (Hall : String.concat "" (repeat "/" (initial_slashes x))
                   +:+ Py.join "/" (X ++ [d]) = d
                 \/ exists q, String.concat "" (repeat "/" (initial_slashes x))
                                +:+ Py.join "/" (X ++ [d]) = q +:+ "/" +:+ d).
  { destruct (slashes_cases x) as [-> | [-> | ->]].
    - exact Hjoin.
    - right. destruct Hjoin as [-> | [q ->]].
      + exists "". reflexivity.
      + exists ("/" +:+ q). rewrite append_assoc. reflexivity.
    - right. destruct Hjoin as [-> | [q ->]].
      + exists "/". reflexivity.
      + exists ("//" +:+ q). rewrite append_assoc. reflexivity. }
  rewrite (Hends _ Hall). exact Hall.
Qed.

(** The name under which [make_m3u] lists the files of the directory
    [d] of [pl] is [d]. *)
Lemma basename_normpath_join pl d :
  simple_name d -> basename (normpath (join pl d)) = d.
Proof.
  intros Hs. pose proof Hs as [_ [_ [_ Hd]]].
  assert (Hsplit : exists pre, Py.split "/" (join pl d) = pre ++ [d]).
  { destruct (join_ends pl d Hd) as [-> | [q ->]].
    - exists []. apply split_no_slash. exact Hd.
    - exists (Py.split "/" q). apply split_snoc. exact Hd. }
  destruct Hsplit as [pre Hsplit].
  destruct (normpath_ends _ pre d Hs Hsplit) as [-> | [q ->]].
  - apply basename_no_slash. exact Hd.
  - apply basename_snoc. exact Hd.
Qed.

End Path_facts.

(** *** The directories the walk visits *)

Lemma insert_by_name_in {A} (x y : string * A) (l : list (string * A)) :
  In y (insert_by_name x l) <-> y = x \/ In y l.
Proof.
  induction l as [| z l IH]; simpl.
  - split; [intros [<- | []]; auto | intros [-> | []]; auto].
  - destruct (String.leb (fst x) (fst z)); simpl.
    + split; [intros [<- | H]; auto | intros [-> | H]; auto].
    + rewrite IH. split.
      * intros [<- | [-> | H]]; auto.
      * intros [-> | [<- | H]]; auto.
Qed.

Lemma sort_by_name_in {A} (y : string * A) (l : list (string * A)) :
  In y (sort_by_name l) <-> In y l.
Proof.
  induction l as [| x l IH]; [reflexivity |].
  unfold sort_by_name. cbn [fold_right]. fold (sort_by_name l).
  rewrite insert_by_name_in, IH. simpl. split; intros [H | H]; auto.
Qed.

(** What the walk of a directory consists of: the directory itself, and
    the walks of its sub-directories under their joined paths. *)
Lemma in_os_walk top files subdirs (v : string * list string * list string) :
  In v (os_walk top (Dir files subdirs)) <->
  (fst (fst v) = top /\ snd v = files /\
   hd_error (os_walk top (Dir files subdirs)) = Some v)
  \/ exists d sub, In (d, sub) subdirs
                   /\ In v (os_walk (PosixPath.join top d) sub).
Proof.
  cbn [os_walk]. cbn [In hd_error]. split.
  - intros [<- | H].
    + left. split; [reflexivity |]. split; reflexivity.
    + right. apply in_concat in H as [vs [Hvs Hv]].
      apply in_map_iff in Hvs as [[d vs'] [<- Hd]].
      apply (proj1 (sort_by_name_in _ _)) in Hd.
      apply in_map_iff in Hd as [[d' sub] [[= <- <-] Hd]].
      exists d', sub. split; [exact Hd | exact Hv].
  - intros [[_ [_ [= <-]]] | [d [sub [Hd Hv]]]].
    + left. reflexivity.
    + right. apply in_concat.
      exists (os_walk (PosixPath.join top d) sub). split; [| exact Hv].
      apply in_map_iff.
      exists (d, os_walk (PosixPath.join top d) sub). split; [reflexivity |].
      apply (proj2 (sort_by_name_in _ _)). apply in_map_iff.
      exists (d, sub). split; [reflexivity | exact Hd].
Qed.

Lemma omap_ext_in {A B} (f g : A -> option B) (l : list A) :
  (forall x, In x l -> f x = g x) -> omap f l = omap g l.
Proof.
  induction l as [| x l IH]; intros H; [reflexivity |].
  cbn [omap list_omap]. rewrite (H x (or_introl eq_refl)).
  rewrite IH by (intros y Hy; apply H; right; exact Hy). reflexivity.
Qed.

Section M3u_paths.

Context {World : Type}.
Variable env : collab World.

(** C8, as the code has it.  Every item of the playlist belongs to a file
    of a directory the walk visits: its #EXTINF line carries the tags of
    that file, and its path line is the name of the directory that holds
    the file, joined with the file name.  For the files of a directory
    [d] directly under the playlist directory this is the file's path
    relative to the playlist directory: the items of [d], which are in
    the playlist, pair the tags read from the file at
    [pl_directory/d/file_] with the path line [d/file_], file by file in
    the order of the listing.  (For a file at the top of the playlist
    directory or deeper than one level the path line is not relative to
    the playlist directory.) *)
Theorem m3u_path_line_relative_one_level_down
    (pl_directory d : string) (w : World) (files dfiles : list string)
    (subdirs dsubs : list (string * dirtree)) :
  fs_tree env pl_directory w = Some (Dir files subdirs) ->
  In (d, Dir dfiles dsubs) subdirs ->
  simple_name d ->
  (forall file_, In file_ dfiles -> PosixPath.rfind "/" file_ = None) ->
  let cwd := getcwd env w in
  (forall item,
     In item (m3u_items env w pl_directory) <->
     exists local dirs lfiles file_ tags,
       In (local, dirs, lfiles) (os_walk pl_directory (Dir files subdirs)) /\
       In file_ lfiles /\ has_audio_extension file_ = true /\
       read_tags env w (PosixPath.abspath cwd (PosixPath.join local file_))
       = Some tags /\
       item = extinf tags
                (PosixPath.join (PosixPath.basename (PosixPath.normpath local))
                                file_)) /\
  m3u_dir_items env w (PosixPath.join pl_directory d) dfiles
  = omap (fun file_ =>
            if has_audio_extension file_ then
              option_map
                (fun tags => extinf tags (PosixPath.join d file_))
                (read_tags env w
                   (PosixPath.abspath cwd
                      (PosixPath.join pl_directory (PosixPath.join d file_))))
            else None)
         dfiles /\
  (forall item,
     In item (m3u_dir_items env w (PosixPath.join pl_directory d) dfiles) ->
     In item (m3u_items env w pl_directory)) /\
  (forall file_,
     In file_ dfiles ->
     PosixPath.join pl_directory (PosixPath.join d file_)
     = PosixPath.join (PosixPath.join pl_directory d) file_).
Proof.
  intros Htree Hd Hname Hfiles cwd.
  assert (Hitems :
            forall item,
              In item (m3u_items env w pl_directory) <->
              exists v, In v (os_walk pl_directory (Dir files subdirs))
                        /\ In item (m3u_dir_items env w (fst (fst v)) (snd v))).
  { intros item. unfold m3u_items. rewrite Htree. apply in_flat_map. }
  split; [| split; [| split]].
  - intros item. rewrite Hitems. split.
    + intros [[[local dirs] lfiles] [Hv Hin]]. cbn [fst snd] in Hin.
      rewrite m3u_dir_items_entries in Hin.
      apply in_omap in Hin as [file_ [Hfile Hentry]].
      apply playlist_entry_some in Hentry as [Haudio [tags [Htags ->]]].
      exists local, dirs, lfiles, file_, tags. auto.
    + intros [local [dirs [lfiles [file_ [tags [Hv [Hfile [Haudio [Htags ->]]]]]]]]].
      exists (local, dirs, lfiles). split; [exact Hv |]. cbn [fst snd].
      rewrite m3u_dir_items_entries. apply in_omap.
      exists file_. split; [exact Hfile |].
      apply playlist_entry_some. split; [exact Haudio |].
      exists tags. split; [exact Htags | reflexivity].
  - rewrite m3u_dir_items_entries. apply omap_ext_in.
    intros file_ Hin. unfold playlist_entry.
    rewrite (Path_facts.basename_normpath_join pl_directory d Hname).
    destruct Hname as [Hne [_ [_ Hslash]]].
    rewrite (Path_facts.join_assoc pl_directory d file_ Hne Hslash
               (Hfiles file_ Hin)).
    reflexivity.
  - intros item Hin. apply Hitems.
    destruct (in_os_walk (PosixPath.join pl_directory d) dfiles dsubs
                (hd (pl_directory, [], [])
                    (os_walk (PosixPath.join pl_directory d)
                             (Dir dfiles dsubs)))) as [_ Hhead].
    eexists. split.
    + apply in_os_walk. right. exists d, (Dir dfiles dsubs).
      split; [exact Hd |]. apply Hhead. left.
      split; [reflexivity |]. split; reflexivity.
    + exact Hin.
  - intros file_ Hin. destruct Hname as [Hne [_ [_ Hslash]]].
    apply Path_facts.join_assoc; auto.
Qed.

End M3u_paths.

(** C8, witness: the album of the playlist /music/pl. *)
Lemma m3u_path_line_relative_one_level_down_witness :
  let w := Sim.with_dir "/music/pl" Sim.album_tree Sim.tagged Sim.quiet in
  In ("#EXTINF:185, Band - Song" +:+ nl +:+ "Album/a.flac")
     (m3u_items Sim.env w "/music/pl") /\
  read_tags Sim.env w
    (PosixPath.abspath "/home/user"
       (PosixPath.join "/music/pl" "Album/a.flac"))
  = Some ("Song", "Band", 185%Z).
Proof.
  intros w.
  assert (Hd : simple_name "Album").
  { repeat split; try discriminate. }
  assert (Hfiles : forall file_,
             In file_ ["a.flac"; "b.flac"; "c.mp3"; "bad.flac"] ->
             PosixPath.rfind "/" file_ = None).
  { intros f [<- | [<- | [<- | [<- | []]]]]; reflexivity. }
  destruct (m3u_path_line_relative_one_level_down Sim.env "/music/pl" "Album"
              w [] ["a.flac"; "b.flac"; "c.mp3"; "bad.flac"]
              [("Album", Dir ["a.flac"; "b.flac"; "c.mp3"; "bad.flac"] [])] []
              eq_refl (or_introl eq_refl) Hd Hfiles)
    as [_ [Hdir [Hin _]]].
  split.
  - apply Hin. rewrite Hdir. vm_compute. left. reflexivity.
  - vm_compute. reflexivity.
Defined.

(** C8, counterexample: a file at the top of the playlist directory
    /music/pl is listed as "pl/a.flac"; resolved against the playlist
    directory this is /music/pl/pl/a.flac, not the file /music/pl/a.flac. *)
Lemma m3u_path_line_of_top_level_file :
  let w := Sim.with_dir "/music/pl" Sim.flat_tree Sim.tagged Sim.quiet in
  let st := Sim.start w None in
  new_events st (snd (make_m3u Sim.env Sim.self "/music/pl" st))
  = [EvWrite "/music/pl/pl.m3u"
       ("#EXTM3U" +:+ nl +:+ nl +:+ "#EXTINF:185, Band - Song" +:+ nl
        +:+ "pl/a.flac")] /\
  audio_files "/home/user" "/music/pl" ["a.flac"] = ["/music/pl/a.flac"] /\
  PosixPath.normpath (PosixPath.join "/music/pl" "pl/a.flac")
  = "/music/pl/pl/a.flac" /\
  PosixPath.normpath (PosixPath.join "/music/pl" "pl/a.flac")
  <> "/music/pl/a.flac".
Proof. vm_compute. repeat split. discriminate. Qed.

(** * Further properties of the code *)

(** ** Classification of catalog urls ([get_type], [get_id]) *)

(** The loop of a repetition, as [rx] runs it. *)
Section Rep_loop.

Context {R : Type}.
Variables (lo : nat) (hi : option nat) (r : Re.regex)
  (k : string -> Re.caps -> option R).

Fixpoint rep_loop (fuel i : nat) (s : string) (cs : Re.caps)
    {struct fuel} : option R :=
  let stop := if lo <=? i then k s cs else None in
  match fuel with
  | O => stop
  | S fuel' =>
      if Re.below i hi then
        match Re.rx r s cs
                (fun s' cs' =>
                   if String.length s' <? String.length s
                   then rep_loop fuel' (S i) s' cs'
                   else None) with
        | Some x => Some x
        | None => stop
        end
      else stop
  end.

End Rep_loop.

(** [s] consists of word characters. *)
Definition all_word (s : string) : bool :=
  forallb Re.is_word (list_ascii_of_string s).

(** The text after an id: nothing, or something that does not start with
    a word character. *)
Definition ends_word (rest : string) : Prop :=
  match rest with
  | EmptyString => True
  | String c _ => Re.is_word c = false
  end.

Module Url_facts.
Import Re.

Lemma rx_rep {R} lo hi r s cs (k : string -> caps -> option R) :
  rx (RRep lo hi r) s cs k = rep_loop lo hi r k (String.length s) 0 s cs.
Proof. reflexivity. Qed.

Lemma append_nil_l (s : string) : "" +:+ s = s.
Proof. reflexivity. Qed.

Lemma length_append (a b : string) :
  String.length (a +:+ b) = String.length a + String.length b.
Proof.
  induction a as [| c a IH]; [reflexivity |].
  rewrite append_cons. simpl. rewrite IH. reflexivity.
Qed.

Lemma substring_prefix (w rest : string) :
  substring 0 (String.length w) (w +:+ rest) = w.
Proof.
  induction w as [| c w IH].
  - destruct rest; reflexivity.
  - rewrite append_cons. simpl. rewrite IH. reflexivity.
Qed.

Lemma consumed_prefix (w rest : string) : consumed (w +:+ rest) rest = w.
Proof.
  unfold consumed. rewrite length_append.
  replace (String.length w + String.length rest - String.length rest)
    with (String.length w) by lia.
  apply substring_prefix.
Qed.

(** A greedy repetition of [\w] takes all the word characters. *)
Lemma rep_word_greedy {R} lo (k : string -> caps -> option R) x cs rest :
  k rest cs = Some x -> ends_word rest ->
  forall w fuel i,
    all_word w = true -> String.length (w +:+ rest) <= fuel -> lo <= S i ->
    (w = "" -> lo <= i) ->
    rep_loop lo None word k fuel i (w +:+ rest) cs = Some x.
Proof.
  intros Hk Hrest. induction w as [| c w IH]; intros fuel i Hw Hfuel Hlo Hnil.
  - rewrite append_nil_l.
    assert (Hstop : (if lo <=? i then k rest cs else None) = Some x).
    { rewrite (proj2 (Nat.leb_le _ _) (Hnil eq_refl)). exact Hk. }
    destruct fuel; simpl; [exact Hstop |].
    destruct rest as [| c rest]; simpl; [exact Hstop |].
    simpl in Hrest. rewrite Hrest. exact Hstop.
  - rewrite append_cons in *.
    destruct fuel as [| fuel]; [simpl in Hfuel; lia |].
    unfold all_word in Hw. simpl in Hw. apply andb_true_iff in Hw as [Hc Hw].
    simpl. rewrite Hc.
    replace (String.length (w +:+ rest) <? S (String.length (w +:+ rest)))
      with true by (symmetry; apply Nat.ltb_lt; lia).
    rewrite IH; [reflexivity | exact Hw | simpl in Hfuel; lia | lia | lia].
Qed.

(** The group [(\w+)] at the end of [id_pattern]. *)
Lemma group_word_greedy w rest cs :
  w <> "" -> all_word w = true -> ends_word rest ->
  rx (RGrp 1 (plus word)) (w +:+ rest) cs
     (fun s' cs' => rx REps s' cs' (fun _ cs0 => Some cs0))
  = Some ((1, w) :: cs).
Proof.
  intros Hne Hw Hrest.
  change (rep_loop 1 None word
            (fun s' cs' => Some ((1, consumed (w +:+ rest) s') :: cs'))
            (String.length (w +:+ rest)) 0 (w +:+ rest) cs
          = Some ((1, w) :: cs)).
  apply rep_word_greedy; try assumption; try lia.
  - rewrite consumed_prefix. reflexivity.
  - intros ->. contradiction.
Qed.

Lemma word_no_slash w : all_word w = true -> PosixPath.rfind "/" w = None.
Proof.
  unfold all_word. induction w as [| c w IH]; [reflexivity |].
  simpl. intros H. apply andb_true_iff in H as [Hc Hw].
  rewrite (IH Hw).
  destruct (Ascii.eqb c "/") eqn:E; [| reflexivity].
  apply Ascii.eqb_eq in E. subst c. discriminate Hc.
Qed.

End Url_facts.

(** Run the matcher and [split] on a url whose head is known. *)
Ltac eval_url :=
  repeat (rewrite ?append_cons, ?Url_facts.append_nil_l);
  repeat (cbn; rewrite ?Nat.leb_refl).

Section Catalog_url.

Variables scheme host ty id rest : string.
Hypothesis Hs : In scheme ["http"; "https"].
Hypothesis Hh : In host ["www"; "play"; "open"].
Hypothesis Ht : In ty ["album"; "track"; "artist"; "playlist"; "label"].
Hypothesis Hne : id <> "".
Hypothesis Hw : all_word id = true.
Hypothesis Hrest : ends_word rest.

Lemma catalog_url_get_id :
  get_id (scheme +:+ "://" +:+ host +:+ ".qobuz.com/" +:+ ty +:+ "/"
          +:+ id +:+ rest) = Ok id.
Proof.
  unfold get_id, Re.re_match, id_pattern.
  remember (Re.RGrp 1 (Re.plus Re.word)) as G eqn:EG.
  remember (id +:+ rest) as tail eqn:Etail.
  assert (HG : forall cs,
             Re.rx G tail cs
               (fun s' cs' => Re.rx Re.REps s' cs' (fun _ cs0 => Some cs0))
             = Some ((1, id) :: cs)).
  { intros cs. subst G tail. apply Url_facts.group_word_greedy; assumption. }
  clear EG Etail Hne Hw Hrest.
  simpl in Hs, Hh, Ht. intuition subst; eval_url; rewrite HG; reflexivity.
Qed.

Lemma catalog_url_get_type :
  get_type (scheme +:+ "://" +:+ host +:+ ".qobuz.com/" +:+ ty +:+ "/"
            +:+ id +:+ rest) = Ok ty.
Proof.
  unfold get_type, Re.re_match.
  remember (id +:+ rest) as tail eqn:Etail. clear Etail Hne Hw Hrest.
  simpl in Hs, Hh, Ht. intuition subst; eval_url; reflexivity.
Qed.

Lemma catalog_url_try :
  exists td, possibles ty = Ok td /\
    handle_url_try (scheme +:+ "://" +:+ host +:+ ".qobuz.com/" +:+ ty +:+ "/"
                    +:+ id +:+ rest) = Ok (ty, td, id).
Proof.
  unfold handle_url_try. rewrite catalog_url_get_type, catalog_url_get_id.
  clear Hne Hw Hrest Hs Hh.
  simpl in Ht. intuition subst; eexists; split; reflexivity.
Qed.

End Catalog_url.

(** X1. A url of the catalog, [http(s)://(www|play|open).qobuz.com/<type>/<id>]
    with one of the five types and an id of word characters, possibly
    followed by text that does not continue the id, is classified as
    that type and that id. *)
Theorem catalog_url_classified (scheme host ty id rest : string) :
  In scheme ["http"; "https"] ->
  In host ["www"; "play"; "open"] ->
  In ty ["album"; "track"; "artist"; "playlist"; "label"] ->
  id <> "" -> all_word id = true -> ends_word rest ->
  let url := scheme +:+ "://" +:+ host +:+ ".qobuz.com/" +:+ ty +:+ "/"
             +:+ id +:+ rest in
  get_type url = Ok ty /\ get_id url = Ok id /\
  exists td, possibles ty = Ok td /\ handle_url_try url = Ok (ty, td, id).
Proof.
  intros Hs Hh Ht Hne Hw Hrest url. subst url.
  split; [| split].
  - apply catalog_url_get_type; assumption.
  - apply catalog_url_get_id; assumption.
  - apply catalog_url_try; assumption.
Qed.

(** X1, witness: the example of the design document. *)
Lemma catalog_url_classified_witness :
  handle_url_try "https://play.qobuz.com/album/abc123"
  = Ok ("album",
        {| td_album := Some true; td_func := None; td_iterable_key := None |},
        "abc123").
Proof.
  destruct (catalog_url_classified "https" "play" "album" "abc123" ""
              ltac:(right; left; reflexivity) ltac:(right; left; reflexivity)
              ltac:(left; reflexivity) ltac:(discriminate) eq_refl I)
    as [_ [_ [td [Htd Hurl]]]].
  vm_compute in Htd. injection Htd as <-. exact Hurl.
Defined.

(** X2. A favorites url is classified by its last segment: [get_type]
    answers the segment after "favorites/" and [get_id] captures the
    same segment.  So such a reference is accepted only when that segment
    is one of the five type keywords (which then also serves as the id),
    and is rejected with [KeyError] otherwise. *)
Theorem favorites_url_classified_by_last_segment (x : string) :
  x <> "" -> all_word x = true ->
  let url := "https://play.qobuz.com/user/library/favorites/" +:+ x in
  get_type url = Ok x /\ get_id url = Ok x /\
  handle_url_try url = (do td <- possibles x; Ok (x, td, x)) /\
  (in_list x ["album"; "artist"; "playlist"; "track"; "label"] = false ->
   handle_url_try url = Raise KeyError).
Proof.
  intros Hne Hw url.
  assert (Hid : get_id url = Ok x).
  { unfold get_id, Re.re_match, id_pattern. subst url.
    remember (Re.RGrp 1 (Re.plus Re.word)) as G eqn:EG.
    assert (HG : forall cs,
               Re.rx G x cs
                 (fun s' cs' => Re.rx Re.REps s' cs' (fun _ cs0 => Some cs0))
               = Some ((1, x) :: cs)).
    { intros cs. subst G. rewrite <- (append_nil_r x) at 1.
      apply Url_facts.group_word_greedy; [assumption | assumption | exact I]. }
    clear EG. eval_url. rewrite HG. reflexivity. }
  assert (Hty : get_type url = Ok x).
  { unfold get_type, Re.re_match. subst url. eval_url.
    rewrite (Path_facts.split_no_slash x (Url_facts.word_no_slash x Hw)).
    reflexivity. }
  clearbody url.
  assert (Htry : handle_url_try url = (do td <- possibles x; Ok (x, td, x))).
  { unfold handle_url_try. rewrite Hty. unfold rbind at 1.
    destruct (possibles x); unfold rbind; [rewrite Hid |]; reflexivity. }
  split; [exact Hty |]. split; [exact Hid |]. split; [exact Htry |].
  intros Hout. rewrite Htry. unfold possibles, in_list in *. simpl in Hout.
  repeat (apply orb_false_iff in Hout as [? Hout]).
  repeat match goal with H : String.eqb _ _ = false |- _ => rewrite H; clear H end.
  reflexivity.
Qed.

(** X2, witness: the favourite albums of a user. *)
Lemma favorites_url_classified_by_last_segment_witness :
  handle_url_try "https://play.qobuz.com/user/library/favorites/albums"
  = Raise KeyError.
Proof.
  destruct (favorites_url_classified_by_last_segment "albums"
              ltac:(discriminate) eq_refl) as [_ [_ [_ Hout]]].
  exact (Hout eq_refl).
Defined.

Lemma get_type_errors url e : get_type url = Raise e -> e = IndexError.
Proof.
  unfold get_type, Py.index, Py.index_last.
  destruct (Re.re_match _ url).
  - destruct (Py.split "/" url !! 3) as [url_type |]; simpl; [| congruence].
    destruct (negb _); [| discriminate].
    destruct (String.eqb url_type "user").
    + destruct (last (Py.split "/" url)); [discriminate | congruence].
    + destruct (Py.split "/" url !! 4); [discriminate | congruence].
  - destruct (Py.split "/" url !! 2); [discriminate | congruence].
Qed.

Lemma possibles_errors ty e : possibles ty = Raise e -> e = KeyError.
Proof.
  unfold possibles.
  repeat match goal with
         | |- context [if ?b then _ else _] => destruct b; [discriminate |]
         end.
  congruence.
Qed.

Lemma handle_url_try_errors url e :
  handle_url_try url = Raise e ->
  e = KeyError \/ e = IndexError \/
  (e = AttributeError /\
   exists ty td, get_type url = Ok ty /\ possibles ty = Ok td).
Proof.
  unfold handle_url_try. unfold rbind at 1.
  destruct (get_type url) as [ty | e1] eqn:Ety.
  - unfold rbind at 1. destruct (possibles ty) as [td | e2] eqn:Etd.
    + destruct (get_id_cases url) as [[t Ht] | Hno].
      * rewrite Ht. discriminate.
      * rewrite Hno. intros [= <-]. right. right. eauto.
    + intros [= <-]. left. exact (possibles_errors _ _ Etd).
  - intros [= <-]. right. left. exact (get_type_errors _ _ Ety).
Qed.

(** X3. What [handle_url] does with a reference, by its classification:
    either the reference is classified; or the type keyword is unknown or
    the reference too short, and [handle_url] logs "Invalid url" and
    returns, touching nothing else; or the type is recognized but the id
    pattern does not match, and [handle_url] raises [AttributeError]
    without logging.  Classification raises nothing else. *)
Theorem handle_url_reference_outcomes
    {World : Type} (env : collab World) (self : config) (url : string)
    (st : state World) :
  (exists ty td item_id, handle_url_try url = Ok (ty, td, item_id)) \/
  ((handle_url_try url = Raise KeyError \/ handle_url_try url = Raise IndexError)
   /\ handle_url env self url st =
      (Ok tt, {| world := world st; downloads_db := downloads_db st;
                 trace := trace st ++ [EvLog (InvalidUrl url)] |})) \/
  ((exists ty td, get_type url = Ok ty /\ possibles ty = Ok td)
   /\ handle_url_try url = Raise AttributeError
   /\ handle_url env self url st = (Raise AttributeError, st)).
Proof.
  destruct (handle_url_try url) as [[[ty td] item_id] | e] eqn:Etry.
  - left. eauto.
  - right. unfold handle_url. rewrite Etry.
    destruct (handle_url_try_errors url e Etry) as [-> | [-> | [-> Hty]]].
    + left. split; [left; reflexivity | reflexivity].
    + left. split; [right; reflexivity | reflexivity].
    + right. split; [exact Hty |]. split; reflexivity.
Qed.

(** X4. An album or track url is resolved without asking the catalog:
    [handle_url] is one call of [download_from_id] with the id of the url,
    into the base directory; and with a ledger that does not know the id,
    the id is in the ledger once the transfer has returned. *)
Theorem leaf_url_is_one_download
    {World : Type} (env : collab World) (self : config)
    (scheme host ty id rest : string) (st : state World) :
  In scheme ["http"; "https"] ->
  In host ["www"; "play"; "open"] ->
  In ty ["album"; "track"] ->
  id <> "" -> all_word id = true -> ends_word rest ->
  let url := scheme +:+ "://" +:+ host +:+ ".qobuz.com/" +:+ ty +:+ "/"
             +:+ id +:+ rest in
  handle_url env self url st
  = download_from_id env self id (String.eqb ty "album") None st /\
  (forall ids,
     downloads_db st = Some ids -> id ∉ ids ->
     fst (download_id_by_type env self id (directory self)
            (String.eqb ty "album") (world st)) = Ok tt ->
     ledger_has (snd (handle_url env self url st)) id).
Proof.
  intros Hs Hh Ht Hne Hw Hrest url.
  assert (Ht5 : In ty ["album"; "track"; "artist"; "playlist"; "label"]).
  { simpl in *. intuition. }
  destruct (catalog_url_try scheme host ty id rest Hs Hh Ht5 Hne Hw Hrest)
    as [td [Htd Hurl]].
  fold url in Hurl.
  assert (Hrun : handle_url env self url st
                 = download_from_id env self id (String.eqb ty "album") None st).
  { unfold handle_url. rewrite Hurl.
    destruct Ht as [<- | [<- | []]]; vm_compute in Htd; injection Htd as <-;
      reflexivity. }
  split; [exact Hrun |].
  intros ids Hdb Hnew Hok. rewrite Hrun.
  rewrite download_from_id_new by (unfold ledger_has; rewrite Hdb; exact Hnew).
  cbv zeta. simpl path_or_directory.
  destruct (download_id_by_type env self id (directory self)
              (String.eqb ty "album") (world st)) as [[u | e] w];
    [| discriminate Hok].
  unfold ledger_has. simpl. rewrite Hdb. simpl.
  apply elem_of_union. left. apply elem_of_singleton. reflexivity.
Qed.

(** X4, witness: the example of the design document, end to end. *)
Lemma leaf_url_is_one_download_witness :
  let st := Sim.start Sim.quiet (Some []) in
  ledger_has (snd (handle_url Sim.env Sim.self
                     "https://play.qobuz.com/album/abc123" st)) "abc123".
Proof.
  intros st.
  destruct (leaf_url_is_one_download Sim.env Sim.self "https" "play" "album"
              "abc123" "" st
              ltac:(right; left; reflexivity) ltac:(right; left; reflexivity)
              ltac:(left; reflexivity) ltac:(discriminate) eq_refl I)
    as [_ Hrec].
  apply (Hrec ∅); [reflexivity | apply not_elem_of_empty | reflexivity].
Defined.

(** ** Invariants of a batch *)

(** Events that only [download_from_id] emits. *)
Definition neutral (ev : event) : bool :=
  match ev with
  | EvDownload _ _ _ | EvLedgerInsert _ | EvLog (AlreadyDownloaded _) => false
  | _ => true
  end.

(** Events that show a ledger at work: a skip or an insertion. *)
Definition ledger_event (ev : event) : bool :=
  match ev with
  | EvLedgerInsert _ | EvLog (AlreadyDownloaded _) => true
  | _ => false
  end.

(** Every insertion in [evs] comes directly after a call of the
    downloader for the same id; [prev] is the event before [evs]. *)
Fixpoint recorded_after (prev : option event) (evs : list event) : bool :=
  match evs with
  | [] => true
  | ev :: evs' =>
      match ev with
      | EvLedgerInsert i =>
          match prev with
          | Some (EvDownload j _ _) => String.eqb i j
          | _ => false
          end
      | _ => true
      end && recorded_after (Some ev) evs'
  end.

Section Obeys.

Context {World : Type}.
Variable I : option (gset string) -> Prop.   (* kept by the ledger *)
Variable S : list event -> Prop.             (* true of the events of a run *)
Hypothesis S_nil : S [].
Hypothesis S_app : forall a b, S a -> S b -> S (a ++ b).

Definition obeys {A} (m : M World A) : Prop :=
  forall st, I (downloads_db st) ->
    exists evs, trace (snd (m st)) = trace st ++ evs /\ S evs /\
                I (downloads_db (snd (m st))).

Lemma obeys_same {A} (m : M World A) :
  (forall st, snd (m st) = st) -> obeys m.
Proof.
  intros H st HI. exists []. rewrite H, app_nil_r. auto.
Qed.

Lemma obeys_ret {A} (a : A) : obeys (ret a).
Proof. apply obeys_same. reflexivity. Qed.

Lemma obeys_raise {A} e : obeys (raise (A:=A) e).
Proof. apply obeys_same. reflexivity. Qed.

Lemma obeys_lift {A} (r : result A) : obeys (lift r).
Proof. apply obeys_same. reflexivity. Qed.

Lemma obeys_ask {A} (f : World -> A) : obeys (ask f).
Proof. apply obeys_same. reflexivity. Qed.

Lemma obeys_ask_result {A} (f : World -> result A) : obeys (ask_result f).
Proof. apply obeys_same. reflexivity. Qed.

Lemma obeys_call {A} (f : World -> result A * World) : obeys (call f).
Proof.
  intros st HI. exists []. unfold call. destruct (f (world st)) as [r w].
  simpl. rewrite app_nil_r. auto.
Qed.

Lemma obeys_emit ev : S [ev] -> obeys (emit ev).
Proof. intros HS st HI. exists [ev]. simpl. auto. Qed.

Lemma obeys_bind {A B} (m : M World A) (f : A -> M World B) :
  obeys m -> (forall a, obeys (f a)) -> obeys (bind m f).
Proof.
  intros Hm Hf st HI. unfold bind.
  destruct (Hm st HI) as [evs1 [Ht1 [HS1 HI1]]].
  destruct (m st) as [[a | e] st1]; simpl in *.
  - destruct (Hf a st1 HI1) as [evs2 [Ht2 [HS2 HI2]]].
    exists (evs1 ++ evs2). rewrite Ht2, Ht1, app_assoc. auto.
  - exists evs1. auto.
Qed.

Lemma obeys_try_except {A} (body : M World A) caught handler :
  obeys body -> (forall e, obeys (handler e)) ->
  obeys (try_except body caught handler).
Proof.
  intros Hm Hf st HI. unfold try_except.
  destruct (Hm st HI) as [evs1 [Ht1 [HS1 HI1]]].
  destruct (body st) as [[a | e] st1]; simpl in *.
  - exists evs1. auto.
  - destruct (caught e); [| exists evs1; auto].
    destruct (Hf e st1 HI1) as [evs2 [Ht2 [HS2 HI2]]].
    exists (evs1 ++ evs2). rewrite Ht2, Ht1, app_assoc. auto.
Qed.

Lemma obeys_for_each {A} (l : list A) (body : A -> M World unit) :
  (forall x, obeys (body x)) -> obeys (for_each l body).
Proof.
  intros Hb. induction l as [| x l IH]; simpl.
  - apply obeys_ret.
  - apply obeys_bind; [apply Hb | intros _; exact IH].
Qed.

(** The methods, given that the events of the other methods are fine and
    that [download_from_id] obeys. *)
Hypothesis S_neutral : forall ev, neutral ev = true -> S [ev].

Variable env : collab World.
Variable self : config.

Hypothesis download_from_id_obeys :
  forall i album alt_path, obeys (download_from_id env self i album alt_path).

Ltac obeys_step :=
  match goal with
  | |- obeys (bind _ _) => apply obeys_bind; [| intros ?]
  | |- obeys (try_except _ _ _) => apply obeys_try_except; [| intros ?]
  | |- obeys (for_each _ _) => apply obeys_for_each; intros ?
  | |- obeys (emit _) => apply obeys_emit; apply S_neutral; reflexivity
  | |- obeys (log _) => apply obeys_emit; apply S_neutral; reflexivity
  | |- obeys (ret _) => apply obeys_ret
  | |- obeys (raise _) => apply obeys_raise
  | |- obeys (lift _) => apply obeys_lift
  | |- obeys (ask _) => apply obeys_ask
  | |- obeys (ask_result _) => apply obeys_ask_result
  | |- obeys (call _) => apply obeys_call
  | |- obeys (download_from_id _ _ _ _ _) => apply download_from_id_obeys
  | |- obeys (if ?b then _ else _) => destruct b
  | |- obeys (match ?x with _ => _ end) => destruct x
  end.

Lemma obeys_create_dir d : obeys (create_dir env d).
Proof. unfold create_dir. repeat obeys_step. Qed.

Lemma obeys_make_m3u d : obeys (make_m3u env self d).
Proof. unfold make_m3u. repeat obeys_step. Qed.

Lemma obeys_search_by_type query item_type limit lucky :
  obeys (search_by_type env query item_type limit lucky).
Proof. unfold search_by_type. repeat obeys_step. Qed.

Lemma obeys_handle_url url : obeys (handle_url env self url).
Proof.
  unfold handle_url.
  repeat first [apply obeys_create_dir | apply obeys_make_m3u | obeys_step].
Qed.

Lemma obeys_download_lastfm_pl url : obeys (download_lastfm_pl env self url).
Proof.
  unfold download_lastfm_pl.
  repeat first [apply obeys_search_by_type | apply obeys_make_m3u | obeys_step].
Qed.

Lemma obeys_download_from_txt_file download_list txt_file :
  (forall urls, obeys (download_list urls)) ->
  obeys (download_from_txt_file env download_list txt_file).
Proof.
  intros H. unfold download_from_txt_file.
  repeat first [apply H | obeys_step].
Qed.

Lemma obeys_download_list_of_urls depth urls :
  obeys (download_list_of_urls env self depth urls).
Proof.
  revert urls. induction depth as [| depth IH]; intros urls; simpl;
    repeat first [apply obeys_handle_url | apply obeys_download_lastfm_pl
                 | apply obeys_download_from_txt_file; exact IH | obeys_step].
Qed.

End Obeys.

Section Batch_invariants.

Context {World : Type}.
Variable env : collab World.
Variable self : config.

Definition quiet_events (evs : list event) : Prop :=
  forallb (fun ev => negb (ledger_event ev)) evs = true.

Lemma quiet_events_app a b :
  quiet_events a -> quiet_events b -> quiet_events (a ++ b).
Proof.
  unfold quiet_events. intros Ha Hb. rewrite forallb_app, Ha, Hb. reflexivity.
Qed.

Lemma quiet_neutral ev : neutral ev = true -> quiet_events [ev].
Proof.
  unfold quiet_events. simpl. destruct ev as [[] | | | | | | |]; simpl;
    try reflexivity; discriminate.
Qed.

Lemma download_from_id_without_ledger i album alt_path :
  obeys (World:=World) (fun db => db = None) quiet_events
        (download_from_id env self i album alt_path).
Proof.
  intros st Hdb.
  rewrite download_from_id_new by (unfold ledger_has; rewrite Hdb; intros []).
  cbv zeta. rewrite Hdb.
  destruct (download_id_by_type env self i (path_or_directory self alt_path)
              album (world st)) as [[u | e] w]; simpl.
  - eexists. split; [rewrite <- app_assoc; reflexivity |]. split; reflexivity.
  - destruct (is_request_or_non_streamable e); simpl.
    + eexists. split; [rewrite <- app_assoc; reflexivity |].
      split; reflexivity.
    + eexists. split; [reflexivity |]. split; reflexivity.
Qed.

(** X5. Without a configured ledger a batch never skips and never
    records: whatever the references, none of the events of
    [download_list_of_urls] is a skip or an insertion, and the ledger is
    still absent afterwards. *)
Theorem batch_without_ledger_never_skips
    (depth : nat) (urls : option (list string)) (st : state World) :
  downloads_db st = None ->
  let st' := snd (download_list_of_urls env self depth urls st) in
  downloads_db st' = None /\
  trace st' = trace st ++ new_events st st' /\
  forall ev, In ev (new_events st st') ->
    (forall i, ev <> EvLedgerInsert i) /\
    (forall i, ev <> EvLog (AlreadyDownloaded i)).
Proof.
  intros Hdb st'.
  destruct (obeys_download_list_of_urls (fun db => db = None) quiet_events
              eq_refl quiet_events_app quiet_neutral env self
              download_from_id_without_ledger depth urls st Hdb)
    as [evs [Ht [Hq Hnone]]].
  fold st' in Ht, Hnone. rewrite (new_events_app _ _ _ Ht).
  split; [exact Hnone |]. split; [exact Ht |].
  intros ev Hin. unfold quiet_events in Hq.
  rewrite forallb_forall in Hq. specialize (Hq ev Hin).
  split; intros i ->; discriminate Hq.
Qed.

Lemma recorded_after_weaken evs :
  recorded_after None evs = true -> forall p, recorded_after p evs = true.
Proof.
  destruct evs as [| ev evs]; [reflexivity |].
  simpl. intros H p. destruct ev; try exact H. discriminate H.
Qed.

Lemma recorded_after_app a b :
  forall p, recorded_after p a = true -> recorded_after None b = true ->
            recorded_after p (a ++ b) = true.
Proof.
  induction a as [| ev a IH]; intros p Ha Hb.
  - apply recorded_after_weaken. exact Hb.
  - simpl in *. apply andb_true_iff in Ha as [Hev Ha].
    rewrite Hev. simpl. apply IH; assumption.
Qed.

Lemma recorded_neutral ev : neutral ev = true -> recorded_after None [ev] = true.
Proof. destruct ev; simpl; try reflexivity; discriminate. Qed.

Lemma recorded_after_spec evs :
  forall p, recorded_after p evs = true ->
  forall pre i post, evs = pre ++ EvLedgerInsert i :: post ->
    (exists pre' path album, pre = pre' ++ [EvDownload i path album]) \/
    (pre = [] /\ exists path album, p = Some (EvDownload i path album)).
Proof.
  induction evs as [| ev evs IH]; intros p H pre i post Heq.
  - destruct pre; discriminate Heq.
  - simpl in H. apply andb_true_iff in H as [Hev H].
    destruct pre as [| e0 pre].
    + right. split; [reflexivity |]. simpl in Heq. injection Heq as -> _.
      destruct p as [[] |]; try discriminate Hev.
      apply String.eqb_eq in Hev. subst. eauto.
    + left. simpl in Heq. injection Heq as -> Heq.
      destruct (IH _ H pre i post Heq) as [[pre' [path [album ->]]] | [-> Hp]].
      * exists (e0 :: pre'), path, album. reflexivity.
      * destruct Hp as [path [album Hp]]. injection Hp as ->.
        exists [], path, album. reflexivity.
Qed.

Lemma download_from_id_recorded i album alt_path :
  obeys (World:=World) (fun _ => True)
        (fun evs => recorded_after None evs = true)
        (download_from_id env self i album alt_path).
Proof.
  intros st _. destruct (ledger_has_dec st i) as [Hi | Hi].
  - rewrite download_from_id_known by assumption. simpl.
    eexists. split; [reflexivity |]. split; [reflexivity | exact I].
  - rewrite download_from_id_new by assumption. cbv zeta.
    destruct (download_id_by_type env self i (path_or_directory self alt_path)
                album (world st)) as [[u | e] w]; simpl.
    + eexists. split; [rewrite <- app_assoc; reflexivity |].
      split; [| exact I].
      destruct (downloads_db st); simpl; [| reflexivity].
      rewrite String.eqb_refl. reflexivity.
    + destruct (is_request_or_non_streamable e); simpl.
      * eexists. split; [rewrite <- app_assoc; reflexivity |].
        split; [reflexivity | exact I].
      * eexists. split; [reflexivity |]. split; [reflexivity | exact I].
Qed.

(** X6. In a batch, whatever the references and the answers of the
    collaborators, an id is recorded in the ledger only directly after
    the downloader was called for that id: every insertion event of
    [download_list_of_urls] is preceded, with nothing in between, by the
    download event of the same id. *)
Theorem batch_records_only_after_download
    (depth : nat) (urls : option (list string)) (st : state World)
    (pre post : list event) (i : string) :
  new_events st (snd (download_list_of_urls env self depth urls st))
  = pre ++ EvLedgerInsert i :: post ->
  exists pre' path album, pre = pre' ++ [EvDownload i path album].
Proof.
  intros Heq.
  destruct (obeys_download_list_of_urls (fun _ => True)
              (fun evs => recorded_after None evs = true)
              eq_refl
              (fun a b Ha Hb => recorded_after_app a b None Ha Hb)
              recorded_neutral env self
              download_from_id_recorded depth urls st I)
    as [evs [Ht [Hrec _]]].
  rewrite (new_events_app _ _ _ Ht) in Heq.
  destruct (recorded_after_spec evs None Hrec pre i post Heq)
    as [H | [_ [path [album Hp]]]]; [exact H | discriminate Hp].
Qed.

End Batch_invariants.

(** X5, witness: two albums, no ledger. *)
Lemma batch_without_ledger_never_skips_witness :
  let st := Sim.start Sim.quiet None in
  downloads_db (snd (download_list_of_urls Sim.env Sim.self 1
                       (Some ["https://play.qobuz.com/album/abc123";
                              "https://play.qobuz.com/album/abc123"]) st))
  = None.
Proof.
  intros st.
  exact (proj1 (batch_without_ledger_never_skips Sim.env Sim.self 1
                  (Some ["https://play.qobuz.com/album/abc123";
                         "https://play.qobuz.com/album/abc123"]) st eq_refl)).
Defined.

(** X6, witness: one album, recorded after its download. *)
Lemma batch_records_only_after_download_witness :
  exists pre' path album,
    [EvDownload "abc123" "/music" true]
    = pre' ++ [EvDownload "abc123" path album].
Proof.
  apply (batch_records_only_after_download Sim.env Sim.self 1
           (Some ["https://play.qobuz.com/album/abc123"])
           (Sim.start Sim.quiet (Some []))
           [EvDownload "abc123" "/music" true] [] "abc123").
  vm_compute. reflexivity.
Defined.

(** ** Listing files ([download_from_txt_file]) *)




Section Listing.

Context {World : Type}.
Variable env : collab World.
Variable self : config.


End Listing.


(** ** Search ([search_by_type], [format_duration]) *)

(** The url of an entry of a search result. *)
Definition entry_url (e : search_entry) : string :=
  match e with
  | Link url | Hit _ url => url
  end.

Lemma map_result_length {A B} (f : A -> result B) l l' :
  map_result f l = Ok l' -> length l' = length l.
Proof.
  revert l'. induction l as [| x l IH]; intros l' H; simpl in H.
  - injection H as <-. reflexivity.
  - destruct (f x); [| discriminate H]. simpl in H.
    destruct (map_result f l) as [ys |]; [| discriminate H].
    simpl in H. injection H as <-. simpl. f_equal. apply IH. reflexivity.
Qed.

Lemma map_result_in {A B} (f : A -> result B) l l' y :
  map_result f l = Ok l' -> In y l' -> exists x, In x l /\ f x = Ok y.
Proof.
  revert l'. induction l as [| x l IH]; intros l' H Hin; simpl in H.
  - injection H as <-. destruct Hin.
  - destruct (f x) as [y0 |] eqn:E; [| discriminate H]. simpl in H.
    destruct (map_result f l) as [ys |]; [| discriminate H].
    simpl in H. injection H as <-. destruct Hin as [<- | Hin].
    + exists x. split; [left; reflexivity | exact E].
    + destruct (IH ys eq_refl Hin) as [x' [Hx' Hf]].
      exists x'. split; [right; exact Hx' | exact Hf].
Qed.

Section Search_more.

Context {World : Type}.
Variable env : collab World.

(** X9. [search_by_type] never lets a [KeyError] or an [IndexError]
    out, whatever the catalog answers; and for a query shorter than three
    characters or an unknown item type it returns [None] without asking
    the catalog. *)
Theorem search_by_type_contains_key_errors
    (query item_type : string) (limit : Z) (lucky : bool) (st : state World) :
  let run := search_by_type env query item_type limit lucky st in
  fst run <> Raise KeyError /\ fst run <> Raise IndexError /\
  (String.length query < 3 \/ search_possibles item_type = Raise KeyError ->
   fst run = Ok None /\ world (snd run) = world st /\
   forall f q l, ~ In (EvSearch f q l) (new_events st (snd run))).
Proof.
  intros run. subst run. unfold search_by_type.
  destruct (String.length query <? 3) eqn:Elen.
  - unfold bind, log, emit, ret. simpl.
    split; [discriminate |]. split; [discriminate |]. intros _.
    split; [reflexivity |]. split; [reflexivity |].
    unfold new_events. simpl. rewrite drop_app_length.
    intros f q l [H | []]. discriminate H.
  - unfold try_except.
    match goal with
    | |- context [match ?body st with _ => _ end] =>
        destruct (body st) as [[found | e] st1] eqn:Ebody
    end.
    + simpl. split; [discriminate |]. split; [discriminate |].
      intros [Hshort | Hunknown].
      * apply Nat.ltb_ge in Elen. lia.
      * exfalso. revert Ebody. unfold bind at 1, lift at 1.
        rewrite Hunknown. discriminate.
    + destruct (is_key_or_index_error e) eqn:Ecaught.
      * unfold bind, log, emit, ret. simpl.
        split; [discriminate |]. split; [discriminate |].
        intros [Hshort | Hunknown].
        -- apply Nat.ltb_ge in Elen. lia.
        -- revert Ebody. unfold bind at 1, lift at 1. rewrite Hunknown.
           intros [= <- <-]. split; [reflexivity |]. split; [reflexivity |].
           unfold new_events. simpl. rewrite drop_app_length.
           intros f q l [H | []]. discriminate H.
      * simpl. split; [intros [= ->]; discriminate Ecaught |].
        split; [intros [= ->]; discriminate Ecaught |].
        intros [Hshort | Hunknown].
        -- apply Nat.ltb_ge in Elen. lia.
        -- revert Ebody. unfold bind at 1, lift at 1. rewrite Hunknown.
           intros [= <- <-]. discriminate Ecaught.
Qed.

Lemma search_possibles_types item_type md :
  search_possibles item_type = Ok md ->
  In item_type ["album"; "artist"; "track"; "playlist"].
Proof.
  unfold search_possibles.
  destruct (String.eqb item_type "album") eqn:E1;
    [apply String.eqb_eq in E1; subst; simpl; auto |].
  destruct (String.eqb item_type "artist") eqn:E2;
    [apply String.eqb_eq in E2; subst; simpl; auto |].
  destruct (String.eqb item_type "track") eqn:E3;
    [apply String.eqb_eq in E3; subst; simpl; auto |].
  destruct (String.eqb item_type "playlist") eqn:E4;
    [apply String.eqb_eq in E4; subst; simpl; auto 6 |].
  discriminate.
Qed.

(** X10. What a search returns can be fed back: the url of every entry
    is the web url of the searched type and the hit's id as text, and
    when that text is a word, [handle_url]'s classification of the url
    gives the searched type and the id back. *)
Theorem search_entry_url_classifies_back
    (w : World) (md : mode_dict) (item_type : string) (lucky : bool)
    (hit : gmap string value) (e : search_entry) :
  search_possibles item_type = Ok md ->
  search_item env w md item_type lucky (VDict hit) = Ok e ->
  exists id_text,
    py_format env (default (VStr "") (hit !! "id")) "" = Ok id_text /\
    entry_url e = WEB_URL +:+ item_type +:+ "/" +:+ id_text /\
    (lucky = true -> e = Link (entry_url e)) /\
    (id_text <> "" -> all_word id_text = true ->
     exists td, handle_url_try (entry_url e) = Ok (item_type, td, id_text)).
Proof.
  intros Hmd Hitem. unfold search_item in Hitem. simpl in Hitem.
  destruct (vformat _ _ _ hit) as [text |]; [| discriminate Hitem].
  simpl in Hitem.
  match type of Hitem with
  | rbind ?extra _ = _ => destruct extra as [text' |]; [| discriminate Hitem]
  end.
  simpl in Hitem.
  destruct (py_format env _ "") as [id_text |] eqn:Eid; [| discriminate Hitem].
  simpl in Hitem. injection Hitem as <-.
  exists id_text. split; [reflexivity |].
  assert (Hurl : entry_url (if lucky
                            then Link (WEB_URL +:+ item_type +:+ "/" +:+ id_text)
                            else Hit text' (WEB_URL +:+ item_type +:+ "/"
                                            +:+ id_text))
                 = WEB_URL +:+ item_type +:+ "/" +:+ id_text)
    by (destruct lucky; reflexivity).
  split; [exact Hurl |]. split.
  - intros ->. reflexivity.
  - intros Hne Hw. rewrite Hurl.
    assert (Hty : In item_type ["album"; "track"; "artist"; "playlist"; "label"]).
    { pose proof (search_possibles_types _ _ Hmd) as H. simpl in *. intuition. }
    destruct (catalog_url_try "https" "play" item_type id_text ""
                ltac:(right; left; reflexivity) ltac:(right; left; reflexivity)
                Hty Hne Hw I) as [td [_ Htry]].
    exists td. rewrite append_nil_r in Htry. exact Htry.
Qed.

End Search_more.

(** X10, witness: the track hit of the examples, with a duration. *)
Lemma search_entry_url_classifies_back_witness :
  exists td,
    handle_url_try "https://play.qobuz.com/track/7" = Ok ("track", td, "7").
Proof.
  destruct (search_entry_url_classifies_back Sim.env Sim.quiet
              {| md_func := search_tracks; md_album := false; md_key := "tracks";
                 md_format := [fld_item "performer" "name"; Lit " - ";
                               fld "title"];
                 md_requires_extra := true |}
              "track" false
              (list_to_map (("duration", VInt 200) :: Sim.track_hit))
              (Hit "P - T - 00:03:20 [HI-RES]" "https://play.qobuz.com/track/7")
              ltac:(vm_compute; reflexivity) ltac:(vm_compute; reflexivity))
    as [id_text [Hid [_ [_ Hback]]]].
  vm_compute in Hid. injection Hid as <-.
  exact (Hback ltac:(discriminate) eq_refl).
Defined.

(** ** Import of a foreign playlist, when things are missing *)

Section Lastfm_more.

Context {World : Type}.
Variable env : collab World.
Variable self : config.

(** X12. An import that found tracks is not robust against what comes
    next.  Without a heading on the page, [download_lastfm_pl] raises
    [AttributeError] right after the fetch.  With a heading, when the
    search for the first track finds no hit it raises [IndexError], and
    when that search returns [None] (query too short, catalog answer
    without the expected keys) it raises [TypeError]; in both cases no
    track is downloaded, the remaining tracks are not searched and no
    playlist is written. *)
Theorem lastfm_import_aborts_without_heading_or_hit
    (playlist_url q : string) (qs : list string) (st : state World)
    (soup : page) (w : World) :
  requests_get env playlist_url (world st) = (Ok soup, w) ->
  lastfm_track_list (page_artists soup) (page_titles soup) = q :: qs ->
  (page_h1 soup = None ->
   download_lastfm_pl env self playlist_url st =
   (Raise AttributeError,
    {| world := w; downloads_db := downloads_db st;
       trace := trace st ++ [EvHttpGet playlist_url] |})) /\
  (forall heading pl_title found st2,
     page_h1 soup = Some heading ->
     sanitize_filename env (VStr heading) = Ok pl_title ->
     search_by_type env q "track" 1 true
       {| world := w; downloads_db := downloads_db st;
          trace := trace st
                   ++ [EvHttpGet playlist_url;
                       EvLog (DownloadingPlaylist pl_title (S (length qs)))] |}
     = (Ok found, st2) ->
     (found = Some [] ->
      download_lastfm_pl env self playlist_url st = (Raise IndexError, st2)) /\
     (found = None ->
      download_lastfm_pl env self playlist_url st = (Raise TypeError, st2))).
Proof.
  intros Hget Hlist. split.
  - intros Hh1. unfold download_lastfm_pl, try_except. unfold_m.
    rewrite Hget. simpl. rewrite Hlist. simpl. rewrite Hh1. reflexivity.
  - intros heading pl_title found st2 Hh1 Hclean Hsearch.
    assert (Hrun : download_lastfm_pl env self playlist_url st =
              match found with
              | Some [] => (Raise IndexError, st2)
              | None => (Raise TypeError, st2)
              | Some (first :: _) =>
                  download_lastfm_pl env self playlist_url st
              end).
    { destruct found as [[| first l] |]; [| reflexivity |].
      - unfold download_lastfm_pl, try_except. unfold_m.
        rewrite Hget. simpl. rewrite Hlist. simpl. rewrite Hh1, Hclean.
        simpl. rewrite <- app_assoc. simpl.
        unfold bind at 1. cbv beta. rewrite Hsearch. reflexivity.
      - unfold download_lastfm_pl, try_except. unfold_m.
        rewrite Hget. simpl. rewrite Hlist. simpl. rewrite Hh1, Hclean.
        simpl. rewrite <- app_assoc. simpl.
        unfold bind at 1. cbv beta. rewrite Hsearch. reflexivity. }
    split; intros ->; exact Hrun.
Qed.

End Lastfm_more.

(** X12, witness: one track, no heading. *)
Lemma lastfm_import_aborts_without_heading_or_hit_witness :
  let soup := {| page_artists := ["A"]; page_titles := ["T"];
                 page_h1 := None |} in
  fst (download_lastfm_pl Sim.env Sim.self "https://www.last.fm/x"
         (Sim.start (Sim.with_page soup Sim.quiet) None))
  = Raise AttributeError.
Proof.
  intros soup.
  destruct (lastfm_import_aborts_without_heading_or_hit Sim.env Sim.self
              "https://www.last.fm/x" "A T" []
              (Sim.start (Sim.with_page soup Sim.quiet) None) soup
              (Sim.with_page soup Sim.quiet) eq_refl eq_refl) as [Hnone _].
  rewrite (Hnone eq_refl). reflexivity.
Defined.

(** ** The members of a container *)

(** The id whose download or skip an event reports. *)
Definition handled (ev : event) : option string :=
  match ev with
  | EvDownload i _ _ | EvLog (AlreadyDownloaded i) => Some i
  | _ => None
  end.

(** [item["id"]], as [handle_url] hands it to [download_from_id]. *)
Definition member_id (item : value) : result string :=
  do v <- getitem item "id"; id_of_value v.

Section Members.

Context {World : Type}.
Variable env : collab World.
Variable self : config.

(** The downloader raises nothing but what [download_from_id] catches. *)
Definition transfers_fail_softly (path : string) (album : bool) : Prop :=
  forall i w e,
    fst (download_id_by_type env self i path album w) = Raise e ->
    is_request_or_non_streamable e = true.

Lemma download_from_id_handled i album path (st : state World) :
  path <> "" ->
  transfers_fail_softly path album ->
  exists evs,
    download_from_id env self i album (Some path) st
    = (Ok tt, snd (download_from_id env self i album (Some path) st)) /\
    trace (snd (download_from_id env self i album (Some path) st))
    = trace st ++ evs /\
    omap handled evs = [i].
Proof.
  intros Hpath Hsoft.
  assert (Hp : path_or_directory self (Some path) = path).
  { simpl. apply String.eqb_neq in Hpath. rewrite Hpath. reflexivity. }
  destruct (ledger_has_dec st i) as [Hi | Hi].
  - rewrite download_from_id_known by assumption. simpl.
    eexists. split; [reflexivity |]. split; reflexivity.
  - rewrite download_from_id_new by assumption. cbv zeta. rewrite Hp.
    pose proof (Hsoft i (world st)) as Hs.
    destruct (download_id_by_type env self i path album (world st))
      as [[u | e] w]; simpl in *.
    + eexists. split; [reflexivity |].
      split; [rewrite <- app_assoc; reflexivity |].
      destruct (downloads_db st); reflexivity.
    + rewrite (Hs e eq_refl). simpl.
      eexists. split; [reflexivity |].
      split; [rewrite <- app_assoc; reflexivity | reflexivity].
Qed.

Lemma members_loop members : forall ids album path (st : state World),
  path <> "" ->
  transfers_fail_softly path album ->
  map_result member_id members = Ok ids ->
  let run := for_each members
               (fun item =>
                  item_id <- lift (do v <- getitem item "id"; id_of_value v) ;;
                  download_from_id env self item_id album (Some path)) st in
  fst run = Ok tt /\
  exists evs, trace (snd run) = trace st ++ evs /\ omap handled evs = ids.
Proof.
  induction members as [| item members IH]; intros ids album path st Hpath Hsoft
    Hids run; subst run.
  - simpl in Hids. injection Hids as <-. simpl. split; [reflexivity |].
    exists []. rewrite app_nil_r. split; reflexivity.
  - simpl in Hids. fold (member_id item) in *.
    destruct (member_id item) as [i |] eqn:Ei; [| discriminate Hids].
    simpl in Hids.
    destruct (map_result member_id members) as [ids' |] eqn:Erest;
      [| discriminate Hids].
    simpl in Hids. injection Hids as <-.
    destruct (download_from_id_handled i album path st Hpath Hsoft)
      as [evs1 [Hrun [Ht1 Hh1]]].
    remember (snd (download_from_id env self i album (Some path) st)) as st1
      eqn:Est1.
    assert (Hstep :
      for_each (item :: members)
        (fun item =>
           item_id <- lift (do v <- getitem item "id"; id_of_value v) ;;
           download_from_id env self item_id album (Some path)) st
      = for_each members
          (fun item =>
             item_id <- lift (do v <- getitem item "id"; id_of_value v) ;;
             download_from_id env self item_id album (Some path)) st1).
    { simpl for_each. unfold bind at 1. unfold bind at 1, lift at 1.
      unfold member_id in Ei. rewrite Ei, Hrun. reflexivity. }
    rewrite Hstep.
    destruct (IH ids' album path st1 Hpath Hsoft eq_refl)
      as [Hok [evs2 [Ht2 Hh2]]].
    split; [exact Hok |].
    exists (evs1 ++ evs2). split.
    + rewrite Ht2, Ht1, app_assoc. reflexivity.
    + rewrite omap_app, Hh1, Hh2. reflexivity.
Qed.

End Members.

Section Run_steps.

Context {World : Type}.

Lemma bind_ok {A B} (m : M World A) (f : A -> M World B) st a st' :
  m st = (Ok a, st') -> bind m f st = f a st'.
Proof. intros H. unfold bind. rewrite H. reflexivity. Qed.

Lemma bind_raised {A B} (m : M World A) (f : A -> M World B) st e st' :
  m st = (Raise e, st') -> bind m f st = (Raise e, st').
Proof. intros H. unfold bind. rewrite H. reflexivity. Qed.

Lemma call_run {A} (g : World -> result A * World) (st : state World) r w :
  g (world st) = (r, w) ->
  call g st = (r, {| world := w; downloads_db := downloads_db st;
                     trace := trace st |}).
Proof. intros H. unfold call. rewrite H. reflexivity. Qed.

Lemma lift_run {A} (r r' : result A) (st : state World) :
  r = r' -> lift r st = (r', st).
Proof. intros ->. reflexivity. Qed.

Lemma create_dir_run (env : collab World) d (st : state World) w :
  makedirs env (PosixPath.normpath d) (world st) = (Ok tt, w) ->
  create_dir env d st =
  (Ok (PosixPath.normpath d),
   {| world := w; downloads_db := downloads_db st;
      trace := trace st ++ [EvMakedirs (PosixPath.normpath d)] |}).
Proof.
  intros H. unfold create_dir.
  erewrite bind_ok; [| reflexivity].
  erewrite bind_ok; [| apply call_run; simpl; exact H].
  reflexivity.
Qed.

End Run_steps.

Lemma normpath_not_empty path : PosixPath.normpath path <> "".
Proof.
  unfold PosixPath.normpath.
  destruct (String.eqb path ""); [discriminate |].
  match goal with
  | |- (if String.eqb ?p "" then _ else _) <> _ =>
      destruct (String.eqb p "") eqn:E
  end; [discriminate |].
  apply String.eqb_neq. exact E.
Qed.

Section Members_of_container.

Context {World : Type}.
Variable env : collab World.
Variable self : config.

(** [make_m3u] adds nothing but the write of the playlist. *)
Lemma make_m3u_only_writes d (st : state World) :
  exists evs, trace (snd (make_m3u env self d st)) = trace st ++ evs /\
              omap handled evs = [].
Proof.
  unfold make_m3u. destruct (no_m3u_for_playlists self).
  - exists []. simpl. rewrite app_nil_r. split; reflexivity.
  - unfold bind, ask. simpl.
    destruct (m3u_items env (world st) d) as [| i items]; simpl.
    + exists []. rewrite app_nil_r. split; reflexivity.
    + unfold call. simpl.
      destruct (write_text env _ _ (world st)) as [r w]. simpl.
      eexists. split; reflexivity.
Qed.

(** X13. The members of a container are handled once each, in the order
    of the catalog's answer: when the downloader fails only in the ways
    [download_from_id] catches, the ids that [handle_url] downloads or
    skips are exactly the ids of the member list, in order, so a member
    whose transfer fails does not stop those after it; and for an artist
    or a label [handle_url] returns normally. *)
Theorem container_members_handled_in_order
    (url url_type item_id key : string) (td : type_dict) (func : meta_func)
    (content members : list value) (name : value) (clean : string)
    (ids : list string) (st : state World) (w1 w2 : World) :
  handle_url_try url = Ok (url_type, td, item_id) ->
  td_func td = Some func ->
  td_iterable_key td = Some key ->
  client_meta env func item_id (world st) = (Ok content, w1) ->
  (do c <- Py.index content 0; getitem c "name") = Ok name ->
  sanitize_filename env name = Ok clean ->
  makedirs env (container_path self clean) w1 = (Ok tt, w2) ->
  container_items key content = Ok (VList members) ->
  map_result member_id members = Ok ids ->
  transfers_fail_softly env self (container_path self clean)
    (String.eqb key "albums") ->
  let run := handle_url env self url st in
  omap handled (new_events st (snd run)) = ids /\
  (url_type <> "playlist" -> fst run = Ok tt).
Proof.
  intros Hurl Hfunc Hkey Hmeta Hname Hclean Hmk Hitems Hids Hsoft run.
  set (s0 := resolved st w2 func item_id name url_type
               (container_path self clean)
               [EvLog (DownloadsInQueue (length members))]).
  destruct (members_loop env self members ids (String.eqb key "albums")
              (container_path self clean) s0
              (normpath_not_empty _) Hsoft Hids) as [Hok [evs [Ht Hh]]].
  assert (Hrun : run =
            match for_each members
                    (fun item =>
                       item_id <- lift (do v <- getitem item "id";
                                        id_of_value v) ;;
                       download_from_id env self item_id
                         (String.eqb key "albums")
                         (Some (container_path self clean))) s0 with
            | (Ok _, s1) =>
                (if String.eqb url_type "playlist"
                 then make_m3u env self (container_path self clean)
                 else ret tt) s1
            | (Raise e, s1) => (Raise e, s1)
            end).
  { subst run. unfold handle_url. rewrite Hurl, Hfunc.
    erewrite bind_ok; [| reflexivity].
    erewrite bind_ok; [| apply call_run; simpl; exact Hmeta].
    erewrite bind_ok; [| apply lift_run; exact Hname].
    erewrite bind_ok; [| reflexivity].
    erewrite bind_ok; [| apply lift_run; exact Hclean].
    erewrite bind_ok; [| apply create_dir_run; simpl; exact Hmk].
    fold (container_path self clean).
    erewrite bind_ok; [| apply lift_run; rewrite Hkey; reflexivity].
    erewrite bind_ok; [| apply lift_run; exact Hitems].
    erewrite bind_ok; [| reflexivity].
    erewrite bind_ok; [| reflexivity].
    erewrite bind_ok; [| reflexivity].
    unfold bind at 1. unfold s0, resolved. simpl.
    rewrite <- !app_assoc. reflexivity. }
  assert (Hpre : trace s0 = trace st
                 ++ [EvMeta func item_id; EvLog (DownloadingAll name url_type);
                     EvMakedirs (container_path self clean);
                     EvLog (DownloadsInQueue (length members))]).
  { reflexivity. }
  clearbody run s0. subst run.
  destruct (for_each members _ s0) as [r s1]. simpl in Hok, Ht. subst r.
  destruct (String.eqb url_type "playlist") eqn:Epl.
  - destruct (make_m3u_only_writes (container_path self clean) s1)
      as [evs2 [Ht2 Hh2]].
    split.
    + unfold new_events. rewrite Ht2, Ht, Hpre, <- !app_assoc, drop_app_length.
      simpl. rewrite omap_app, Hh, Hh2, app_nil_r. reflexivity.
    + intros Hne. apply String.eqb_neq in Hne. congruence.
  - simpl. split; [| reflexivity].
    unfold new_events. rewrite Ht, Hpre, <- !app_assoc, drop_app_length.
    simpl. exact Hh.
Qed.

End Members_of_container.

(** The scripted collaborators, with a downloader that fails on the id
    "a1" with a network error and succeeds on every other id. *)
Definition flaky_env : collab Sim.script :=
  {| download_id_by_type := fun _ item_id _ _ w =>
       (if String.eqb item_id "a1" then Raise RequestException else Ok tt, w);
     client_meta := client_meta Sim.env;
     client_search := client_search Sim.env;
     requests_get := requests_get Sim.env;
     isfile := isfile Sim.env;
     open_lines := open_lines Sim.env;
     makedirs := makedirs Sim.env;
     fs_tree := fs_tree Sim.env;
     getcwd := getcwd Sim.env;
     now := now Sim.env;
     open_audio := open_audio Sim.env;
     write_text := write_text Sim.env;
     sanitize_filename := sanitize_filename Sim.env;
     py_format := py_format Sim.env |}.

(** Artist 42 with the albums "a1" and "a2". *)
Definition two_albums : list value :=
  [Sim.dict [("name", VStr "X");
             ("albums",
              Sim.dict [("items", VList [Sim.dict [("id", VStr "a1")];
                                         Sim.dict [("id", VStr "a2")]])])]].

(** X13, witness: the first album fails, the second is still downloaded. *)
Lemma container_members_handled_in_order_witness :
  let st := Sim.start (Sim.with_artist "42" two_albums Sim.quiet) (Some []) in
  let run := handle_url flaky_env Sim.self "https://play.qobuz.com/artist/42" st in
  omap handled (new_events st (snd run)) = ["a1"; "a2"] /\
  elements (default ∅ (downloads_db (snd run))) = ["a2"].
Proof.
  intros st run. split.
  - refine (proj1 (container_members_handled_in_order flaky_env Sim.self
              "https://play.qobuz.com/artist/42" "artist" "42" "albums"
              {| td_album := None; td_func := Some get_artist_meta;
                 td_iterable_key := Some "albums" |}
              get_artist_meta two_albums
              [Sim.dict [("id", VStr "a1")]; Sim.dict [("id", VStr "a2")]]
              (VStr "X") "X" ["a1"; "a2"] st
              (Sim.with_artist "42" two_albums Sim.quiet)
              (Sim.with_artist "42" two_albums Sim.quiet)
              _ eq_refl eq_refl _ _ eq_refl _ _ _ _)).
    + vm_compute. reflexivity.
    + vm_compute. reflexivity.
    + vm_compute. reflexivity.
    + vm_compute. reflexivity.
    + vm_compute. reflexivity.
    + vm_compute. reflexivity.
    + intros i w e. simpl. destruct (String.eqb i "a1"); [| discriminate].
      intros [= <-]. reflexivity.
  - vm_compute. reflexivity.
Defined.

(** ** The walk of [make_m3u] *)

From Stdlib Require Import Sorted Permutation.

(** The number of directories of a tree, the top included. *)
Fixpoint tree_size (t : dirtree) : nat :=
  match t with
  | Dir _ subdirs => S (list_sum (map (fun d => tree_size (snd d)) subdirs))
  end.

(** Induction on a tree, with the property known of every sub-directory. *)
Fixpoint dirtree_forall_ind (P : dirtree -> Prop)
    (H : forall files subdirs,
           Forall (fun d => P (snd d)) subdirs -> P (Dir files subdirs))
    (t : dirtree) : P t :=
  match t with
  | Dir files subdirs =>
      H files subdirs
        ((fix go (l : list (string * dirtree))
            : Forall (fun d => P (snd d)) l :=
            match l with
            | [] => @List.Forall_nil _ _
            | d :: l' =>
                @List.Forall_cons _ _ d l' (dirtree_forall_ind P H (snd d))
                                  (go l')
            end) subdirs)
  end.

Definition name_le {A} (x y : string * A) : Prop :=
  String.leb (fst x) (fst y) = true.

Lemma insert_by_name_perm {A} (x : string * A) l :
  Permutation (insert_by_name x l) (x :: l).
Proof.
  induction l as [| y l IH]; simpl; [reflexivity |].
  destruct (String.leb (fst x) (fst y)); [reflexivity |].
  rewrite IH. apply perm_swap.
Qed.

Lemma sort_by_name_perm {A} (l : list (string * A)) :
  Permutation (sort_by_name l) l.
Proof.
  induction l as [| x l IH]; simpl; [reflexivity |].
  rewrite insert_by_name_perm, IH. reflexivity.
Qed.

Lemma insert_by_name_sorted {A} (x : string * A) l :
  Sorted name_le l -> Sorted name_le (insert_by_name x l).
Proof.
  induction l as [| y l IH]; intros Hs; simpl.
  - repeat constructor.
  - destruct (String.leb (fst x) (fst y)) eqn:E.
    + constructor; [exact Hs | constructor; exact E].
    + inversion Hs as [| ? ? Hl Hhd]; subst.
      constructor; [apply IH; exact Hl |].
      assert (Hyx : name_le y x).
      { destruct (String.leb_total (fst x) (fst y)) as [H | H];
          [congruence | exact H]. }
      destruct l as [| z l]; simpl.
      * constructor. exact Hyx.
      * destruct (String.leb (fst x) (fst z)); constructor;
          [exact Hyx | inversion Hhd; assumption].
Qed.

Lemma sort_by_name_sorted {A} (l : list (string * A)) :
  Sorted name_le (sort_by_name l).
Proof.
  induction l as [| x l IH]; simpl; [constructor |].
  apply insert_by_name_sorted. exact IH.
Qed.

Lemma sorted_names {A} (l : list (string * A)) :
  Sorted name_le l ->
  Sorted (fun a b => String.leb a b = true) (map fst l).
Proof.
  induction 1 as [| x l Hl IH Hhd]; simpl; constructor; [exact IH |].
  destruct Hhd; simpl; constructor. assumption.
Qed.

(** [reaches top t p t']: in the tree [t] at the path [top], the
    directory [t'] is found at the path [p], which is [top] followed by
    the names of the directories on the way. *)
Inductive reaches : string -> dirtree -> string -> dirtree -> Prop :=
| reaches_top top t : reaches top t top t
| reaches_sub top files subdirs d sub p t' :
    In (d, sub) subdirs ->
    reaches (PosixPath.join top d) sub p t' ->
    reaches top (Dir files subdirs) p t'.

(** The names the loop receives for the sub-directories of a directory. *)
Lemma os_walk_dirs top files subdirs :
  exists dirs rest,
    os_walk top (Dir files subdirs) = (top, dirs, files) :: rest /\
    Sorted (fun a b => String.leb a b = true) dirs /\
    Permutation dirs (map fst subdirs).
Proof.
  simpl. eexists _, _. split; [reflexivity |]. split.
  - apply sorted_names. apply sort_by_name_sorted.
  - rewrite (Permutation_map _ (sort_by_name_perm _)).
    rewrite map_map. simpl. reflexivity.
Qed.

(** X14. [os.walk] with the sort of [make_m3u].  The first directory
    handed to the loop is the playlist directory itself.  What the loop
    receives are the directories of the tree, each under the path that
    leads to it, with its files as the system listed them and the names
    of its sub-directories in sorted order (the same names, none lost);
    every directory of the tree is received, and the number of turns is
    the number of directories, so each is received once. *)
Theorem os_walk_visits_every_directory_once (top : string) (t : dirtree) :
  length (os_walk top t) = tree_size t /\
  (forall p dirs files,
     In (p, dirs, files) (os_walk top t) ->
     exists subdirs,
       reaches top t p (Dir files subdirs) /\
       Sorted (fun a b => String.leb a b = true) dirs /\
       Permutation dirs (map fst subdirs)) /\
  (forall p files subdirs,
     reaches top t p (Dir files subdirs) ->
     exists dirs, In (p, dirs, files) (os_walk top t)) /\
  match t with
  | Dir files subdirs =>
      exists dirs rest,
        os_walk top t = (top, dirs, files) :: rest /\
        Sorted (fun a b => String.leb a b = true) dirs /\
        Permutation dirs (map fst subdirs)
  end.
Proof.
  split; [| split; [| split]].
  - revert top. induction t as [files subdirs IH] using dirtree_forall_ind.
    intros top. simpl. f_equal.
    rewrite length_concat.
    rewrite (Permutation_map _ (Permutation_map _ (sort_by_name_perm _))).
    rewrite !map_map. simpl.
    induction IH as [| d l Hd _ IHl]; simpl; [reflexivity |].
    rewrite Hd, IHl. reflexivity.
  - revert top. induction t as [files subdirs IH] using dirtree_forall_ind.
    intros top p dirs files' Hin.
    apply in_os_walk in Hin as [[Hp [Hf Hhd]] | [d [sub [Hd Hin]]]].
    + cbn [fst snd] in Hp, Hf. subst p files'.
      destruct (os_walk_dirs top files subdirs)
        as [dirs' [rest [Hwalk [Hsorted Hperm]]]].
      rewrite Hwalk in Hhd. injection Hhd as <-.
      exists subdirs. split; [apply reaches_top |].
      split; [exact Hsorted | exact Hperm].
    + pose proof (proj1 (List.Forall_forall _ _) IH (d, sub) Hd) as IHsub.
      destruct (IHsub _ _ _ _ Hin) as [subdirs' [Hreach Hrest]].
      exists subdirs'. split; [| exact Hrest].
      exact (reaches_sub top files subdirs d sub p _ Hd Hreach).
  - intros p files subdirs Hreach.
    remember (Dir files subdirs) as t' eqn:Et'.
    induction Hreach as [top t | top files0 subdirs0 d sub p t' Hd Hreach IH].
    + subst t.
      destruct (os_walk_dirs top files subdirs) as [dirs [rest [Hwalk _]]].
      exists dirs. rewrite Hwalk. left. reflexivity.
    + destruct (IH Et') as [dirs Hin].
      exists dirs. apply in_os_walk. right. exists d, sub.
      split; [exact Hd | exact Hin].
  - destruct t as [files subdirs]. apply os_walk_dirs.
Qed.

(** * The configuration ([qobuz_dl_rewrite/config.py]) *)

Module Config.

(** A Python dict with string keys, in insertion order. *)
Definition dict := list (string * value).

(** [d[key]] *)
Fixpoint get (key : string) (d : dict) : result value :=
  match d with
  | [] => Raise KeyError
  | (k, v) :: d' => if String.eqb k key then Ok v else get key d'
  end.

(** [d[key] = v]: the entry is replaced where it stands, or added at the
    end. *)
Fixpoint set (key : string) (v : value) (d : dict) : dict :=
  match d with
  | [] => [(key, v)]
  | (k, v0) :: d' =>
      if String.eqb k key then (k, v) :: d' else (k, v0) :: set key v d'
  end.

Definition keys (d : dict) : list string := map fst d.

(** The public attributes of a [Config]. *)
Record t : Type := {
  qobuz : dict;
  tidal : dict;
  deezer : dict;
  downloads_database : value;
  filters : dict;
  downloads : dict;
  metadata : dict;
  path_format : dict
}.

(** [Config.__init__]; the two formats come from [constants.py], which is
    not among the sources. *)
Definition init (FOLDER_FORMAT TRACK_FORMAT : string) : t :=
  {| qobuz := [("enabled", VBool true); ("email", VNone); ("password", VNone);
               ("app_id", VStr ""); ("secrets", VStr "")];
     tidal := [("enabled", VBool true); ("email", VNone); ("password", VNone)];
     deezer := [("enabled", VBool true)];
     downloads_database := VNone;
     filters := [("smart_discography", VBool false);
                 ("albums_only", VBool false)];
     downloads := [("folder", VStr "Downloads"); ("quality", VInt 6)];
     metadata := [("embed_cover", VBool false); ("large_cover", VBool false);
                  ("default_comment", VNone);
                  ("remove_extra_tags", VBool false)];
     path_format := [("folder", VStr FOLDER_FORMAT);
                     ("track", VStr TRACK_FORMAT)] |}.

Definition is_none (v : value) : bool :=
  match v with
  | VNone => true
  | _ => false
  end.

(** The inner loop of [update_from_cli] over the keys of one category.
    The category is changed in place, so what was changed before an
    exception stays changed. *)
Fixpoint update_keys (kwargs : gmap string value) (ks : list string)
    (category : dict) : result unit * dict :=
  match ks with
  | [] => (Ok tt, category)
  | key :: ks' =>
      match kwargs !! key with
      | None => (Raise KeyError, category)
      | Some arg =>
          if is_none arg then update_keys kwargs ks' category
          else
            match get key category with
            | Raise e => (Raise e, category)
            | Ok og_value =>
                let new_value := if truthy arg then arg else og_value in
                update_keys kwargs ks' (set key new_value category)
            end
      end
  end.

Definition update_category (kwargs : gmap string value) (category : dict)
  : result unit * dict :=
  update_keys kwargs (keys category) category.

(** [Config.update_from_cli], called with keyword arguments [kwargs] *)
Definition update_from_cli (kwargs : gmap string value) (self : t)
  : result unit * t :=
  let (r1, downloads') := update_category kwargs (downloads self) in
  let self1 := {| qobuz := qobuz self; tidal := tidal self;
                  deezer := deezer self;
                  downloads_database := downloads_database self;
                  filters := filters self; downloads := downloads';
                  metadata := metadata self;
                  path_format := path_format self |} in
  match r1 with
  | Raise e => (Raise e, self1)
  | Ok _ =>
      let (r2, metadata') := update_category kwargs (metadata self) in
      let self2 := {| qobuz := qobuz self; tidal := tidal self;
                      deezer := deezer self;
                      downloads_database := downloads_database self;
                      filters := filters self; downloads := downloads';
                      metadata := metadata';
                      path_format := path_format self |} in
      match r2 with
      | Raise e => (Raise e, self2)
      | Ok _ =>
          let (r3, filters') := update_category kwargs (filters self) in
          (r3, {| qobuz := qobuz self; tidal := tidal self;
                  deezer := deezer self;
                  downloads_database := downloads_database self;
                  filters := filters'; downloads := downloads';
                  metadata := metadata';
                  path_format := path_format self |})
      end
  end.

(** [s.split(",")] of a value: only a string has the method. *)
Definition split_commas (v : value) : result value :=
  match v with
  | VStr s => Ok (VList (map VStr (Py.split "," s)))
  | _ => Raise AttributeError
  end.

(** The property [tidal_creds] *)
Definition tidal_creds (self : t) : result dict :=
  do email <- get "email" (tidal self);
  do pwd <- get "password" (tidal self);
  Ok [("email", email); ("pwd", pwd)].

(** The property [qobuz_creds] *)
Definition qobuz_creds (self : t) : result dict :=
  do email <- get "email" (qobuz self);
  do pwd <- get "password" (qobuz self);
  do app_id <- get "app_id" (qobuz self);
  do secrets <- (do s <- get "secrets" (qobuz self); split_commas s);
  Ok [("email", email); ("pwd", pwd); ("app_id", app_id);
      ("secrets", secrets)].

(** [Config.creds(source)] *)
Definition creds (self : t) (source : string) : result dict :=
  if String.eqb source "qobuz" then qobuz_creds self
  else if String.eqb source "tidal" then tidal_creds self
  else if String.eqb source "deezer" then Ok []
  else Raise (OtherException "InvalidSourceError").

End Config.

Module Config_facts.
Import Config.

(** What [update_from_cli] leaves under a key that held [old]: the
    argument when it is truthy, the old value otherwise. *)
Definition wanted (kwargs : gmap string value) (key : string) (old : value)
  : value :=
  match kwargs !! key with
  | Some arg => if truthy arg then arg else old
  | None => old
  end.

(** [category'] is [category] updated from [kwargs]. *)
Definition updated (kwargs : gmap string value) (category category' : dict)
  : Prop :=
  keys category' = keys category /\
  forall key old,
    get key category = Ok old ->
    get key category' = Ok (wanted kwargs key old).

Lemma get_set key v d k :
  get k (set key v d) = if String.eqb key k then Ok v else get k d.
Proof.
  induction d as [| [k0 v0] d IH]; simpl.
  - reflexivity.
  - destruct (String.eqb k0 key) eqn:E0; simpl.
    + apply String.eqb_eq in E0. subst k0.
      destruct (String.eqb key k); reflexivity.
    + rewrite IH. destruct (String.eqb k0 k) eqn:E1; [| reflexivity].
      apply String.eqb_eq in E1. subst k0. rewrite String.eqb_sym, E0.
      reflexivity.
Qed.

Lemma keys_set key v d old :
  get key d = Ok old -> keys (set key v d) = keys d.
Proof.
  induction d as [| [k0 v0] d IH]; simpl; [discriminate |].
  destruct (String.eqb k0 key); simpl; [reflexivity |].
  intros H. f_equal. exact (IH H).
Qed.

Lemma get_in_keys key d : In key (keys d) -> exists v, get key d = Ok v.
Proof.
  induction d as [| [k0 v0] d IH]; simpl; [intros [] |].
  destruct (String.eqb k0 key) eqn:E; [eauto |].
  intros [-> | H]; [rewrite String.eqb_refl in E; discriminate | exact (IH H)].
Qed.

Lemma wanted_idem kwargs key old :
  wanted kwargs key (wanted kwargs key old) = wanted kwargs key old.
Proof.
  unfold wanted. destruct (kwargs !! key) as [arg |]; [| reflexivity].
  destruct (truthy arg); reflexivity.
Qed.

Lemma update_keys_spec kwargs ks : forall category,
  (forall k, In k ks -> kwargs !! k <> None) ->
  (forall k, In k ks -> exists v, get k category = Ok v) ->
  fst (update_keys kwargs ks category) = Ok tt /\
  keys (snd (update_keys kwargs ks category)) = keys category /\
  forall k old,
    get k category = Ok old ->
    get k (snd (update_keys kwargs ks category))
    = Ok (if in_list k ks then wanted kwargs k old else old).
Proof.
  induction ks as [| key ks IH]; intros category Hargs Hkeys.
  - simpl. auto.
  - simpl update_keys.
    destruct (kwargs !! key) as [arg |] eqn:Earg;
      [| exfalso; exact (Hargs key (or_introl eq_refl) Earg)].
    assert (Hargs' : forall k, In k ks -> kwargs !! k <> None)
      by (intros k Hk; apply Hargs; right; exact Hk).
    destruct (Hkeys key (or_introl eq_refl)) as [og Hog].
    destruct (is_none arg) eqn:Enone.
    + destruct (IH category Hargs' (fun k Hk => Hkeys k (or_intror Hk)))
        as [Hok [Hk Hget]].
      split; [exact Hok |]. split; [exact Hk |].
      intros k old Hold. rewrite (Hget k old Hold).
      unfold in_list. simpl. fold (in_list k ks).
      destruct (String.eqb k key) eqn:Ek; [| reflexivity].
      apply String.eqb_eq in Ek. subst k. simpl.
      assert (Hw : wanted kwargs key old = old).
      { unfold wanted. rewrite Earg. destruct arg; try discriminate Enone.
        reflexivity. }
      rewrite Hw. destruct (in_list key ks); reflexivity.
    + rewrite Hog.
      set (new_value := if truthy arg then arg else og).
      assert (Hnew : new_value = wanted kwargs key og).
      { unfold wanted. rewrite Earg. reflexivity. }
      assert (Hkeys1 : forall k, In k ks ->
                exists v, get k (set key new_value category) = Ok v).
      { intros k Hk. rewrite get_set.
        destruct (String.eqb key k); [eauto |].
        apply Hkeys. right. exact Hk. }
      destruct (IH (set key new_value category) Hargs' Hkeys1)
        as [Hok [Hk Hget]].
      split; [exact Hok |].
      split; [rewrite Hk; apply (keys_set _ _ _ og Hog) |].
      intros k old Hold.
      unfold in_list. simpl. fold (in_list k ks).
      destruct (String.eqb k key) eqn:Ek; simpl.
      * apply String.eqb_eq in Ek. subst k.
        assert (og = old) by congruence. subst og.
        rewrite (Hget key new_value)
          by (rewrite get_set, String.eqb_refl; reflexivity).
        rewrite Hnew, wanted_idem.
        destruct (in_list key ks); reflexivity.
      * rewrite (Hget k old); [reflexivity |].
        rewrite get_set, String.eqb_sym, Ek. exact Hold.
Qed.

Lemma update_category_spec kwargs category :
  (forall k, In k (keys category) -> kwargs !! k <> None) ->
  exists category',
    update_category kwargs category = (Ok tt, category') /\
    updated kwargs category category'.
Proof.
  intros Hargs. unfold update_category.
  destruct (update_keys_spec kwargs (keys category) category Hargs
              (fun k Hk => get_in_keys k category Hk)) as [Hok [Hk Hget]].
  destruct (update_keys kwargs (keys category) category) as [r category'].
  simpl in *. subst r. exists category'. split; [reflexivity |].
  split; [exact Hk |].
  intros key old Hold. rewrite (Hget key old Hold).
  replace (in_list key (keys category)) with true; [reflexivity |].
  symmetry. unfold in_list. apply existsb_exists. exists key.
  split; [| apply String.eqb_refl].
  clear - Hold. induction category as [| [k0 v0] d IH]; simpl in *;
    [discriminate |].
  destruct (String.eqb k0 key) eqn:E.
  - left. apply String.eqb_eq. exact E.
  - right. exact (IH Hold).
Qed.

End Config_facts.

(** X15. Merging the command line into the configuration: when every
    option of the three categories is among the arguments,
    [update_from_cli] returns normally, keeps the keys of the downloads,
    metadata and filters categories and every other attribute, and puts
    under each key the argument if it is truthy and the configured value
    otherwise.  So an argument that is [None], [False], 0 or empty
    never overrides what the configuration holds. *)
Theorem update_from_cli_overrides_with_truthy_only
    (kwargs : gmap string value) (self : Config.t) :
  (forall key,
     In key (Config.keys (Config.downloads self)
             ++ Config.keys (Config.metadata self)
             ++ Config.keys (Config.filters self)) ->
     kwargs !! key <> None) ->
  exists self',
    Config.update_from_cli kwargs self = (Ok tt, self') /\
    Config_facts.updated kwargs (Config.downloads self) (Config.downloads self') /\
    Config_facts.updated kwargs (Config.metadata self) (Config.metadata self') /\
    Config_facts.updated kwargs (Config.filters self) (Config.filters self') /\
    Config.qobuz self' = Config.qobuz self /\
    Config.tidal self' = Config.tidal self /\
    Config.deezer self' = Config.deezer self /\
    Config.downloads_database self' = Config.downloads_database self /\
    Config.path_format self' = Config.path_format self /\
    (forall key arg old,
       kwargs !! key = Some arg -> truthy arg = false ->
       Config_facts.wanted kwargs key old = old).
Proof.
  intros Hargs.
  destruct (Config_facts.update_category_spec kwargs (Config.downloads self))
    as [d' [Hd Hud]].
  { intros k Hk. apply Hargs. apply in_or_app. left. exact Hk. }
  destruct (Config_facts.update_category_spec kwargs (Config.metadata self))
    as [m' [Hm Hum]].
  { intros k Hk. apply Hargs. apply in_or_app. right.
    apply in_or_app. left. exact Hk. }
  destruct (Config_facts.update_category_spec kwargs (Config.filters self))
    as [f' [Hf Huf]].
  { intros k Hk. apply Hargs. apply in_or_app. right.
    apply in_or_app. right. exact Hk. }
  eexists. split.
  - unfold Config.update_from_cli. rewrite Hd, Hm, Hf. reflexivity.
  - simpl. repeat (split; [assumption || reflexivity |]).
    intros key arg old Hk Hfalse. unfold Config_facts.wanted.
    rewrite Hk, Hfalse. reflexivity.
Qed.

(** Arguments as the command line passes them: every option is present;
    here the quality is given, the folder is empty, the rest is unset. *)
Definition cli_args : gmap string value :=
  list_to_map
    [("folder", VStr ""); ("quality", VInt 7);
     ("embed_cover", VBool false); ("large_cover", VNone);
     ("default_comment", VNone); ("remove_extra_tags", VNone);
     ("smart_discography", VNone); ("albums_only", VBool true)].

(** X15, witness: the default configuration and [cli_args]. *)
Lemma update_from_cli_overrides_with_truthy_only_witness :
  exists self',
    Config.update_from_cli cli_args (Config.init "{artist}" "{title}")
    = (Ok tt, self') /\
    Config.get "quality" (Config.downloads self') = Ok (VInt 7) /\
    Config.get "folder" (Config.downloads self') = Ok (VStr "Downloads") /\
    Config.get "embed_cover" (Config.metadata self') = Ok (VBool false) /\
    Config.get "albums_only" (Config.filters self') = Ok (VBool true).
Proof.
  destruct (update_from_cli_overrides_with_truthy_only cli_args
              (Config.init "{artist}" "{title}"))
    as [self' [Hrun [[_ Hd] [[_ Hm] [[_ Hf] _]]]]].
  { intros key Hin. simpl in Hin.
    repeat (destruct Hin as [<- | Hin]; [vm_compute; discriminate |]).
    destruct Hin. }
  exists self'. split; [exact Hrun |].
  split; [| split; [| split]].
  - rewrite (Hd "quality" (VInt 6) eq_refl). vm_compute. reflexivity.
  - rewrite (Hd "folder" (VStr "Downloads") eq_refl). vm_compute. reflexivity.
  - rewrite (Hm "embed_cover" (VBool false) eq_refl). vm_compute. reflexivity.
  - rewrite (Hf "albums_only" (VBool false) eq_refl). vm_compute. reflexivity.
Defined.

(** *** Credentials *)

Lemma join_cons_cons sep x y l :
  Py.join sep (x :: y :: l) = x +:+ sep +:+ Py.join sep (y :: l).
Proof. reflexivity. Qed.

(** [sep.join(s.split(sep))] is [s]. *)
Lemma join_split (sep : ascii) (s : string) :
  Py.join (String sep "") (Py.split sep s) = s.
Proof.
  induction s as [| c s IH]; [reflexivity |].
  simpl Py.split.
  pose proof (Path_facts.split_not_nil sep s) as Hne.
  destruct (Py.split sep s) as [| h t] eqn:E; [contradiction |].
  destruct (Ascii.eqb c sep) eqn:Ec.
  - apply Ascii.eqb_eq in Ec. subst c.
    rewrite join_cons_cons, IH. reflexivity.
  - destruct t as [| y t].
    + simpl in *. rewrite IH. reflexivity.
    + rewrite join_cons_cons. rewrite join_cons_cons in IH.
      rewrite append_cons, IH. reflexivity.
Qed.

(** X16. The credentials of a source.  For "qobuz" with the four
    entries present and the secrets a string, [creds] returns them with
    the secrets split at the commas: the list is never empty, joined
    with commas it is the configured string again, and for the default
    empty string it is the list with one empty secret.  "deezer" has no
    credentials whatever the configuration, and any other source than
    the three raises [InvalidSourceError]. *)
Theorem creds_by_source (self : Config.t) (email pwd app_id : value)
    (secrets source : string) :
  Config.get "email" (Config.qobuz self) = Ok email ->
  Config.get "password" (Config.qobuz self) = Ok pwd ->
  Config.get "app_id" (Config.qobuz self) = Ok app_id ->
  Config.get "secrets" (Config.qobuz self) = Ok (VStr secrets) ->
  let parts := Py.split "," secrets in
  Config.creds self "qobuz"
  = Ok [("email", email); ("pwd", pwd); ("app_id", app_id);
        ("secrets", VList (map VStr parts))] /\
  parts <> [] /\ Py.join "," parts = secrets /\
  (secrets = "" -> parts = [""]) /\
  Config.creds self "deezer" = Ok [] /\
  (in_list source ["qobuz"; "tidal"; "deezer"] = false ->
   Config.creds self source = Raise (OtherException "InvalidSourceError")).
Proof.
  intros He Hp Ha Hs parts.
  split; [| split; [| split; [| split; [| split]]]].
  - unfold Config.creds, Config.qobuz_creds. simpl.
    rewrite He, Hp, Ha, Hs. reflexivity.
  - apply Path_facts.split_not_nil.
  - apply (join_split "," secrets).
  - intros ->. reflexivity.
  - reflexivity.
  - unfold in_list. simpl. intros H.
    repeat (apply orb_false_iff in H as [? H]).
    unfold Config.creds.
    repeat match goal with
           | H : String.eqb _ _ = false |- _ => rewrite H; clear H
           end.
    reflexivity.
Qed.

(** X16, witness: the default configuration. *)
Lemma creds_by_source_witness :
  Config.creds (Config.init "{artist}" "{title}") "qobuz"
  = Ok [("email", VNone); ("pwd", VNone); ("app_id", VStr "");
        ("secrets", VList [VStr ""])].
Proof.
  exact (proj1 (creds_by_source (Config.init "{artist}" "{title}")
                  VNone VNone (VStr "") "" "spotify"
                  eq_refl eq_refl eq_refl eq_refl)).
Defined.

(** ** More on the ledger, the audio files and the templates *)

Section Ledger_grows.

Context {World : Type}.
Variable env : collab World.
Variable self : config.

(** The ledger holds at least the ids of [ids]. *)
Definition holds_all (ids : gset string) (db : option (gset string)) : Prop :=
  exists ids', db = Some ids' /\ ids ⊆ ids'.

Lemma download_from_id_grows ids i album alt_path :
  obeys (World:=World) (holds_all ids) (fun _ => True)
        (download_from_id env self i album alt_path).
Proof.
  intros st [ids0 [Hdb Hsub]].
  destruct (ledger_has_dec st i) as [Hi | Hi].
  - rewrite download_from_id_known by assumption. simpl.
    eexists. split; [reflexivity |]. split; [exact I |].
    exists ids0. auto.
  - rewrite download_from_id_new by assumption. cbv zeta.
    destruct (download_id_by_type env self i (path_or_directory self alt_path)
                album (world st)) as [[u | e] w]; simpl.
    + eexists. split; [rewrite <- app_assoc; reflexivity |].
      split; [exact I |]. rewrite Hdb. simpl.
      exists ({[i]} ∪ ids0). split; [reflexivity |].
      apply union_subseteq_r'. exact Hsub.
    + destruct (is_request_or_non_streamable e); simpl.
      * eexists. split; [rewrite <- app_assoc; reflexivity |].
        split; [exact I |]. exists ids0. auto.
      * eexists. split; [reflexivity |]. split; [exact I |].
        exists ids0. auto.
Qed.

(** X17. A batch never forgets: with a configured ledger, whatever the
    references and whatever fails on the way, the ledger after
    [download_list_of_urls] still holds every id it held before. *)
Theorem batch_never_shrinks_ledger
    (depth : nat) (urls : option (list string)) (st : state World)
    (ids : gset string) :
  downloads_db st = Some ids ->
  exists ids',
    downloads_db (snd (download_list_of_urls env self depth urls st))
    = Some ids' /\ ids ⊆ ids'.
Proof.
  intros Hdb.
  destruct (obeys_download_list_of_urls (holds_all ids) (fun _ => True)
              I (fun _ _ _ _ => I) (fun _ _ => I) env self
              (download_from_id_grows ids) depth urls st)
    as [evs [_ [_ Hall]]].
  - exists ids. split; [exact Hdb | reflexivity].
  - exact Hall.
Qed.

End Ledger_grows.

(** X17, witness: a ledger with one id, one new album. *)
Lemma batch_never_shrinks_ledger_witness :
  exists ids',
    downloads_db (snd (download_list_of_urls Sim.env Sim.self 1
                         (Some ["https://play.qobuz.com/album/abc123"])
                         (Sim.start Sim.quiet (Some ["old"]))))
    = Some ids' /\ ({["old"]} : gset string) ⊆ ids'.
Proof.
  destruct (batch_never_shrinks_ledger Sim.env Sim.self 1
              (Some ["https://play.qobuz.com/album/abc123"])
              (Sim.start Sim.quiet (Some ["old"])) (list_to_set ["old"])
              eq_refl) as [ids' [Hdb Hsub]].
  exists ids'. split; [exact Hdb |].
  intros x Hx. apply Hsub. apply elem_of_list_to_set.
  apply elem_of_singleton in Hx. subst x. left.
Defined.

Section Search_type_error.

Context {World : Type}.
Variable env : collab World.

(** Indexing anything but a dict with a name raises [TypeError]. *)
Lemma getitem_not_dict (v : value) (k : string) :
  (forall d, v <> VDict d) -> getitem v k = Raise TypeError.
Proof.
  intros Hv. destruct v; try reflexivity.
  exfalso. exact (Hv d eq_refl).
Qed.

(** A template that starts with [{first[key]}] cannot be rendered when
    [first] is there and is not a dict: [PartialFormatter.get_field]
    lets the [TypeError] through. *)
Lemma vformat_nested_type_error self first key rest
    (kwargs : gmap string value) v :
  kwargs !! first = Some v ->
  (forall d, v <> VDict d) ->
  vformat (py_format env) self (fld_item first key :: rest) kwargs
  = Raise TypeError.
Proof.
  intros Hfirst Hv. unfold fld_item. cbn [vformat].
  unfold get_field, base_get_field. cbn [f_first f_items].
  rewrite Hfirst. cbn [rbind fold_left].
  rewrite (getitem_not_dict v key Hv). reflexivity.
Qed.

(** X18. The tolerance of the search has a limit.  When the first hit of
    an album search has an "artist" that is not an object (JSON null, a
    string, a number), or the first hit of a track search such a
    "performer", [search_by_type] raises [TypeError] to its caller: the
    catalog was asked once, no line is logged and no list is returned. *)
Theorem search_hit_with_unindexable_artist_raises
    (query item_type first : string) (limit : Z) (lucky : bool)
    (st : state World) (md : mode_dict) (results r : value) (w' : World)
    (hit : gmap string value) (more : list value) (v : value) :
  3 <= String.length query ->
  (item_type = "album" /\ first = "artist")
  \/ (item_type = "track" /\ first = "performer") ->
  search_possibles item_type = Ok md ->
  client_search env (md_func md) query limit (world st) = (Ok results, w') ->
  getitem results (md_key md) = Ok r ->
  getitem r "items" = Ok (VList (VDict hit :: more)) ->
  hit !! first = Some v ->
  (forall d, v <> VDict d) ->
  search_by_type env query item_type limit lucky st =
  (Raise TypeError,
   {| world := w'; downloads_db := downloads_db st;
      trace := trace st ++ [EvSearch (md_func md) query limit] |}).
Proof.
  intros Hlen Htype Hmd Hsearch Hkey Hitems Hfirst Hv.
  assert (Hrender :
            vformat (py_format env) PartialFormatter_default (md_format md) hit
            = Raise TypeError).
  { destruct Htype as [[-> ->] | [-> ->]];
      injection Hmd as <-; cbn [md_format];
      exact (vformat_nested_type_error _ _ _ _ _ _ Hfirst Hv). }
  unfold search_by_type.
  replace (String.length query <? 3) with false
    by (symmetry; apply Nat.ltb_ge; exact Hlen).
  unfold try_except.
  erewrite bind_ok; [| apply lift_run; exact Hmd].
  erewrite bind_ok; [| reflexivity].
  erewrite bind_ok; [| apply call_run; cbn [world]; exact Hsearch].
  erewrite bind_ok;
    [| apply lift_run; rewrite Hkey; cbn [rbind]; rewrite Hitems;
       reflexivity].
  erewrite bind_ok; [| reflexivity].
  erewrite bind_raised;
    [| apply lift_run; cbn [map_result world]; unfold search_item;
       cbn [rbind]; rewrite Hrender; reflexivity].
  reflexivity.
Qed.

End Search_type_error.

(** A track hit whose performer is null. *)
Definition hit_with_null_performer : list (string * value) :=
  [("id", VInt 7); ("title", VStr "T"); ("performer", VNone);
   ("duration", VInt 61); ("hires_streamable", VBool true)].

(** X18, witness: a track search whose only hit has a null performer. *)
Lemma search_hit_with_unindexable_artist_raises_witness :
  search_by_type Sim.env "abc" "track" 10 false
    (Sim.start (Sim.tracks_found hit_with_null_performer) None)
  = (Raise TypeError,
     {| world := Sim.tracks_found hit_with_null_performer;
        downloads_db := None;
        trace := [EvSearch search_tracks "abc" 10] |}).
Proof.
  assert (Hmd : exists md, search_possibles "track" = Ok md
                           /\ md_func md = search_tracks
                           /\ md_key md = "tracks").
  { eexists. split; [reflexivity |]. split; reflexivity. }
  destruct Hmd as [md [Hmd [Hfunc Hkey]]].
  rewrite <- Hfunc.
  apply (search_hit_with_unindexable_artist_raises Sim.env "abc" "track"
           "performer" 10 false
           (Sim.start (Sim.tracks_found hit_with_null_performer) None) md
           (Sim.dict [("tracks",
                       Sim.dict [("items",
                                  VList [Sim.dict hit_with_null_performer])])])
           (Sim.dict [("items", VList [Sim.dict hit_with_null_performer])])
           (Sim.tracks_found hit_with_null_performer)
           (list_to_map hit_with_null_performer) [] VNone).
  - simpl. lia.
  - right. split; reflexivity.
  - exact Hmd.
  - reflexivity.
  - rewrite Hkey. vm_compute. reflexivity.
  - vm_compute. reflexivity.
  - vm_compute. reflexivity.
  - intros d. discriminate.
Defined.

(** ** Which files [make_m3u] takes for audio *)

Module Ext_facts.
Import PosixPath.

Lemma rfind_app (c : ascii) (a b : string) :
  rfind c (a +:+ b) =
  match rfind c b with
  | Some i => Some (String.length a + i)
  | None => rfind c a
  end.
Proof.
  induction a as [| x a IH].
  - rewrite Url_facts.append_nil_l. destruct (rfind c b); reflexivity.
  - rewrite append_cons. cbn [rfind String.length]. rewrite IH.
    destruct (rfind c b); reflexivity.
Qed.

Lemma substring_all (s : string) : substring 0 (String.length s) s = s.
Proof.
  induction s as [| c s IH]; [reflexivity |].
  simpl. rewrite IH. reflexivity.
Qed.

Lemma substring_suffix (a b : string) :
  substring (String.length a) (String.length b) (a +:+ b) = b.
Proof.
  induction a as [| c a IH].
  - rewrite Url_facts.append_nil_l. apply substring_all.
  - rewrite append_cons. simpl. exact IH.
Qed.

(** [p == p[:n] + p[n:]] *)
Lemma substring_split (s : string) :
  forall n, s = substring 0 n s +:+ substring n (String.length s - n) s.
Proof.
  induction s as [| c s IH]; intros n.
  - destruct n; reflexivity.
  - destruct n as [| n].
    + cbn [substring String.length]. rewrite Nat.sub_0_r.
      change (substring 0 (S (String.length s)) (String c s))
        with (String c (substring 0 (String.length s) s)).
      rewrite substring_all. reflexivity.
    + cbn [String.length Nat.sub].
      change (substring 0 (S n) (String c s))
        with (String c (substring 0 n s)).
      change (substring (S n) (String.length s - n) (String c s))
        with (substring n (String.length s - n) s).
      rewrite append_cons. f_equal. apply IH.
Qed.

Lemma in_extensions (ext : string) :
  in_list ext EXTENSIONS = true <-> ext = ".mp3" \/ ext = ".flac".
Proof.
  unfold in_list, EXTENSIONS. cbn [existsb].
  rewrite orb_false_r, orb_true_iff, !String.eqb_eq. reflexivity.
Qed.

End Ext_facts.

(** X19. Which names of a directory listing [make_m3u] takes for audio
    files: exactly those that end in ".mp3" or ".flac", in lower case as
    written, after a stem that is not made of dots only.  So "a.flac" is
    taken, and ".flac" and "..mp3" are not. *)
Theorem audio_file_names (file_ : string) :
  PosixPath.rfind "/" file_ = None ->
  has_audio_extension file_ = true <->
  exists stem,
    PosixPath.all_dots stem = false
    /\ (file_ = stem +:+ ".mp3" \/ file_ = stem +:+ ".flac").
Proof.
  intros Hslash. unfold has_audio_extension, PosixPath.splitext.
  rewrite Hslash. split.
  - destruct (PosixPath.rfind "." file_) as [dot |] eqn:Edot;
      [| cbn [snd]; intros H; apply Ext_facts.in_extensions in H;
         destruct H as [H | H]; discriminate H].
    rewrite Nat.sub_0_r. cbn [Nat.leb andb].
    destruct (PosixPath.all_dots (substring 0 dot file_)) eqn:Edots;
      cbn [negb snd];
      [intros H; apply Ext_facts.in_extensions in H;
       destruct H as [H | H]; discriminate H |].
    intros H. apply Ext_facts.in_extensions in H.
    exists (substring 0 dot file_). split; [exact Edots |].
    pose proof (Ext_facts.substring_split file_ dot) as Hsplit.
    destruct H as [H | H]; rewrite H in Hsplit; [left | right]; exact Hsplit.
  - intros [stem [Hdots Hname]].
    assert (Hext : exists ext,
               file_ = stem +:+ ext /\ in_list ext EXTENSIONS = true
               /\ PosixPath.rfind "." ext = Some 0).
    { destruct Hname as [-> | ->]; eexists;
        (split; [reflexivity |]); split; reflexivity. }
    destruct Hext as [ext [-> [Hin Hdot]]].
    rewrite Ext_facts.rfind_app, Hdot, Nat.add_0_r, Nat.sub_0_r.
    cbn [Nat.leb andb].
    rewrite Url_facts.substring_prefix, Hdots. cbn [negb snd].
    rewrite Url_facts.length_append.
    replace (String.length stem + String.length ext - String.length stem)
      with (String.length ext) by lia.
    rewrite Ext_facts.substring_suffix. exact Hin.
Qed.

(** X19, witness: a track file as the downloader names it. *)
Lemma audio_file_names_witness :
  has_audio_extension "01. Song.flac" = true <->
  exists stem,
    PosixPath.all_dots stem = false
    /\ ("01. Song.flac" = stem +:+ ".mp3"
        \/ "01. Song.flac" = stem +:+ ".flac").
Proof.
  apply (audio_file_names "01. Song.flac"). reflexivity.
Defined.
